(** * StudyBuddy: the AI-response normaliser, the quiz view and the subject store

    A shallow embedding of
      - [src/services/geminiService.ts]  (cleanJson, repairJson,
        fallbackExtraction, analyzeLectureContent),
      - the quiz view                    (validQuizzes, getSafeCorrectIndex,
        handleSelect, calculateScore, the marking of the options),
      - [src/App.tsx]                    (handleMoveMaterial, executeDelete,
        handleCreateSubject, handleInputSubmit and the navigation),
      - the subject dashboard            (the move dialog, handleCreateSubmit),
      - the flashcards view              (handleNext, handlePrev),
      - [src/components/FileUpload.tsx]  (the check of a YouTube link),
    followed by the properties the specification states about them and by
    further properties of the same code. *)

From Stdlib Require Import List NArith ZArith Lia Bool String Ascii Permutation.
From Stdlib Require Import Floats.SpecFloat.
Import ListNotations.

(* ===================================================================== *)
(** ** JavaScript strings *)
(* ===================================================================== *)

(** A JavaScript string is a sequence of UTF-16 code units.  A code unit is
    modelled as an [N]; nothing below depends on the 16-bit bound. *)

Definition char := N.
Definition jsstring := list char.

(** [str s] is the JavaScript literal with the characters of [s] (ASCII
    literals only). *)
Definition str (s : string) : jsstring :=
  map N_of_ascii (list_ascii_of_string s).

(** [strq s] is [str s] with every apostrophe read as a double quote, for
    writing JSON texts legibly. *)
Definition strq (s : string) : jsstring :=
  map (fun c => if (c =? 39)%N then 34%N else c) (str s).

Definition c_quote : char := 34%N.      (* double quote *)
Definition c_comma : char := 44%N.      (* , *)
Definition c_colon : char := 58%N.      (* : *)
Definition c_lbracket : char := 91%N.   (* [ *)
Definition c_backslash : char := 92%N.  (* \ *)
Definition c_rbracket : char := 93%N.   (* ] *)
Definition c_backtick : char := 96%N.   (* ` *)
Definition c_lbrace : char := 123%N.    (* { *)
Definition c_rbrace : char := 125%N.    (* } *)

(** ECMAScript WhiteSpace and LineTerminator code points: the set that
    [String.prototype.trim] strips and that [\s] matches. *)
Definition isWhiteSpace (c : char) : bool :=
  ((9 <=? c) && (c <=? 13) || (c =? 32) || (c =? 160) || (c =? 5760)
   || (8192 <=? c) && (c <=? 8202) || (c =? 8232) || (c =? 8233)
   || (c =? 8239) || (c =? 8287) || (c =? 12288) || (c =? 65279))%N.

(** ECMAScript LineTerminator: what [.] does not match. *)
Definition isLineTerminator (c : char) : bool :=
  ((c =? 10) || (c =? 13) || (c =? 8232) || (c =? 8233))%N.

Fixpoint jsstring_eqb (a b : jsstring) : bool :=
  match a, b with
  | [], [] => true
  | x :: a', y :: b' => (x =? y)%N && jsstring_eqb a' b'
  | _, _ => false
  end.

Fixpoint startsWith (pat s : jsstring) : bool :=
  match pat, s with
  | [], _ => true
  | p :: pat', c :: s' => (p =? c)%N && startsWith pat' s'
  | _ :: _, [] => false
  end.

Definition endsWith (pat s : jsstring) : bool :=
  startsWith (rev pat) (rev s).

Fixpoint trimStart (s : jsstring) : jsstring :=
  match s with
  | c :: s' => if isWhiteSpace c then trimStart s' else s
  | [] => []
  end.

Definition trimEnd (s : jsstring) : jsstring := rev (trimStart (rev s)).

Definition trim (s : jsstring) : jsstring := trimEnd (trimStart s).

(** [s.indexOf(c)] for a one-character needle; [None] is JavaScript's -1. *)
Fixpoint indexOf (c : char) (s : jsstring) : option nat :=
  match s with
  | [] => None
  | x :: s' => if (x =? c)%N then Some 0
               else match indexOf c s' with
                    | Some i => Some (S i)
                    | None => None
                    end
  end.

(** [s.lastIndexOf(c)]. *)
Fixpoint lastIndexOf (c : char) (s : jsstring) : option nat :=
  match s with
  | [] => None
  | x :: s' => match lastIndexOf c s' with
               | Some i => Some (S i)
               | None => if (x =? c)%N then Some 0 else None
               end
  end.

(** [s.substring(a, b)] for [a <= b], and [s.substring(a)]. *)
Definition substring (a b : nat) (s : jsstring) : jsstring :=
  firstn (b - a) (skipn a s).

Definition substringFrom (a : nat) (s : jsstring) : jsstring := skipn a s.

(** [s.replace(/pat/g, '')] for a literal, non-empty pattern: the matches are
    found left to right and do not overlap.  [skip] counts the characters of
    the current match that are still to be dropped. *)
Fixpoint removeAllFrom (pat : jsstring) (skip : nat) (s : jsstring) : jsstring :=
  match s with
  | [] => []
  | c :: s' =>
      match skip with
      | S k => removeAllFrom pat k s'
      | O => if startsWith pat s
             then removeAllFrom pat (List.length pat - 1) s'
             else c :: removeAllFrom pat 0 s'
      end
  end.

Definition removeAll (pat s : jsstring) : jsstring := removeAllFrom pat 0 s.

(* ===================================================================== *)
(** ** geminiService.ts: cleanJson and repairJson *)
(* ===================================================================== *)

Definition fence_json : jsstring := str "```json".
Definition fence : jsstring := str "```".

(** [text.replace(/```json/g, '').replace(/```/g, '')] *)
Definition stripFences (text : jsstring) : jsstring :=
  removeAll fence (removeAll fence_json text).

Definition cleanJson (text : jsstring) : jsstring :=
  let cleaned := stripFences text in
  match indexOf c_lbrace cleaned with
  | None => cleaned
  | Some firstBrace =>
      match lastIndexOf c_rbrace cleaned with
      | Some lastBrace =>
          if firstBrace <? lastBrace
          then substring firstBrace (lastBrace + 1) cleaned
          else substringFrom firstBrace cleaned
      | None => substringFrom firstBrace cleaned
      end
  end.

(** [if (repaired.endsWith(backslash)) repaired = repaired.slice(0, -1)] *)
Definition dropTrailingBackslash (s : jsstring) : jsstring :=
  if endsWith [c_backslash] s then removelast s else s.

(** [repaired.replace(/,\s*$/, '')]: the only possible match is a comma
    followed by nothing but white space up to the end of the string. *)
Definition dropTrailingComma (s : jsstring) : jsstring :=
  let r := trimEnd s in
  if endsWith [c_comma] r then removelast r else s.

(** The scanner state of repairJson.  The JavaScript array [stack] grows at
    its end; here the top of the stack is the head of the list. *)
Record scan := Scan { stack : list char; inString : bool; escape : bool }.

Definition scan0 : scan := Scan [] false false.

Definition top_is (c : char) (st : list char) : bool :=
  match st with
  | t :: _ => (t =? c)%N
  | [] => false
  end.

(** One iteration of the [for] loop. *)
Definition scanStep (s : scan) (ch : char) : scan :=
  let inS := if (ch =? c_quote)%N && negb (escape s)
             then negb (inString s) else inString s in
  let esc := (ch =? c_backslash)%N && negb (escape s) in
  if inS then Scan (stack s) inS esc
  else if (ch =? c_lbrace)%N || (ch =? c_lbracket)%N
       then Scan (ch :: stack s) inS esc
  else if (ch =? c_rbrace)%N
       then Scan (if top_is c_lbrace (stack s) then tl (stack s) else stack s) inS esc
  else if (ch =? c_rbracket)%N
       then Scan (if top_is c_lbracket (stack s) then tl (stack s) else stack s) inS esc
  else Scan (stack s) inS esc.

Definition scanAll (s : scan) (text : jsstring) : scan :=
  fold_left scanStep text s.

(** The [while] loop: pop every opener and append its closer. *)
Fixpoint closeAll (st : list char) : jsstring :=
  match st with
  | [] => []
  | ch :: st' =>
      (if (ch =? c_lbrace)%N then [c_rbrace] else [])
      ++ (if (ch =? c_lbracket)%N then [c_rbracket] else [])
      ++ closeAll st'
  end.

Definition repairJson (jsonStr : jsstring) : jsstring :=
  let repaired := dropTrailingComma (dropTrailingBackslash (trim jsonStr)) in
  repaired ++ closeAll (stack (scanAll scan0 repaired)).

(* ===================================================================== *)
(** ** Vocabulary of the statements about repairJson *)
(* ===================================================================== *)

Definition isOpener (c : char) : bool := ((c =? c_lbrace) || (c =? c_lbracket))%N.
Definition isCloser (c : char) : bool := ((c =? c_rbrace) || (c =? c_rbracket))%N.
Definition isBracket (c : char) : bool := isOpener c || isCloser c.

(** The characters of a text that lie outside quoted strings, the quotes
    themselves left out.  Strings are delimited as the scanner of
    repairJson delimits them: a double quote that is not escaped opens or
    closes a string, and a backslash that is not itself escaped escapes the
    next character, inside a string and outside. *)
Fixpoint outsideStrings (inS esc : bool) (text : jsstring) : jsstring :=
  match text with
  | [] => []
  | ch :: rest =>
      let inS' := if (ch =? c_quote)%N && negb esc then negb inS else inS in
      let esc' := (ch =? c_backslash)%N && negb esc in
      if inS' || (ch =? c_quote)%N
      then outsideStrings inS' esc' rest
      else ch :: outsideStrings inS' esc' rest
  end.

(** Balanced braces and brackets: the Dyck language over the two pairs,
    with any other characters in between. *)
Inductive balanced : jsstring -> Prop :=
| balanced_nil : balanced []
| balanced_other c w :
    isBracket c = false -> balanced w -> balanced (c :: w)
| balanced_braces w1 w2 :
    balanced w1 -> balanced w2 ->
    balanced (c_lbrace :: w1 ++ c_rbrace :: w2)
| balanced_brackets w1 w2 :
    balanced w1 -> balanced w2 ->
    balanced (c_lbracket :: w1 ++ c_rbracket :: w2).

(** The stack discipline of the scanner on a text without strings. *)
Definition stackStep (st : list char) (ch : char) : list char :=
  if isOpener ch then ch :: st
  else if (ch =? c_rbrace)%N then (if top_is c_lbrace st then tl st else st)
  else if (ch =? c_rbracket)%N then (if top_is c_lbracket st then tl st else st)
  else st.

(* ===================================================================== *)
(** ** JSON texts *)
(* ===================================================================== *)

(** The grammar of ECMA-404 / RFC 8259, the input language of [JSON.parse],
    as concrete syntax trees: a tree records the tokens and the white space
    of a text, [render] writes the text out, and [valid] checks the tokens. *)

Definition isJsonWs (c : char) : bool :=
  ((c =? 32) || (c =? 9) || (c =? 10) || (c =? 13))%N.

Definition isDigit (c : char) : bool := ((48 <=? c) && (c <=? 57))%N.
Definition isDigit19 (c : char) : bool := ((49 <=? c) && (c <=? 57))%N.
Definition isHex (c : char) : bool :=
  (isDigit c || (65 <=? c) && (c <=? 70) || (97 <=? c) && (c <=? 102))%N.
Definition isExpMark (c : char) : bool := ((c =? 69) || (c =? 101))%N.

(** number = [ minus ] int [ frac ] [ exp ], as an automaton. *)
Inductive numState :=
  NStart | NMinus | NZero | NInt | NDot | NFrac | NExp | NExpSign | NExpDigits.

Definition numStep (q : numState) (c : char) : option numState :=
  match q with
  | NStart =>
      if (c =? 45)%N then Some NMinus
      else if (c =? 48)%N then Some NZero
      else if isDigit19 c then Some NInt else None
  | NMinus =>
      if (c =? 48)%N then Some NZero
      else if isDigit19 c then Some NInt else None
  | NZero =>
      if (c =? 46)%N then Some NDot
      else if isExpMark c then Some NExp else None
  | NInt =>
      if isDigit c then Some NInt
      else if (c =? 46)%N then Some NDot
      else if isExpMark c then Some NExp else None
  | NDot => if isDigit c then Some NFrac else None
  | NFrac =>
      if isDigit c then Some NFrac
      else if isExpMark c then Some NExp else None
  | NExp =>
      if ((c =? 43) || (c =? 45))%N then Some NExpSign
      else if isDigit c then Some NExpDigits else None
  | NExpSign => if isDigit c then Some NExpDigits else None
  | NExpDigits => if isDigit c then Some NExpDigits else None
  end.

Fixpoint numRun (q : numState) (s : jsstring) : option numState :=
  match s with
  | [] => Some q
  | c :: s' => match numStep q c with
               | Some q' => numRun q' s'
               | None => None
               end
  end.

Definition numAccept (q : numState) : bool :=
  match q with
  | NZero | NInt | NFrac | NExpDigits => true
  | _ => false
  end.

Definition isNumber (s : jsstring) : bool :=
  match numRun NStart s with
  | Some q => numAccept q
  | None => false
  end.

(** A number, [true], [false] or [null]. *)
Definition isAtom (s : jsstring) : bool :=
  isNumber s || jsstring_eqb s (str "true") || jsstring_eqb s (str "false")
  || jsstring_eqb s (str "null").

Definition isSimpleEscape (c : char) : bool :=
  ((c =? 34) || (c =? 92) || (c =? 47) || (c =? 98) || (c =? 102)
   || (c =? 110) || (c =? 114) || (c =? 116))%N.

Fixpoint hexPrefix (n : nat) (s : jsstring) : bool :=
  match n with
  | O => true
  | S n' => match s with
            | c :: s' => isHex c && hexPrefix n' s'
            | [] => false
            end
  end.

(** What may stand between the quotes of a string: characters from U+0020
    on other than the quote and the backslash, the two-character escapes,
    and [\u] followed by four hexadecimal digits. *)
Fixpoint isStringBody (b : jsstring) : bool :=
  match b with
  | [] => true
  | c :: rest =>
      if (c =? c_backslash)%N then
        match rest with
        | [] => false
        | e :: rest' =>
            (isSimpleEscape e || (e =? 117)%N && hexPrefix 4 rest')
            && isStringBody rest'
        end
      else negb (c =? c_quote)%N && (32 <=? c)%N && isStringBody rest
  end.

#[local] Set Warnings "-register-all".
Inductive cst :=
| CAtom (token : jsstring)
| CString (body : jsstring)
| CPad (before : jsstring) (value : cst) (after : jsstring)
| CArray (pad : jsstring) (elements : list cst)
| CObject (pad : jsstring) (members : list (cst * cst)).

Fixpoint joinComma (parts : list jsstring) : jsstring :=
  match parts with
  | [] => []
  | [a] => a
  | a :: rest => a ++ c_comma :: joinComma rest
  end.

Fixpoint render (t : cst) : jsstring :=
  match t with
  | CAtom token => token
  | CString body => c_quote :: body ++ [c_quote]
  | CPad before v after => before ++ render v ++ after
  | CArray pad elements =>
      c_lbracket :: pad ++ joinComma (map render elements) ++ [c_rbracket]
  | CObject pad members =>
      c_lbrace :: pad
        ++ joinComma (map (fun m => render (fst m) ++ c_colon :: render (snd m))
                          members)
        ++ [c_rbrace]
  end.

(** An object key is a string, possibly with white space around it. *)
Fixpoint isKey (t : cst) : bool :=
  match t with
  | CString _ => true
  | CPad _ v _ => isKey v
  | _ => false
  end.

Fixpoint valid (t : cst) : bool :=
  match t with
  | CAtom token => isAtom token
  | CString body => isStringBody body
  | CPad before v after =>
      forallb isJsonWs before && valid v && forallb isJsonWs after
  | CArray pad elements => forallb isJsonWs pad && forallb valid elements
  | CObject pad members =>
      forallb isJsonWs pad
      && forallb (fun m => isKey (fst m) && valid (fst m) && valid (snd m))
                 members
  end.

(** Induction on syntax trees, through the lists of elements and members. *)
Section cst_induction.
Variable P : cst -> Prop.
Hypothesis HAtom : forall token, P (CAtom token).
Hypothesis HString : forall body, P (CString body).
Hypothesis HPad : forall before v after, P v -> P (CPad before v after).
Hypothesis HArray : forall pad elements,
    Forall P elements -> P (CArray pad elements).
Hypothesis HObject : forall pad members,
    Forall (fun m => P (fst m) /\ P (snd m)) members ->
    P (CObject pad members).

Fixpoint cst_induction (t : cst) : P t :=
  match t with
  | CAtom token => HAtom token
  | CString body => HString body
  | CPad before v after => HPad before v after (cst_induction v)
  | CArray pad elements =>
      HArray pad elements
        ((fix go (l : list cst) : Forall P l :=
            match l with
            | [] => Forall_nil _
            | x :: l' => Forall_cons x (cst_induction x) (go l')
            end) elements)
  | CObject pad members =>
      HObject pad members
        ((fix go (l : list (cst * cst))
            : Forall (fun m => P (fst m) /\ P (snd m)) l :=
            match l with
            | [] => Forall_nil _
            | m :: l' =>
                Forall_cons m
                  (conj (cst_induction (fst m)) (cst_induction (snd m)))
                  (go l')
            end) members)
  end.
End cst_induction.

(** [d] is a well-formed JSON document. *)
Definition jsonText (d : jsstring) : Prop :=
  exists t, valid t = true /\ render t = d.

(** [d] is a well-formed JSON object, written without surrounding white
    space: it runs from its opening brace to its closing brace. *)
Definition jsonObject (d : jsstring) : Prop :=
  exists pad members,
    valid (CObject pad members) = true /\ render (CObject pad members) = d.

(** The tree without its white space: two documents with the same erased
    tree differ in white space only, and [JSON.parse] reads them as the
    same value. *)
Fixpoint eraseWs (t : cst) : cst :=
  match t with
  | CAtom token => CAtom token
  | CString body => CString body
  | CPad _ v _ => eraseWs v
  | CArray _ elements => CArray [] (map eraseWs elements)
  | CObject _ members =>
      CObject [] (map (fun m => (eraseWs (fst m), eraseWs (snd m))) members)
  end.

(** [d] and [d'] are well-formed JSON documents that differ in white space
    only. *)
Definition sameJson (d d' : jsstring) : Prop :=
  exists t t',
    valid t = true /\ render t = d
    /\ valid t' = true /\ render t' = d'
    /\ eraseWs t' = eraseWs t.

(** A character that is neither white space nor a closing brace or
    bracket. *)
Definition isSolid (c : char) : bool := negb (isWhiteSpace c || isCloser c).

Definition nonSolid (c : char) : bool := isWhiteSpace c || isCloser c.

(** The parts of a comma-separated list that precede its last part. *)
Definition joinPrefix (parts : list jsstring) : jsstring :=
  flat_map (fun p => p ++ [c_comma]) parts.

(** *** A checking scanner

    The scanner of repairJson made strict: it gives up on a closer that
    does not match the innermost opener, on a backslash outside a string,
    and on a closer that directly follows a comma.  It is used to relate
    JSON texts to what the scanner of repairJson computes on them. *)
Record strict := Strict { sc : scan; afterComma : bool }.

Definition strictStep (s : strict) (ch : char) : option strict :=
  let st := stack (sc s) in
  let inS := if (ch =? c_quote)%N && negb (escape (sc s))
             then negb (inString (sc s)) else inString (sc s) in
  let esc := (ch =? c_backslash)%N && negb (escape (sc s)) in
  if inS then Some (Strict (Scan st inS esc) (afterComma s))
  else if (ch =? c_backslash)%N then None
  else if (ch =? c_lbrace)%N || (ch =? c_lbracket)%N
       then Some (Strict (Scan (ch :: st) inS esc) false)
  else if (ch =? c_rbrace)%N
       then if top_is c_lbrace st && negb (afterComma s)
            then Some (Strict (Scan (tl st) inS esc) false) else None
  else if (ch =? c_rbracket)%N
       then if top_is c_lbracket st && negb (afterComma s)
            then Some (Strict (Scan (tl st) inS esc) false) else None
  else if (ch =? c_comma)%N then Some (Strict (Scan st inS esc) true)
  else if isWhiteSpace ch then Some (Strict (Scan st inS esc) (afterComma s))
  else Some (Strict (Scan st inS esc) false).

Fixpoint strictAll (s : strict) (text : jsstring) : option strict :=
  match text with
  | [] => Some s
  | ch :: rest => match strictStep s ch with
                  | Some s' => strictAll s' rest
                  | None => None
                  end
  end.

Definition clean (st : list char) (ac : bool) : strict :=
  Strict (Scan st false false) ac.

(** [closes a]: outside a string, [a] is scanned without a change of the
    stack and ends on a value; [keeps a]: it leaves the state as it is. *)
Definition closes (a : jsstring) : Prop :=
  forall st ac, strictAll (clean st ac) a = Some (clean st false).

Definition keeps (a : jsstring) : Prop :=
  forall st ac, strictAll (clean st ac) a = Some (clean st ac).

Definition plainChar (c : char) : bool :=
  negb ((c =? c_quote)%N || (c =? c_backslash)%N || isBracket c
        || (c =? c_comma)%N || isWhiteSpace c).

(** The state of the checking scanner inside a string. *)
Definition instr (st : list char) (ac : bool) : strict :=
  Strict (Scan st true false) ac.

(** [s.includes(pat)] *)
Fixpoint includes (pat s : jsstring) : bool :=
  startsWith pat s
  || match s with
     | [] => false
     | _ :: s' => includes pat s'
     end.

(* ===================================================================== *)
(** ** JavaScript values, exceptions *)
(* ===================================================================== *)

(** A JavaScript number is an IEEE 754 binary float: [S754_finite s m e] is
    the number (-1)^s * m * 2^e. *)
Definition number := spec_float.

Definition num_zero : number := S754_zero false.

(** The values [JSON.parse] can return, and [undefined], which reading an
    absent property gives. *)
Inductive JsValue :=
| JUndefined
| JNull
| JBool (b : bool)
| JNum (n : number)
| JStr (s : jsstring)
| JArr (elements : list JsValue)
| JObj (fields : list (jsstring * JsValue)).

(** ToBoolean. *)
Definition truthy (v : JsValue) : bool :=
  match v with
  | JUndefined | JNull => false
  | JBool b => b
  | JNum (S754_zero _) | JNum S754_nan => false
  | JNum _ => true
  | JStr [] => false
  | JStr _ => true
  | JArr _ | JObj _ => true
  end.

(** A thrown exception: an [Error] object with its [message].  The texts of
    the engine's own TypeErrors are those of V8; no property depends on
    them beyond their not being empty. *)
Record Exn := Error { message : jsstring }.

Inductive result (A : Type) :=
| Ok (a : A)
| Throw (e : Exn).
Arguments Ok {A} a.
Arguments Throw {A} e.

Definition bind {A B : Type} (r : result A) (k : A -> result B) : result B :=
  match r with
  | Ok a => k a
  | Throw e => Throw e
  end.

Notation "x <- r ;; k" := (bind r (fun x => k))
  (at level 61, r at next level, right associativity).

(** [try { body } catch (e) { handler(e) }] *)
Definition tryCatch {A : Type} (body : result A) (handler : Exn -> result A)
  : result A :=
  match body with
  | Ok a => Ok a
  | Throw e => handler e
  end.

Fixpoint mapM {A B : Type} (f : A -> result B) (l : list A) : result (list B) :=
  match l with
  | [] => Ok []
  | x :: l' => y <- f x ;; ys <- mapM f l' ;; Ok (y :: ys)
  end.

Fixpoint lookupField (k : jsstring) (fields : list (jsstring * JsValue)) : JsValue :=
  match fields with
  | [] => JUndefined
  | (k', v) :: rest => if jsstring_eqb k' k then v else lookupField k rest
  end.

(** [v.k] for the property names this code reads ([title], [summary],
    [quizzes], [flashcards], [question], [options], [correctAnswerIndex],
    [explanation]): none of them exists on the prototypes of strings,
    numbers, booleans or arrays, and reading any property of [null] or
    [undefined] throws. *)
Definition getProp (v : JsValue) (k : jsstring) : result JsValue :=
  match v with
  | JUndefined =>
      Throw (Error (str "Cannot read properties of undefined (reading '"
                      ++ k ++ str "')"))
  | JNull =>
      Throw (Error (str "Cannot read properties of null (reading '"
                      ++ k ++ str "')"))
  | JObj fields => Ok (lookupField k fields)
  | _ => Ok JUndefined
  end.

(** [v.includes(needle)] for a truthy [v]: a method of strings and of
    arrays, and not a function on any other value. *)
Definition callIncludes (v : JsValue) (needle : jsstring) : result bool :=
  match v with
  | JStr s => Ok (includes needle s)
  | JArr elements =>
      Ok (existsb (fun e => match e with
                            | JStr s => jsstring_eqb s needle
                            | _ => false
                            end) elements)
  | _ => Throw (Error (str "data.title.includes is not a function"))
  end.

(* ===================================================================== *)
(** ** geminiService.ts: the analysis types *)
(* ===================================================================== *)

Record Flashcard := { front : jsstring; back : jsstring }.

(** A quiz question as the post-processing of analyzeLectureContent builds
    it: [options] is an array and [correctAnswerIndex] a number by
    construction, the other two fields are whatever truthy value the
    response held. *)
Record QuizQuestion := {
  question : JsValue;
  options : list JsValue;
  correctAnswerIndex : number;
  explanation : JsValue
}.

(** What fallbackExtraction returns. *)
Record LectureAnalysis := {
  title : jsstring;
  summary : jsstring;
  keyPoints : list jsstring;
  flashcards : list Flashcard;
  quizzes : list QuizQuestion
}.

Definition flashcardToJs (f : Flashcard) : JsValue :=
  JObj [(str "front", JStr (front f)); (str "back", JStr (back f))].

Definition quizToJs (q : QuizQuestion) : JsValue :=
  JObj [(str "question", question q);
        (str "options", JArr (options q));
        (str "correctAnswerIndex", JNum (correctAnswerIndex q));
        (str "explanation", explanation q)].

(** The object literal that fallbackExtraction returns, as a value. *)
Definition analysisToJs (a : LectureAnalysis) : JsValue :=
  JObj [(str "title", JStr (title a));
        (str "summary", JStr (summary a));
        (str "keyPoints", JArr (map JStr (keyPoints a)));
        (str "flashcards", JArr (map flashcardToJs (flashcards a)));
        (str "quizzes", JArr (map quizToJs (quizzes a)))].

(** What analyzeLectureContent returns: the object [data], with its
    properties [quizzes] and [flashcards] set to these two arrays. *)
Record Delivered := {
  data : JsValue;
  deliveredQuizzes : list QuizQuestion;
  deliveredFlashcards : list JsValue
}.

(* ===================================================================== *)
(** ** geminiService.ts: fallbackExtraction *)
(* ===================================================================== *)

(** The regular expressions of fallbackExtraction, each written as the
    matcher it denotes.  A matcher is applied at one start position and
    returns what it captured and the text after the match.  In all of them
    the backtracking of the regular expression has a single way to
    succeed: a greedy [\s*] is followed by a character that is not white
    space, and a lazy repetition stops at the first place where what
    follows it matches. *)

Definition obind {A B : Type} (o : option A) (k : A -> option B) : option B :=
  match o with
  | Some a => k a
  | None => None
  end.

Definition expect (c : char) (s : jsstring) : option jsstring :=
  match s with
  | x :: s' => if (x =? c)%N then Some s' else None
  | [] => None
  end.

Definition literal (pat s : jsstring) : option jsstring :=
  if startsWith pat s then Some (skipn (List.length pat) s) else None.

(** The regular expression [KEY\s*:\s*], where KEY is the key in double
    quotes. *)
Definition afterKey (key s : jsstring) : option jsstring :=
  obind (literal (c_quote :: key ++ [c_quote]) s) (fun r =>
  obind (expect c_colon (trimStart r)) (fun r' =>
  Some (trimStart r'))).

(** A run of characters other than the double quote, and the quote that
    ends it. *)
Fixpoint untilQuote (s : jsstring) : option (jsstring * jsstring) :=
  match s with
  | [] => None
  | c :: r =>
      if (c =? c_quote)%N then Some ([], r)
      else obind (untilQuote r) (fun br => Some (c :: fst br, snd br))
  end.

(** A lazy run of units, each a character other than the quote and the
    backslash, or a backslash and a character that is not a line
    terminator; and the double quote that ends it. *)
Fixpoint stringBody (s : jsstring) : option (jsstring * jsstring) :=
  match s with
  | [] => None
  | c :: r =>
      if (c =? c_quote)%N then Some ([], r)
      else if (c =? c_backslash)%N then
        match r with
        | [] => None
        | e :: r' =>
            if isLineTerminator e then None
            else obind (stringBody r') (fun br => Some (c :: e :: fst br, snd br))
        end
      else obind (stringBody r) (fun br => Some (c :: fst br, snd br))
  end.

(** A lazy run of any characters, and the closing bracket that ends it. *)
Fixpoint untilRBracket (s : jsstring) : option (jsstring * jsstring) :=
  match s with
  | [] => None
  | c :: r =>
      if (c =? c_rbracket)%N then Some ([], r)
      else obind (untilRBracket r) (fun br => Some (c :: fst br, snd br))
  end.

(** The same for [.]: no line terminator in the run. *)
Fixpoint lineUntilRBracket (s : jsstring) : option (jsstring * jsstring) :=
  match s with
  | [] => None
  | c :: r =>
      if (c =? c_rbracket)%N then Some ([], r)
      else if isLineTerminator c then None
      else obind (lineUntilRBracket r) (fun br => Some (c :: fst br, snd br))
  end.

(** The leftmost start position at which a matcher succeeds: [text.match]
    without the [g] flag, and a lazy run of any characters in front of the
    rest of an expression. *)
Fixpoint searchFirst {A : Type} (m : jsstring -> option A) (s : jsstring)
  : option A :=
  match m s with
  | Some a => Some a
  | None => match s with
            | [] => None
            | _ :: s' => searchFirst m s'
            end
  end.

(** [text.matchAll] with the [g] flag: the matches from left to right, each
    search starting where the previous match ended.  [skip] counts the
    characters of the previous match still to be passed.  No expression
    here matches the empty string. *)
Fixpoint matchAllFrom {A : Type} (m : jsstring -> option (A * jsstring))
  (skip : nat) (s : jsstring) : list A :=
  match s with
  | [] => []
  | _ :: s' =>
      match skip with
      | S k => matchAllFrom m k s'
      | O => match m s with
             | Some (a, rest) =>
                 a :: matchAllFrom m (List.length s' - List.length rest) s'
             | None => matchAllFrom m 0 s'
             end
      end
  end.

Definition matchAll {A : Type} (m : jsstring -> option (A * jsstring))
  (s : jsstring) : list A := matchAllFrom m 0 s.

(** The title expression: the key [title], a double quote, and a lazy run
    of characters other than the double quote up to the next one. *)
Definition titleMatch (text : jsstring) : option jsstring :=
  searchFirst (fun s =>
    obind (afterKey (str "title") s) (fun r =>
    obind (expect c_quote r) (fun r' =>
    obind (untilQuote r') (fun br => Some (fst br))))) text.

(** The summary expression: the key [summary] and a string body. *)
Definition summaryMatch (text : jsstring) : option jsstring :=
  searchFirst (fun s =>
    obind (afterKey (str "summary") s) (fun r =>
    obind (expect c_quote r) (fun r' =>
    obind (stringBody r') (fun br => Some (fst br))))) text.

(** The key-points expression: the key [keyPoints], an opening bracket and
    a lazy run of any characters up to the next closing bracket. *)
Definition kpMatch (text : jsstring) : option jsstring :=
  searchFirst (fun s =>
    obind (afterKey (str "keyPoints") s) (fun r =>
    obind (expect c_lbracket r) (fun r' =>
    obind (untilRBracket r') (fun br => Some (fst br))))) text.

(** One quoted string body, for the strings inside the key-points list. *)
Definition quotedString (s : jsstring) : option (jsstring * jsstring) :=
  obind (expect c_quote s) stringBody.

Definition backAt (s : jsstring) : option (jsstring * jsstring) :=
  obind (afterKey (str "back") s) (fun r =>
  obind (expect c_quote r) stringBody).

(** The flashcard expression: the key [front] and a string body, a lazy run
    of any characters, then the key [back] and a string body. *)
Definition flashcardAt (s : jsstring) : option (Flashcard * jsstring) :=
  obind (afterKey (str "front") s) (fun r =>
  obind (expect c_quote r) (fun r' =>
  obind (stringBody r') (fun f =>
  obind (searchFirst backAt (snd f)) (fun b =>
  Some ({| front := fst f; back := fst b |}, snd b))))).

Definition optionsAt (s : jsstring) : option (jsstring * jsstring) :=
  obind (afterKey (str "options") s) (fun r =>
  obind (expect c_lbracket r) lineUntilRBracket).

(** The quiz-block expression: the key [question] and a non-empty run of
    characters other than the double quote, a lazy run of any characters,
    then the key [options], an opening bracket and a lazy run without line
    terminators up to the next closing bracket. *)
Definition quizAt (s : jsstring) : option ((jsstring * jsstring) * jsstring) :=
  obind (afterKey (str "question") s) (fun r =>
  obind (expect c_quote r) (fun r' =>
  obind (untilQuote r') (fun q =>
  match fst q with
  | [] => None
  | _ :: _ =>
      obind (searchFirst optionsAt (snd q)) (fun o =>
      Some ((fst q, fst o), snd o))
  end))).

(** [s.split(',')] *)
Fixpoint split (sep : char) (s : jsstring) : list jsstring :=
  match s with
  | [] => [[]]
  | x :: s' =>
      if (x =? sep)%N then [] :: split sep s'
      else match split sep s' with
           | p :: ps => (x :: p) :: ps
           | [] => [[x]]
           end
  end.

(** Replacing the matches of a double quote at the start or at the end of
    the string by nothing: the global pass removes a quote at the start,
    and then a quote at the end of what is left. *)
Definition stripQuotes (s : jsstring) : jsstring :=
  let s1 := match s with
            | c :: r => if (c =? c_quote)%N then r else s
            | [] => s
            end in
  if endsWith [c_quote] s1 then removelast s1 else s1.

(** Replacing every backslash followed by a double quote by a double
    quote. *)
Fixpoint unescapeQuotes (s : jsstring) : jsstring :=
  match s with
  | [] => []
  | c :: r =>
      match r with
      | e :: r' =>
          if (c =? c_backslash)%N && (e =? c_quote)%N
          then c_quote :: unescapeQuotes r'
          else c :: unescapeQuotes r
      | [] => [c]
      end
  end.

Definition fallbackOption (o : jsstring) : jsstring :=
  unescapeQuotes (stripQuotes (trim o)).

Definition fallbackQuiz (m : jsstring * jsstring) : QuizQuestion :=
  {| question := JStr (fst m);
     options := map JStr (firstn 4 (map fallbackOption (split c_comma (snd m))));
     correctAnswerIndex := num_zero;
     explanation := JStr (str "Explanation unavailable in fallback mode.") |}.

Definition fallbackKeyPoints (text : jsstring) : list jsstring :=
  match kpMatch text with
  | Some inner => matchAll quotedString inner
  | None => []
  end.

Definition fallbackExtraction (text : jsstring) : LectureAnalysis :=
  let keyPoints := fallbackKeyPoints text in
  let flashcards := matchAll flashcardAt text in
  let quizzes := map fallbackQuiz (matchAll quizAt text) in
  {| title := match titleMatch text with
              | Some t => t
              | None => str "Untitled Analysis"
              end;
     summary := match summaryMatch text with
                | Some s => s
                | None => str "Summary unavailable."
                end;
     keyPoints := match keyPoints with
                  | [] => [str "Analysis completed partially."]
                  | _ :: _ => keyPoints
                  end;
     flashcards := flashcards;
     quizzes := quizzes |}.

(* ===================================================================== *)
(** ** geminiService.ts: analyzeLectureContent *)
(* ===================================================================== *)

(** What one call of [ai.models.generateContent] does: it throws, or it
    returns a response whose [text] is a string or is undefined. *)
Inductive ApiOutcome :=
| ApiThrows (e : Exn)
| ApiResponds (text : option jsstring).

Definition MAX_RETRIES : nat := 2.

(** One run of analyzeLectureContent: the number of calls made to the
    service, and the value returned or the exception thrown. *)
Record Run := { calls : nat; outcome : result Delivered }.

Definition isArray (v : JsValue) : bool :=
  match v with
  | JArr _ => true
  | _ => false
  end.

Definition arrayOr (v : JsValue) (default : list JsValue) : list JsValue :=
  match v with
  | JArr elements => elements
  | _ => default
  end.

(** The function mapped over [data.quizzes]. *)
Definition sanitizeQuiz (q : JsValue) : result QuizQuestion :=
  qQuestion <- getProp q (str "question") ;;
  qOptions <- getProp q (str "options") ;;
  qIndex <- getProp q (str "correctAnswerIndex") ;;
  qExplanation <- getProp q (str "explanation") ;;
  Ok {| question := if truthy qQuestion then qQuestion
                    else JStr (str "Untitled Question");
        options := match qOptions with
                   | JArr elements =>
                       if 2 <=? List.length elements then elements
                       else [JStr (str "True"); JStr (str "False")]
                   | _ => [JStr (str "True"); JStr (str "False")]
                   end;
        correctAnswerIndex := match qIndex with
                              | JNum n => n
                              | _ => num_zero
                              end;
        explanation := if truthy qExplanation then qExplanation
                       else JStr (str "No explanation provided.") |}.

(** [data.quizzes.map(...).filter(q => q.options.length > 0)] *)
Definition sanitizeQuizzes (raw : list JsValue) : result (list QuizQuestion) :=
  mapped <- mapM sanitizeQuiz raw ;;
  Ok (filter (fun q => 0 <? List.length (options q)) mapped).

Section Service.

(** The platform: [JSON.parse], which returns a value or throws a
    SyntaxError, the conversion of a number to a string, and the remote
    service, whose answer to the [n]-th call is [api n]. *)
Variable JSON_parse : jsstring -> result JsValue.
Variable numberToString : number -> jsstring.
Variable api : nat -> ApiOutcome.

(** ToString, as [new Error(value)] applies it to its argument. *)
Fixpoint ToString (v : JsValue) : jsstring :=
  match v with
  | JUndefined => str "undefined"
  | JNull => str "null"
  | JBool true => str "true"
  | JBool false => str "false"
  | JNum n => numberToString n
  | JStr s => s
  | JArr elements =>
      joinComma
        (map (fun e => match e with
                       | JUndefined | JNull => []
                       | _ => ToString e
                       end) elements)
  | JObj _ => str "[object Object]"
  end.

(** The cascade of lines 219-231: strict parse, parse after repair,
    regular-expression extraction. *)
Definition parseResponse (responseText : jsstring) : result JsValue :=
  let cleanedText := cleanJson responseText in
  tryCatch (JSON_parse cleanedText) (fun parseError =>
    tryCatch (JSON_parse (repairJson cleanedText)) (fun repairError =>
      Ok (analysisToJs (fallbackExtraction responseText)))).

(** [data.title && (data.title.includes("Error")
                    || data.title.includes("Analysis Failed"))] *)
Definition titleSaysFailed (parsed : JsValue) : result bool :=
  dataTitle <- getProp parsed (str "title") ;;
  if truthy dataTitle then
    hasError <- callIncludes dataTitle (str "Error") ;;
    if hasError then Ok true
    else callIncludes dataTitle (str "Analysis Failed")
  else Ok false.

(** [data.quizzes = []] and [data.flashcards = []] create a property:
    module code is strict, so this throws when [data] is a primitive
    value. *)
Definition canHoldProperties (v : JsValue) : bool :=
  match v with
  | JObj _ | JArr _ => true
  | _ => false
  end.

(** [typeof v] *)
Definition typeOf (v : JsValue) : jsstring :=
  match v with
  | JUndefined => str "undefined"
  | JBool _ => str "boolean"
  | JNum _ => str "number"
  | JStr _ => str "string"
  | JNull | JArr _ | JObj _ => str "object"
  end.

(** The message of the TypeError for creating the property [k] on the
    primitive value [v]: it names the type of the value and quotes the
    value. *)
Definition cannotCreateProperty (k : jsstring) (v : JsValue) : jsstring :=
  str "Cannot create property '" ++ k ++ str "' on " ++ typeOf v
  ++ str " '" ++ ToString v ++ str "'".

(** Lines 233-248, on the parsed [data]. *)
Definition postProcess (parsed : JsValue) : result Delivered :=
  failed <- titleSaysFailed parsed ;;
  if failed then
    dataSummary <- getProp parsed (str "summary") ;;
    Throw (Error (if truthy dataSummary then ToString dataSummary
                  else str "Content analysis failed."))
  else
    rawQuizzes <- getProp parsed (str "quizzes") ;;
    rawFlashcards <- getProp parsed (str "flashcards") ;;
    if negb (canHoldProperties parsed) then
      Throw (Error (cannotCreateProperty (str "quizzes") parsed))
    else
      sanitized <- sanitizeQuizzes (arrayOr rawQuizzes []) ;;
      Ok {| data := parsed;
            deliveredQuizzes := sanitized;
            deliveredFlashcards := arrayOr rawFlashcards [] |}.

(** The body of the [try] block of one attempt. *)
Definition runAttempt (attempt : nat) : result Delivered :=
  match api attempt with
  | ApiThrows e => Throw e
  | ApiResponds None => Throw (Error (str "Empty AI response"))
  | ApiResponds (Some []) => Throw (Error (str "Empty AI response"))
  | ApiResponds (Some responseText) =>
      parsed <- parseResponse responseText ;;
      postProcess parsed
  end.

(** [error.message || "Failed to analyze content"] *)
Definition finalMessage (e : Exn) : jsstring :=
  match message e with
  | [] => str "Failed to analyze content"
  | _ :: _ => message e
  end.

(** The [for] loop from [attempt] on, with [remaining] iterations left
    before [attempt] exceeds MAX_RETRIES, and the [throw] after it. *)
Fixpoint retryLoop (remaining attempt : nat) : Run :=
  match remaining with
  | O => {| calls := 0; outcome := Throw (Error (str "Analysis failed")) |}
  | S remaining' =>
      match runAttempt attempt with
      | Ok delivered => {| calls := 1; outcome := Ok delivered |}
      | Throw e =>
          if attempt =? MAX_RETRIES
          then {| calls := 1; outcome := Throw (Error (finalMessage e)) |}
          else let rest := retryLoop remaining' (attempt + 1) in
               {| calls := S (calls rest); outcome := outcome rest |}
      end
  end.

Definition analyzeLectureContent : Run := retryLoop MAX_RETRIES 1.

End Service.

(* ===================================================================== *)
(** ** The quiz view *)
(* ===================================================================== *)

(** The filter of the view.  Its input has the type [QuizQuestion[]]: each
    [q] is an object and [q.options] an array, which leaves the tests on
    [q.question] and on the number of options. *)
Definition validQuizzes (quizzes : list QuizQuestion) : list QuizQuestion :=
  filter (fun q => truthy (question q) && (2 <=? List.length (options q)))
         quizzes.

(** An integer-valued number, or an infinity: what [Math.floor] returns on
    a number that is not NaN.  The integers here are all exactly
    representable, so [Math.max] and [Math.min] on them are exact. *)
Inductive integral :=
| NegInfinity
| Int (z : Z)
| PosInfinity.

Definition isNaN (n : number) : bool :=
  match n with
  | S754_nan => true
  | _ => false
  end.

(** [Math.floor] *)
Definition floor (n : number) : integral :=
  match n with
  | S754_zero _ => Int 0
  | S754_infinity s => if s then NegInfinity else PosInfinity
  | S754_nan => Int 0
  | S754_finite s m e =>
      Int (Z.shiftl (if s then Z.neg m else Z.pos m) e)
  end.

Definition maxI (a b : integral) : integral :=
  match a, b with
  | PosInfinity, _ | _, PosInfinity => PosInfinity
  | NegInfinity, x | x, NegInfinity => x
  | Int x, Int y => Int (Z.max x y)
  end.

Definition minI (a b : integral) : integral :=
  match a, b with
  | NegInfinity, _ | _, NegInfinity => NegInfinity
  | PosInfinity, x | x, PosInfinity => x
  | Int x, Int y => Int (Z.min x y)
  end.

(** getSafeCorrectIndex.  [Number(q.correctAnswerIndex)] is the field
    itself, which is a number. *)
Definition getSafeCorrectIndex (q : QuizQuestion) : integral :=
  let raw := correctAnswerIndex q in
  let index := if isNaN raw then Int 0 else floor raw in
  minI (maxI (Int 0) index) (Int (Z.of_nat (List.length (options q)) - 1)).

(* ===================================================================== *)
(** ** App.tsx: subjects and materials *)
(* ===================================================================== *)

Inductive SourceType := SourceFile | SourceUrl.

Record SavedMaterial := {
  materialId : jsstring;
  materialTitle : jsstring;
  materialType : SourceType;
  materialDate : Z;
  analysis : Delivered;
  originalSource : jsstring
}.

Record Subject := {
  subjectId : jsstring;
  subjectName : jsstring;
  materials : list SavedMaterial;
  color : jsstring
}.

Definition withMaterials (sub : Subject) (ms : list SavedMaterial) : Subject :=
  {| subjectId := subjectId sub;
     subjectName := subjectName sub;
     materials := ms;
     color := color sub |}.

(** The [for] loop of handleMoveMaterial: the first subject that holds a
    material with this id, and that material. *)
Fixpoint findSource (mid : jsstring) (prev : list Subject)
  : option (SavedMaterial * jsstring) :=
  match prev with
  | [] => None
  | subject :: rest =>
      match find (fun m => jsstring_eqb (materialId m) mid) (materials subject) with
      | Some found => Some (found, subjectId subject)
      | None => findSource mid rest
      end
  end.

(** The updater that handleMoveMaterial passes to [setSubjects]. *)
Definition moveMaterial (mid targetSubjectId : jsstring) (prev : list Subject)
  : list Subject :=
  match findSource mid prev with
  | None => prev
  | Some (materialToMove, sourceSubjectId) =>
      match sourceSubjectId with
      | [] => prev
      | _ :: _ =>
          if jsstring_eqb sourceSubjectId targetSubjectId then prev
          else
            map (fun sub =>
                   if jsstring_eqb (subjectId sub) sourceSubjectId then
                     withMaterials sub
                       (filter (fun m => negb (jsstring_eqb (materialId m) mid))
                               (materials sub))
                   else if jsstring_eqb (subjectId sub) targetSubjectId then
                     withMaterials sub (materialToMove :: materials sub)
                   else sub)
                prev
      end
  end.

Inductive AppView := ViewDashboard | ViewUpload | ViewAnalysis.

Record AppState := {
  subjects : list Subject;
  activeSubjectId : option jsstring;
  currentMaterial : option SavedMaterial;
  currentView : AppView
}.

Definition handleMoveMaterial (mid targetSubjectId : jsstring) (s : AppState)
  : AppState :=
  let closing :=
    match currentMaterial s, activeSubjectId s with
    | Some cm, Some active =>
        jsstring_eqb (materialId cm) mid
        && negb (match active with [] => true | _ :: _ => false end)
        && negb (jsstring_eqb targetSubjectId active)
    | _, _ => false
    end in
  {| subjects := moveMaterial mid targetSubjectId (subjects s);
     activeSubjectId := activeSubjectId s;
     currentMaterial := if closing then None else currentMaterial s;
     currentView := if closing then ViewDashboard else currentView s |}.

(** *** The state of the subject store

    Identifiers identify: no two subjects share an id, no two materials
    share an id, and a subject id is not the empty string (ids are ['1'],
    ['2'] and decimal time stamps). *)
Definition allMaterials (subs : list Subject) : list SavedMaterial :=
  List.concat (map materials subs).

Definition wellFormed (subs : list Subject) : Prop :=
  NoDup (map subjectId subs)
  /\ NoDup (map materialId (allMaterials subs))
  /\ Forall (fun sub => subjectId sub <> []) subs.

(** The materials of the subject with a given id. *)
Fixpoint materialsOf (sid : jsstring) (subs : list Subject) : list SavedMaterial :=
  match subs with
  | [] => []
  | sub :: rest =>
      if jsstring_eqb (subjectId sub) sid then materials sub
      else materialsOf sid rest
  end.

(* ===================================================================== *)
(** ** Vocabulary of the statements about the quiz fields *)
(* ===================================================================== *)

(** The integer a number is, when it is one. *)
Definition integerValue (n : number) : option Z :=
  match n with
  | S754_zero _ => Some 0%Z
  | S754_finite s m e =>
      if ((0 <=? e) || (Z.pos m mod 2 ^ (- e) =? 0))%Z
      then Some (Z.shiftl (if s then Z.neg m else Z.pos m) e)
      else None
  | _ => None
  end.

(** [n] is an integer of the range [0 .. len-1]. *)
Definition indexInRange (n : number) (len : nat) : Prop :=
  exists i, integerValue n = Some i /\ (0 <= i <= Z.of_nat len - 1)%Z.

Definition isNullish (v : JsValue) : bool :=
  match v with
  | JUndefined | JNull => true
  | _ => false
  end.

Definition isString (v : JsValue) : bool :=
  match v with
  | JStr _ => true
  | _ => false
  end.

(** [v] is a list of at least two strings. *)
Definition isListOfTwoStrings (v : JsValue) : bool :=
  match v with
  | JArr elements => (2 <=? List.length elements) && forallb isString elements
  | _ => false
  end.

Definition placeholderOptions : list JsValue :=
  [JStr (str "True"); JStr (str "False")].

Definition placeholderExplanation : JsValue :=
  JStr (str "No explanation provided.").

(** The number [m] as a JavaScript number. *)
Definition numOfPos (m : positive) : number := S754_finite false m 0.

(** The value read for a property of a quiz element. *)
Definition fieldOf (raw : JsValue) (k : jsstring) : JsValue :=
  match raw with
  | JObj fields => lookupField k fields
  | _ => JUndefined
  end.

(** *** The other updates of the store

    The five updaters that App.tsx passes to [setSubjects]: creating a
    subject, deleting a subject, deleting a material, moving a material
    (above), and saving a new material in the active subject. *)
Definition initialSubjects : list Subject :=
  [ {| subjectId := str "1"; subjectName := str "Biology 101";
       materials := []; color := str "bg-emerald-500" |};
    {| subjectId := str "2"; subjectName := str "Art History";
       materials := []; color := str "bg-purple-500" |} ].

Definition createSubject (newSubject : Subject) (prev : list Subject)
  : list Subject := prev ++ [newSubject].

Definition deleteSubject (sid : jsstring) (prev : list Subject) : list Subject :=
  filter (fun s => negb (jsstring_eqb (subjectId s) sid)) prev.

Definition deleteMaterial (sid mid : jsstring) (prev : list Subject)
  : list Subject :=
  map (fun sub =>
         if jsstring_eqb (subjectId sub) sid then
           withMaterials sub
             (filter (fun m => negb (jsstring_eqb (materialId m) mid))
                     (materials sub))
         else sub)
      prev.

Definition addMaterial (active : jsstring) (newMaterial : SavedMaterial)
  (prev : list Subject) : list Subject :=
  map (fun sub =>
         if jsstring_eqb (subjectId sub) active then
           withMaterials sub (newMaterial :: materials sub)
         else sub)
      prev.

(** One update of the store.  The id that [Date.now().toString()] gives to
    a new subject or to a new material is not empty and not in use. *)
Inductive update : list Subject -> list Subject -> Prop :=
| update_create prev now name col :
    now <> [] -> ~ In now (map subjectId prev) ->
    update prev (createSubject {| subjectId := now; subjectName := name;
                                  materials := []; color := col |} prev)
| update_deleteSubject prev sid :
    update prev (deleteSubject sid prev)
| update_deleteMaterial prev sid mid :
    update prev (deleteMaterial sid mid prev)
| update_move prev mid tgt :
    update prev (moveMaterial mid tgt prev)
| update_add prev active m :
    ~ In (materialId m) (map materialId (allMaterials prev)) ->
    update prev (addMaterial active m prev).

(** The stores the application can be in. *)
Inductive reachable : list Subject -> Prop :=
| reachable_initial : reachable initialSubjects
| reachable_update prev next :
    reachable prev -> update prev next -> reachable next.

(** The function that moveMaterial maps over the subjects, once the source
    is known. *)
Definition moveStep (mid sourceSubjectId targetSubjectId : jsstring)
  (materialToMove : SavedMaterial) (sub : Subject) : Subject :=
  if jsstring_eqb (subjectId sub) sourceSubjectId then
    withMaterials sub
      (filter (fun m => negb (jsstring_eqb (materialId m) mid)) (materials sub))
  else if jsstring_eqb (subjectId sub) targetSubjectId then
    withMaterials sub (materialToMove :: materials sub)
  else sub.

(** How often a material id occurs in the whole store. *)
Definition occurrences (mid : jsstring) (subs : list Subject) : nat :=
  List.length (filter (fun m => jsstring_eqb (materialId m) mid)
                      (allMaterials subs)).

(* ===================================================================== *)
(** ** Vocabulary and sample inputs of the statements below *)
(* ===================================================================== *)

(** A response whose only quiz has four options and the index 7, and a
    parser that reads this text as [JSON.parse] does. *)
Definition responseIndex7 : jsstring :=
  strq "{'quizzes':[{'question':'Q','options':['a','b','c','d'],'correctAnswerIndex':7}]}".

Definition valueIndex7 : JsValue :=
  JObj [(str "quizzes",
         JArr [JObj [(str "question", JStr (str "Q"));
                     (str "options",
                      JArr [JStr (str "a"); JStr (str "b");
                            JStr (str "c"); JStr (str "d")]);
                     (str "correctAnswerIndex", JNum (numOfPos 7))]])].

Definition parseOnly (text : jsstring) (v : JsValue) (s : jsstring)
  : result JsValue :=
  if jsstring_eqb s text then Ok v
  else Throw (Error (str "Unexpected token")).

Definition quizIndex7 : QuizQuestion :=
  {| question := JStr (str "Q");
     options := [JStr (str "a"); JStr (str "b"); JStr (str "c"); JStr (str "d")];
     correctAnswerIndex := numOfPos 7;
     explanation := placeholderExplanation |}.

(** What the post-processing makes of the options and of the explanation
    of one element of [data.quizzes]. *)
Definition sanitizedFrom (raw : JsValue) (q : QuizQuestion) : Prop :=
  options q = match fieldOf raw (str "options") with
              | JArr elements =>
                  if 2 <=? List.length elements then elements
                  else placeholderOptions
              | _ => placeholderOptions
              end
  /\ explanation q = (if truthy (fieldOf raw (str "explanation"))
                      then fieldOf raw (str "explanation")
                      else placeholderExplanation)
  /\ (fieldOf raw (str "options") = JUndefined -> options q = placeholderOptions)
  /\ (fieldOf raw (str "explanation") = JUndefined ->
      explanation q = placeholderExplanation).

Definition rawNoOptions : JsValue :=
  JObj [(str "question", JStr (str "Q1"))].

Definition rawNumericOptions : JsValue :=
  JObj [(str "question", JStr (str "2+2?"));
        (str "options", JArr [JNum (numOfPos 3); JNum (numOfPos 4)]);
        (str "explanation", JStr (str "sum"))].

Definition quoted (key : jsstring) : jsstring := c_quote :: key ++ [c_quote].

Definition emptyAnalysis : Delivered :=
  {| data := JObj []; deliveredQuizzes := []; deliveredFlashcards := [] |}.

Definition material (mid : string) : SavedMaterial :=
  {| materialId := str mid; materialTitle := str "Lecture";
     materialType := SourceFile; materialDate := 0;
     analysis := emptyAnalysis; originalSource := str "lecture.pdf" |}.

Definition biology : Subject :=
  {| subjectId := str "1"; subjectName := str "Biology 101";
     materials := [material "m1"; material "m2"];
     color := str "bg-emerald-500" |}.

Definition artHistory : Subject :=
  {| subjectId := str "2"; subjectName := str "Art History";
     materials := [material "m3"]; color := str "bg-purple-500" |}.

Definition sampleState : AppState :=
  {| subjects := [biology; artHistory];
     activeSubjectId := Some (str "1");
     currentMaterial := None;
     currentView := ViewDashboard |}.

(* ===================================================================== *)
(** ** App.tsx: deleting, creating and saving *)
(* ===================================================================== *)

Inductive DeleteType := DeleteOfSubject | DeleteOfMaterial.

(** The state [deleteConfirmation]: what the dialog is about to delete. *)
Record DeleteConfirmation := {
  confirmType : DeleteType;
  confirmSubjectId : jsstring;
  confirmMaterialId : option jsstring;
  confirmTitle : jsstring
}.

(** handleDeleteSubject: the confirmation it sets, or [None] when it
    returns without setting one. *)
Definition handleDeleteSubject (subs : list Subject) (sid : jsstring)
  : option DeleteConfirmation :=
  match find (fun s => jsstring_eqb (subjectId s) sid) subs with
  | Some subject =>
      Some {| confirmType := DeleteOfSubject;
              confirmSubjectId := sid;
              confirmMaterialId := None;
              confirmTitle := subjectName subject |}
  | None => None
  end.

(** handleDeleteMaterial, likewise. *)
Definition handleDeleteMaterial (subs : list Subject) (sid mid : jsstring)
  : option DeleteConfirmation :=
  match find (fun s => jsstring_eqb (subjectId s) sid) subs with
  | Some subject =>
      match find (fun m => jsstring_eqb (materialId m) mid) (materials subject) with
      | Some material =>
          Some {| confirmType := DeleteOfMaterial;
                  confirmSubjectId := sid;
                  confirmMaterialId := Some mid;
                  confirmTitle := materialTitle material |}
      | None => None
      end
  | None => None
  end.

(** executeDelete, on the confirmation held when the dialog is confirmed.
    A material is deleted only if the confirmation holds a material id
    that is truthy, that is, not the empty string. *)
Definition executeDelete (deleteConfirmation : option DeleteConfirmation)
  (s : AppState) : AppState :=
  match deleteConfirmation with
  | None => s
  | Some c =>
      match confirmType c with
      | DeleteOfSubject =>
          let closing :=
            match activeSubjectId s with
            | Some active => jsstring_eqb active (confirmSubjectId c)
            | None => false
            end in
          {| subjects := deleteSubject (confirmSubjectId c) (subjects s);
             activeSubjectId := if closing then None else activeSubjectId s;
             currentMaterial := currentMaterial s;
             currentView := if closing then ViewDashboard else currentView s |}
      | DeleteOfMaterial =>
          match confirmMaterialId c with
          | Some (ch :: rest) =>
              let mid := ch :: rest in
              let closing :=
                match currentMaterial s with
                | Some cm => jsstring_eqb (materialId cm) mid
                | None => false
                end in
              {| subjects := deleteMaterial (confirmSubjectId c) mid (subjects s);
                 activeSubjectId := activeSubjectId s;
                 currentMaterial := if closing then None else currentMaterial s;
                 currentView := if closing then ViewDashboard else currentView s |}
          | _ => s
          end
      end
  end.

(** handleCreateSubject.  [now] is [Date.now().toString()] and [pick] is
    [Math.floor(Math.random() * 5)]. *)
Definition subjectColors : list jsstring :=
  [str "blue"; str "indigo"; str "purple"; str "pink"; str "teal"].

Definition handleCreateSubject (now : jsstring) (pick : nat) (name : jsstring)
  (prev : list Subject) : list Subject :=
  createSubject
    {| subjectId := now;
       subjectName := name;
       materials := [];
       color := str "bg-" ++ nth pick subjectColors (str "undefined")
                ++ str "-500" |}
    prev.

(** The text that the [catch] block of handleInputSubmit passes to
    [setError], for an [Error] object [err]; [onLine] is
    [navigator.onLine]. *)
Definition errorMsg (onLine : bool) (err : Exn) : jsstring :=
  if negb onLine then
    str "Network Error: Please check your internet connection."
  else if jsstring_eqb (message err) (str "AI_CONTENT_ACCESS_ERROR") then
    str "Content Access Error: The AI could not access the transcript or content of this video. It might be private, age-restricted, or lacking captions."
  else if jsstring_eqb (message err) (str "AI_JSON_PARSE_ERROR") then
    str "Analysis Error: The AI response was malformed. Please try a different video or shorter file."
  else
    match message err with
    | [] => str "An unexpected error occurred."
    | _ :: _ =>
        if includes (str "400") (message err) then
          str "Input Error: The file might be corrupted or the format invalid."
        else if includes (str "503") (message err)
                || includes (str "Overloaded") (message err) then
          str "Server Busy: AI Service is temporarily overloaded. Please try again."
        else if includes (str "SAFETY") (message err) then
          str "Content Filtered: The lecture content was flagged by safety filters."
        else message err
    end.

(* ===================================================================== *)
(** ** The subject dashboard *)
(* ===================================================================== *)

(** [s.id === currentSubjectId], where [currentSubjectId] is a string or
    null. *)
Definition isCurrent (currentSubjectId : option jsstring) (s : Subject) : bool :=
  match currentSubjectId with
  | Some cur => jsstring_eqb (subjectId s) cur
  | None => false
  end.

(** The subject whose materials the dashboard lists. *)
Definition activeSubject (subs : list Subject)
  (currentSubjectId : option jsstring) : option Subject :=
  find (isCurrent currentSubjectId) subs.

(** The subjects that the move dialog offers as destinations. *)
Definition moveTargets (subs : list Subject)
  (currentSubjectId : option jsstring) : list Subject :=
  filter (fun s => negb (isCurrent currentSubjectId s)) subs.

(** handleMoveConfirm, with App.tsx's handleMoveMaterial as
    [onMoveMaterial]. *)
Definition handleMoveConfirm (materialToMove : option SavedMaterial)
  (targetSubjectId : jsstring) (s : AppState) : AppState :=
  match materialToMove with
  | Some m => handleMoveMaterial (materialId m) targetSubjectId s
  | None => s
  end.

(** handleCreateSubmit, with App.tsx's handleCreateSubject as
    [onCreateSubject]: the name is tested after trimming and passed on as
    typed. *)
Definition handleCreateSubmit (now : jsstring) (pick : nat)
  (newSubjectName : jsstring) (prev : list Subject) : list Subject :=
  match trim newSubjectName with
  | [] => prev
  | _ :: _ => handleCreateSubject now pick newSubjectName prev
  end.

(** handleInputSubmit.  [capturedSubjectId] is the [activeSubjectId] of the
    render in which the handler was created: the handler tests and uses
    this value, not the state at the time it runs, and the upload form
    calls it after awaiting the metadata of a link, when the state may
    have moved on.  [attempt] is the outcome of the [try] block up to the
    construction of [newMaterial]: that record, built from the result of
    the analysis, or the exception thrown; the second component is the new
    value of the state [error].  From the call to the end of the analysis
    the application renders the processing screen only, so no other
    handler runs in between. *)
Definition handleInputSubmit (capturedSubjectId : option jsstring)
  (onLine : bool) (attempt : result SavedMaterial)
  (error : option jsstring) (s : AppState) : AppState * option jsstring :=
  match capturedSubjectId with
  | None | Some [] => (s, error)
  | Some active =>
      match attempt with
      | Ok newMaterial =>
          ({| subjects := addMaterial active newMaterial (subjects s);
              activeSubjectId := activeSubjectId s;
              currentMaterial := Some newMaterial;
              currentView := ViewAnalysis |}, None)
      | Throw err => (s, Some (errorMsg onLine err))
      end
  end.

(** The handlers of App.tsx that only navigate. *)
Definition onSelectSubject (id : jsstring) (s : AppState) : AppState :=
  {| subjects := subjects s; activeSubjectId := Some id;
     currentMaterial := currentMaterial s; currentView := currentView s |}.

Definition onBackToDashboard (s : AppState) : AppState :=
  {| subjects := subjects s; activeSubjectId := None;
     currentMaterial := currentMaterial s; currentView := currentView s |}.

Definition onNewAnalysis (id : jsstring) (s : AppState) : AppState :=
  {| subjects := subjects s; activeSubjectId := Some id;
     currentMaterial := currentMaterial s; currentView := ViewUpload |}.

Definition onSelectMaterial (m : SavedMaterial) (s : AppState) : AppState :=
  {| subjects := subjects s; activeSubjectId := activeSubjectId s;
     currentMaterial := Some m; currentView := ViewAnalysis |}.

(** The logo of the header. *)
Definition onHome (s : AppState) : AppState :=
  {| subjects := subjects s; activeSubjectId := None;
     currentMaterial := currentMaterial s; currentView := ViewDashboard |}.

(** The two back buttons. *)
Definition onBack (s : AppState) : AppState :=
  {| subjects := subjects s; activeSubjectId := activeSubjectId s;
     currentMaterial := currentMaterial s; currentView := ViewDashboard |}.

Definition handleLogout (s : AppState) : AppState :=
  {| subjects := subjects s; activeSubjectId := None;
     currentMaterial := None; currentView := ViewDashboard |}.

Definition initialState : AppState :=
  {| subjects := initialSubjects; activeSubjectId := None;
     currentMaterial := None; currentView := ViewDashboard |}.

(** One event of the application.  The dashboard calls [onSelectSubject]
    with the id of a subject it renders and [onNewAnalysis] with the id of
    the active subject; the other handlers are taken with any argument,
    and a submission with any captured subject id.  As above, an id made
    by [Date.now().toString()] is not empty and not in use. *)
Inductive appStep : AppState -> AppState -> Prop :=
| step_selectSubject st s :
    In s (subjects st) -> appStep st (onSelectSubject (subjectId s) st)
| step_backToDashboard st : appStep st (onBackToDashboard st)
| step_newAnalysis st s :
    activeSubject (subjects st) (activeSubjectId st) = Some s ->
    appStep st (onNewAnalysis (subjectId s) st)
| step_selectMaterial st m : appStep st (onSelectMaterial m st)
| step_home st : appStep st (onHome st)
| step_back st : appStep st (onBack st)
| step_logout st : appStep st (handleLogout st)
| step_create st now pick name :
    now <> [] -> ~ In now (map subjectId (subjects st)) ->
    appStep st {| subjects := handleCreateSubmit now pick name (subjects st);
                  activeSubjectId := activeSubjectId st;
                  currentMaterial := currentMaterial st;
                  currentView := currentView st |}
| step_delete st confirmation : appStep st (executeDelete confirmation st)
| step_move st mid tgt : appStep st (handleMoveMaterial mid tgt st)
| step_submit st captured onLine attempt error :
    (forall m, attempt = Ok m ->
       ~ In (materialId m) (map materialId (allMaterials (subjects st)))) ->
    appStep st (fst (handleInputSubmit captured onLine attempt error st)).

Inductive appReachable : AppState -> Prop :=
| appReachable_initial : appReachable initialState
| appReachable_step st st' :
    appReachable st -> appStep st st' -> appReachable st'.

(** The active subject, when there is one, is a subject of the store. *)
Definition activeInStore (st : AppState) : Prop :=
  match activeSubjectId st with
  | Some active => In active (map subjectId (subjects st))
  | None => True
  end.

(** The number of backticks a text starts with. *)
Fixpoint leadingBackticks (s : jsstring) : nat :=
  match s with
  | c :: s' => if (c =? c_backtick)%N then S (leadingBackticks s') else 0
  | [] => 0
  end.

(** A quiz question with its options replaced by the placeholder pair when
    it has fewer than two. *)
Definition withPlaceholderOptions (q : QuizQuestion) : QuizQuestion :=
  {| question := question q;
     options := if 2 <=? List.length (options q) then options q
                else placeholderOptions;
     correctAnswerIndex := correctAnswerIndex q;
     explanation := explanation q |}.

(** A response in which only the regular expressions find the quiz. *)
Definition responseBrokenQuiz : jsstring :=
  strq "{'title': 'Cells' 'quizzes': [{'question': 'Is it alive?', 'options': ['yes', 'no', 'maybe', 'a', 'b']}".

(** A text without double quotes and backslashes. *)
Definition plainText (s : jsstring) : Prop :=
  ~ In c_quote s /\ ~ In c_backslash s.

(** A member of a JSON object whose value is a string, as it is written:
    the quoted key, a colon with white space around it, the quoted text. *)
Definition memberText (key ws1 ws2 body : jsstring) : jsstring :=
  quoted key ++ ws1 ++ [c_colon] ++ ws2 ++ [c_quote] ++ body ++ [c_quote].

(** [writesCards cards text]: the text holds the flashcards [cards], in
    this order, each written as an object that opens with a brace, the
    member front and, after a text [mid] without a double quote, the
    member back, with plain front and back; the key front does not occur
    in the text [sep] before a card, nor in the rest behind the last
    one. *)
Inductive writesCards : list Flashcard -> jsstring -> Prop :=
| writes_none tail :
    includes (quoted (str "front")) tail = false -> writesCards [] tail
| writes_card sep ws0 ws1 ws2 mid ws3 ws4 c cards rest :
    includes (quoted (str "front")) sep = false ->
    forallb isWhiteSpace (ws0 ++ ws1 ++ ws2 ++ ws3 ++ ws4) = true ->
    ~ In c_quote mid ->
    plainText (front c) -> plainText (back c) ->
    writesCards cards rest ->
    writesCards (c :: cards)
      (sep ++ [c_lbrace] ++ ws0
           ++ memberText (str "front") ws1 ws2 (front c)
           ++ mid ++ memberText (str "back") ws3 ws4 (back c) ++ rest).

(** A response that breaks off in its third flashcard. *)
Definition responseTwoCards : jsstring :=
  strq "{'title': 'Cells', 'flashcards': [{'front': 'Mitosis', 'back': 'Division'}, { 'front' : 'ATP' , 'back' : 'Energy'}, {'fro".

(** The body of a JSON string as it is written: characters other than the
    double quote and the backslash, and escapes, a backslash with a
    character that is not a line terminator. *)
Inductive escapedBody : jsstring -> Prop :=
| escaped_nil : escapedBody []
| escaped_char c body :
    c <> c_quote -> c <> c_backslash -> escapedBody body ->
    escapedBody (c :: body)
| escaped_escape e body :
    isLineTerminator e = false -> escapedBody body ->
    escapedBody (c_backslash :: e :: body).








(* ===================================================================== *)
(** ** The quiz view: answers, score and marking *)
(* ===================================================================== *)

(** The state of the view.  [selectedAnswers] is a JavaScript object keyed
    by the index of a question: an association list in which a key occurs
    once; the view reads it by key and counts its keys, so the order of
    the entries plays no role. *)
Record QuizState := {
  selectedAnswers : list (nat * nat);
  showResults : bool
}.

Definition quizInitial : QuizState :=
  {| selectedAnswers := []; showResults := false |}.

(** [selectedAnswers[qIdx]]; [None] is undefined. *)
Definition answerOf (qIdx : nat) (answers : list (nat * nat)) : option nat :=
  match find (fun p => fst p =? qIdx) answers with
  | Some p => Some (snd p)
  | None => None
  end.

(** [{ ...prev, [qIdx]: oIdx }] *)
Definition setAnswer (qIdx oIdx : nat) (prev : list (nat * nat))
  : list (nat * nat) :=
  (qIdx, oIdx) :: filter (fun p => negb (fst p =? qIdx)) prev.

Definition handleSelect (qIdx oIdx : nat) (s : QuizState) : QuizState :=
  if showResults s then s
  else {| selectedAnswers := setAnswer qIdx oIdx (selectedAnswers s);
          showResults := showResults s |}.

Definition handleRetry (s : QuizState) : QuizState := quizInitial.

(** The button that completes the quiz: disabled, and then without
    effect, while fewer keys are set than there are valid questions. *)
Definition handleComplete (quizzes : list QuizQuestion) (s : QuizState)
  : QuizState :=
  if List.length (selectedAnswers s) <? List.length (validQuizzes quizzes)
  then s
  else {| selectedAnswers := selectedAnswers s; showResults := true |}.

(** [userSelected === n] for the selected option, a natural number or
    undefined, and a number [n]. *)
Definition selectedIs (userSelected : option nat) (n : integral) : bool :=
  match userSelected, n with
  | Some o, Int z => (Z.of_nat o =? z)%Z
  | _, _ => false
  end.

(** The body of the [forEach] of calculateScore, from the question with
    index [idx] on. *)
Fixpoint scoreFrom (idx : nat) (valid : list QuizQuestion)
  (answers : list (nat * nat)) : nat :=
  match valid with
  | [] => 0
  | q :: rest =>
      (if selectedIs (answerOf idx answers) (getSafeCorrectIndex q)
       then 1 else 0)
      + scoreFrom (S idx) rest answers
  end.

Definition calculateScore (quizzes : list QuizQuestion) (s : QuizState) : nat :=
  scoreFrom 0 (validQuizzes quizzes) (selectedAnswers s).

Inductive OptionStatus :=
| StatusDefault
| StatusSelected
| StatusCorrect
| StatusIncorrect.

(** The [status] of the option [oIdx] of the question [quiz], shown as
    question [qIdx]. *)
Definition optionStatus (s : QuizState) (quiz : QuizQuestion)
  (qIdx oIdx : nat) : OptionStatus :=
  let safeCorrectIndex := getSafeCorrectIndex quiz in
  let userSelected := answerOf qIdx (selectedAnswers s) in
  if showResults s then
    if selectedIs (Some oIdx) safeCorrectIndex then StatusCorrect
    else if selectedIs userSelected (Int (Z.of_nat oIdx)) then StatusIncorrect
    else StatusDefault
  else if selectedIs userSelected (Int (Z.of_nat oIdx)) then StatusSelected
  else StatusDefault.

(** The states of the view of one list of quizzes: the buttons it renders
    select an option of a valid question, complete the quiz, or start it
    again. *)
Inductive quizStep (quizzes : list QuizQuestion) : QuizState -> QuizState -> Prop :=
| quiz_select s qIdx oIdx quiz :
    nth_error (validQuizzes quizzes) qIdx = Some quiz ->
    oIdx < List.length (options quiz) ->
    quizStep quizzes s (handleSelect qIdx oIdx s)
| quiz_complete s : quizStep quizzes s (handleComplete quizzes s)
| quiz_retry s : quizStep quizzes s (handleRetry s).

Inductive quizReachable (quizzes : list QuizQuestion) : QuizState -> Prop :=
| quizReachable_initial : quizReachable quizzes quizInitial
| quizReachable_step s s' :
    quizReachable quizzes s -> quizStep quizzes s s' ->
    quizReachable quizzes s'.

(** The answers held are for questions on display, one per question, and
    name an option of their question. *)
Definition answersInRange (quizzes : list QuizQuestion)
  (answers : list (nat * nat)) : Prop :=
  NoDup (map fst answers)
  /\ Forall (fun p => exists quiz,
                 nth_error (validQuizzes quizzes) (fst p) = Some quiz
                 /\ snd p < List.length (options quiz)) answers.

(* ===================================================================== *)
(** ** The flashcards view *)
(* ===================================================================== *)

(** The state [currentIndex]: a number, which is an integer or, after a
    remainder by zero, NaN. *)
Inductive CardIndex :=
| IndexNaN
| Index (i : Z).

(** The updaters that handleNext and handlePrev pass to
    [setCurrentIndex], for a deck of [len] cards.  The remainder [%] has
    the sign of the dividend and is NaN when the divisor is 0. *)
Definition remainder (a : Z) (len : nat) : CardIndex :=
  match len with
  | O => IndexNaN
  | S _ => Index (Z.rem a (Z.of_nat len))
  end.

Definition handleNext (len : nat) (prev : CardIndex) : CardIndex :=
  match prev with
  | Index p => remainder (p + 1) len
  | IndexNaN => IndexNaN
  end.

Definition handlePrev (len : nat) (prev : CardIndex) : CardIndex :=
  match prev with
  | Index p => remainder (p - 1 + Z.of_nat len) len
  | IndexNaN => IndexNaN
  end.

(** The indices the view can be at: it starts at 0 and moves by the two
    handlers. *)
Inductive cardReachable (len : nat) : CardIndex -> Prop :=
| card_start : cardReachable len (Index 0)
| card_next i : cardReachable len i -> cardReachable len (handleNext len i)
| card_prev i : cardReachable len i -> cardReachable len (handlePrev len i).

(* ===================================================================== *)
(** ** FileUpload.tsx: the check of a YouTube link *)
(* ===================================================================== *)

(** The class [\w] and the class of the video id, [\w] or a hyphen. *)
Definition isWordChar (c : char) : bool :=
  ((48 <=? c) && (c <=? 57) || (65 <=? c) && (c <=? 90)
   || (97 <=? c) && (c <=? 122) || (c =? 95))%N.

Definition isIdChar (c : char) : bool := isWordChar c || (c =? 45)%N.

(** An alternation of literals: the first that the text starts with, and
    the text behind it. *)
Fixpoint firstOf (pats : list jsstring) (s : jsstring)
  : option (jsstring * jsstring) :=
  match pats with
  | [] => None
  | p :: pats' =>
      match literal p s with
      | Some r => Some (p, r)
      | None => firstOf pats' s
      end
  end.

(** The same in an optional group. *)
Definition optionalOf (pats : list jsstring) (s : jsstring)
  : jsstring * jsstring :=
  match firstOf pats s with
  | Some pr => pr
  | None => ([], s)
  end.

(** The regular expression of the link check, anchored at both ends: an
    optional scheme, an optional [www.] or [m.], the host with one of its
    paths, eleven characters of the id, which are captured, and then
    nothing or characters other than white space up to the end.  The
    alternatives of each group start differently and no group can be
    skipped when it matches, so the expression has one way to match.
    [youtubeHead] is the part in front of the id: it returns the path
    matched and the text behind it. *)
Definition youtubeHead (url : jsstring) : option (jsstring * jsstring) :=
  let afterScheme := snd (optionalOf [str "https://"; str "http://"] url) in
  let afterWww := snd (optionalOf [str "www."; str "m."] afterScheme) in
  match literal (str "youtube.com/") afterWww with
  | Some r =>
      firstOf [str "watch?v="; str "embed/"; str "v/"; str "shorts/";
               str "live/"] r
  | None => firstOf [str "youtu.be/"] afterWww
  end.

Definition videoIdAt (s : jsstring) : option jsstring :=
  let id := firstn 11 s in
  let rest := skipn 11 s in
  if (List.length id =? 11) && forallb isIdChar id
     && forallb (fun c => negb (isWhiteSpace c)) rest
  then Some id else None.

Definition youtubeMatch (url : jsstring) : option jsstring :=
  obind (youtubeHead url) (fun pr => videoIdAt (snd pr)).

(** The state that the effect on [url] sets once its timer fires:
    [isValidUrl], [videoId] and [localError]. *)
Record UrlCheck := {
  isValidUrl : bool;
  videoId : option jsstring;
  localError : option jsstring
}.

Definition checkUrl (url : jsstring) : UrlCheck :=
  match url with
  | [] => {| isValidUrl := false; videoId := None; localError := None |}
  | _ :: _ =>
      match youtubeMatch url with
      | Some id =>
          {| isValidUrl := true; videoId := Some id; localError := None |}
      | None =>
          {| isValidUrl := false; videoId := None;
             localError :=
               if 15 <? List.length url
               then Some (str "Invalid YouTube URL. Please use a standard video link (e.g., youtube.com/watch?v=...)")
               else None |}
      end
  end.

(** The beginnings of a link that the expression accepts. *)
Definition youtubePrefixes : list jsstring :=
  flat_map (fun scheme =>
    flat_map (fun www =>
      map (fun path => scheme ++ www ++ path)
          [str "youtube.com/watch?v="; str "youtube.com/embed/";
           str "youtube.com/v/"; str "youtube.com/shorts/";
           str "youtube.com/live/"; str "youtu.be/"])
      [[]; str "www."; str "m."])
    [[]; str "https://"; str "http://"].


(* ===================================================================== *)
(** * Properties *)
(* ===================================================================== *)

Example repairJson_ex1 :
  repairJson (strq "{'a':[1,2,{'b':'x]'") = strq "{'a':[1,2,{'b':'x]'}]}".
Proof. vm_compute. reflexivity. Qed.

(* --------------------------------------------------------------------- *)
(** ** Characters and strings *)
(* --------------------------------------------------------------------- *)

(** Boolean character tests as arithmetic facts. *)
Ltac char_props :=
  rewrite ?orb_true_iff, ?andb_true_iff, ?orb_false_iff, ?andb_false_iff,
    ?N.eqb_eq, ?N.eqb_neq, ?N.leb_le, ?N.leb_gt in *.

Lemma endsWith_one_inv (x : char) (s : jsstring) :
  endsWith [x] s = true -> exists s', s = s' ++ [x].
Proof.
  unfold endsWith. simpl. intros H.
  destruct (rev s) as [|y r] eqn:E; [discriminate|].
  apply andb_prop in H as [H _]. apply N.eqb_eq in H. subst y.
  exists (rev r). rewrite <- (rev_involutive s), E. reflexivity.
Qed.

Lemma trimStart_split (s : jsstring) :
  exists w, s = w ++ trimStart s /\ forallb isWhiteSpace w = true.
Proof.
  induction s as [|c s [w [E W]]]; simpl.
  - exists []. auto.
  - destruct (isWhiteSpace c) eqn:Hc.
    + exists (c :: w). simpl. rewrite Hc, W. split; [congruence|reflexivity].
    + exists []. auto.
Qed.

Lemma trimStart_idem (s : jsstring) : trimStart (trimStart s) = trimStart s.
Proof.
  induction s as [|c s IH]; simpl; [reflexivity|].
  destruct (isWhiteSpace c) eqn:Hc; [exact IH|].
  simpl. now rewrite Hc.
Qed.

Lemma trimEnd_idem (s : jsstring) : trimEnd (trimEnd s) = trimEnd s.
Proof.
  unfold trimEnd. now rewrite rev_involutive, trimStart_idem.
Qed.

Lemma trimEnd_split (s : jsstring) :
  exists w, s = trimEnd s ++ w /\ forallb isWhiteSpace w = true.
Proof.
  destruct (trimStart_split (rev s)) as [w [E W]].
  exists (rev w). split.
  - unfold trimEnd. rewrite <- rev_app_distr, <- E. now rewrite rev_involutive.
  - rewrite forallb_forall in *. intros x Hx. apply W. now apply in_rev.
Qed.

Lemma trim_split (s : jsstring) :
  exists w1 w2, s = w1 ++ trim s ++ w2
                /\ forallb isWhiteSpace w1 = true
                /\ forallb isWhiteSpace w2 = true.
Proof.
  destruct (trimStart_split s) as [w1 [E1 W1]].
  destruct (trimEnd_split (trimStart s)) as [w2 [E2 W2]].
  exists w1, w2. unfold trim. rewrite <- E2. auto.
Qed.

Lemma trimEnd_trim (s : jsstring) : trimEnd (trim s) = trim s.
Proof. unfold trim. apply trimEnd_idem. Qed.

(* --------------------------------------------------------------------- *)
(** ** repairJson: the scanner *)
(* --------------------------------------------------------------------- *)

Lemma scanAll_app (s : scan) (a b : jsstring) :
  scanAll s (a ++ b) = scanAll (scanAll s a) b.
Proof. apply fold_left_app. Qed.

Lemma closeAll_closers (st : list char) :
  Forall (fun c => c = c_rbrace \/ c = c_rbracket) (closeAll st).
Proof.
  induction st as [|ch st IH]; simpl; [constructor|].
  destruct (ch =? c_lbrace)%N, (ch =? c_lbracket)%N; simpl; auto.
Qed.

(** The stack the scanner ends with depends only on the characters outside
    the strings. *)
Lemma scanAll_stack (text : jsstring) (st : list char) (inS esc : bool) :
  stack (scanAll (Scan st inS esc) text)
  = fold_left stackStep (outsideStrings inS esc text) st.
Proof.
  revert st inS esc.
  induction text as [|ch text IH]; intros st inS esc; [reflexivity|].
  unfold scanAll in *. simpl fold_left at 1. unfold scanStep at 2. simpl.
  set (inS' := if (ch =? c_quote)%N && negb esc then negb inS else inS).
  set (esc' := (ch =? c_backslash)%N && negb esc).
  destruct inS' eqn:EinS; simpl.
  - apply IH.
  - destruct (ch =? c_quote)%N eqn:Eq.
    + apply N.eqb_eq in Eq. subst ch. simpl. apply IH.
    + simpl. unfold stackStep at 2, isOpener.
      destruct ((ch =? c_lbrace)%N || (ch =? c_lbracket)%N); [apply IH|].
      destruct (ch =? c_rbrace)%N; [apply IH|].
      destruct (ch =? c_rbracket)%N; apply IH.
Qed.

Lemma stackStep_balanced (w : jsstring) :
  balanced w ->
  forall st rest, fold_left stackStep (w ++ rest) st = fold_left stackStep rest st.
Proof.
  induction 1 as [|c w Hc _ IH|w1 w2 _ IH1 _ IH2|w1 w2 _ IH1 _ IH2];
    intros st rest.
  - reflexivity.
  - simpl. unfold stackStep at 2.
    unfold isBracket, isOpener, isCloser in *.
    destruct (c =? c_lbrace)%N, (c =? c_lbracket)%N,
             (c =? c_rbrace)%N, (c =? c_rbracket)%N;
      simpl in *; try discriminate; apply IH.
  - simpl. rewrite <- app_assoc. rewrite IH1. simpl. apply IH2.
  - simpl. rewrite <- app_assoc. rewrite IH1. simpl. apply IH2.
Qed.

Lemma repairJson_no_trailing (s : jsstring) :
  endsWith [c_backslash] (trim s) = false ->
  endsWith [c_comma] (trim s) = false ->
  repairJson s = trim s ++ closeAll (stack (scanAll scan0 (trim s))).
Proof.
  intros Hb Hc. unfold repairJson, dropTrailingBackslash.
  rewrite Hb. unfold dropTrailingComma. rewrite trimEnd_trim, Hc. reflexivity.
Qed.

(** C9: when the trimmed input ends in neither a backslash nor a comma,
    repairJson returns the trimmed input followed only by closing braces and
    brackets; and when moreover the braces and brackets outside the quoted
    strings of the trimmed input are balanced, it returns the trimmed input
    unchanged. *)
Theorem repairJson_appends_only_closers (s : jsstring) :
  endsWith [c_backslash] (trim s) = false ->
  endsWith [c_comma] (trim s) = false ->
  (exists suffix,
      repairJson s = trim s ++ suffix
      /\ Forall (fun c => c = c_rbrace \/ c = c_rbracket) suffix)
  /\ (balanced (outsideStrings false false (trim s)) -> repairJson s = trim s).
Proof.
  intros Hb Hc. rewrite (repairJson_no_trailing s Hb Hc). split.
  - eexists. split; [reflexivity|]. apply closeAll_closers.
  - intros Hbal. unfold scan0. rewrite scanAll_stack.
    rewrite <- (app_nil_r (outsideStrings false false (trim s))).
    rewrite (stackStep_balanced _ Hbal). simpl. apply app_nil_r.
Qed.

Lemma repairJson_appends_only_closers_witness :
  let s := strq "  {'k': [1, '}'], 'l': {}  " in
  (exists suffix,
      repairJson s = trim s ++ suffix
      /\ Forall (fun c => c = c_rbrace \/ c = c_rbracket) suffix)
  /\ (balanced (outsideStrings false false (trim s)) -> repairJson s = trim s).
Proof.
  intros s. apply (repairJson_appends_only_closers s); reflexivity.
Defined.

Example repairJson_balanced_unchanged :
  repairJson (strq " {'k': [1, '}'], 'l': {}} ") = strq "{'k': [1, '}'], 'l': {}}".
Proof. reflexivity. Qed.

(** The scanner counts a backslash as an escape outside a string too: the
    quote after it does not open a string, and the bracket is closed. *)
Example repairJson_backslash_outside_string :
  repairJson [c_backslash; c_quote; c_lbracket]
  = [c_backslash; c_quote; c_lbracket; c_rbracket]
  /\ outsideStrings false false [c_backslash; c_quote; c_lbracket]
     = [c_backslash; c_lbracket].
Proof. split; reflexivity. Qed.

(* --------------------------------------------------------------------- *)
(** ** JSON texts under the checking scanner *)
(* --------------------------------------------------------------------- *)

Lemma strictAll_app (s : strict) (a b : jsstring) :
  strictAll s (a ++ b)
  = match strictAll s a with
    | Some s' => strictAll s' b
    | None => None
    end.
Proof.
  revert s. induction a as [|c a IH]; intros s; simpl; [reflexivity|].
  destruct (strictStep s c); [apply IH|reflexivity].
Qed.

Lemma strictStep_sound (s s' : strict) (ch : char) :
  strictStep s ch = Some s' -> scanStep (sc s) ch = sc s'.
Proof.
  unfold strictStep, scanStep.
  destruct s as [[st inS esc] ac]; simpl.
  destruct (if (ch =? c_quote)%N && negb esc then negb inS else inS).
  - intros [= <-]. reflexivity.
  - destruct (ch =? c_backslash)%N; [discriminate|].
    destruct ((ch =? c_lbrace)%N || (ch =? c_lbracket)%N);
      [intros [= <-]; reflexivity|].
    destruct (ch =? c_rbrace)%N.
    { destruct (top_is c_lbrace st); simpl; [|discriminate].
      destruct ac; simpl; [discriminate|]. intros [= <-]. reflexivity. }
    destruct (ch =? c_rbracket)%N.
    { destruct (top_is c_lbracket st); simpl; [|discriminate].
      destruct ac; simpl; [discriminate|]. intros [= <-]. reflexivity. }
    destruct (ch =? c_comma)%N; [intros [= <-]; reflexivity|].
    destruct (isWhiteSpace ch); intros [= <-]; reflexivity.
Qed.

Lemma strictAll_sound (text : jsstring) (s s' : strict) :
  strictAll s text = Some s' -> scanAll (sc s) text = sc s'.
Proof.
  revert s. induction text as [|ch text IH]; intros s; simpl.
  - intros [= <-]. reflexivity.
  - destruct (strictStep s ch) as [s1|] eqn:E; [|discriminate].
    intros H. unfold scanAll. simpl.
    rewrite (strictStep_sound _ _ _ E). apply IH, H.
Qed.

Lemma closes_app (a b : jsstring) : closes a -> closes b -> closes (a ++ b).
Proof. intros Ha Hb st ac. now rewrite strictAll_app, Ha, Hb. Qed.

Lemma keeps_closes (a b : jsstring) : keeps a -> closes b -> closes (a ++ b).
Proof. intros Ha Hb st ac. now rewrite strictAll_app, Ha, Hb. Qed.

Lemma closes_keeps (a b : jsstring) : closes a -> keeps b -> closes (a ++ b).
Proof. intros Ha Hb st ac. now rewrite strictAll_app, Ha, Hb. Qed.

Lemma strictStep_plain (c : char) (st : list char) (ac : bool) :
  plainChar c = true -> strictStep (clean st ac) c = Some (clean st false).
Proof.
  unfold plainChar, strictStep, clean, isBracket, isOpener, isCloser. simpl.
  intros H. apply negb_true_iff in H.
  destruct (c =? c_quote)%N; [discriminate|].
  destruct (c =? c_backslash)%N; [discriminate|].
  destruct (c =? c_lbrace)%N; [discriminate|].
  destruct (c =? c_lbracket)%N; [discriminate|].
  destruct (c =? c_rbrace)%N; [discriminate|].
  destruct (c =? c_rbracket)%N; [discriminate|].
  destruct (c =? c_comma)%N; [discriminate|].
  simpl in *. rewrite H. reflexivity.
Qed.

Lemma closes_plain (t : jsstring) :
  t <> [] -> forallb plainChar t = true -> closes t.
Proof.
  intros Hne Hall st ac.
  destruct t as [|c t]; [congruence|]. clear Hne.
  revert c ac Hall. induction t as [|d t IH]; intros c ac Hall; simpl in *.
  - apply andb_prop in Hall as [Hc _]. now rewrite strictStep_plain.
  - apply andb_prop in Hall as [Hc Hall]. rewrite strictStep_plain by assumption.
    apply IH, Hall.
Qed.

Lemma keeps_jsonWs (w : jsstring) : forallb isJsonWs w = true -> keeps w.
Proof.
  intros Hall st ac. induction w as [|c w IH]; [reflexivity|].
  simpl in *. apply andb_prop in Hall as [Hc Hall].
  replace (strictStep (clean st ac) c) with (Some (clean st ac)); [now apply IH|].
  unfold isJsonWs in Hc. char_props.
  destruct Hc as [[[->| ->]| ->]| ->]; reflexivity.
Qed.

Lemma isDigit_plain (c : char) : isDigit c = true -> plainChar c = true.
Proof.
  unfold isDigit. intros H. char_props.
  assert (c = 48 \/ c = 49 \/ c = 50 \/ c = 51 \/ c = 52 \/ c = 53
          \/ c = 54 \/ c = 55 \/ c = 56 \/ c = 57)%N as Hc by lia.
  repeat destruct Hc as [->|Hc]; try reflexivity. subst. reflexivity.
Qed.

Lemma numStep_plain (q q' : numState) (c : char) :
  numStep q c = Some q' -> plainChar c = true.
Proof.
  intros H.
  assert (isDigit c = true \/ c = 43 \/ c = 45 \/ c = 46 \/ c = 69 \/ c = 101)%N
    as [Hd|Hc].
  { revert H. unfold isDigit.
    destruct q; simpl; unfold isDigit19, isExpMark, isDigit;
      repeat match goal with
             | |- context [if ?b then _ else _] => destruct b eqn:?
             end;
      intros; try discriminate; char_props; lia. }
  - now apply isDigit_plain.
  - repeat destruct Hc as [->|Hc]; try reflexivity. subst. reflexivity.
Qed.

Lemma numRun_plain (s : jsstring) (q q' : numState) :
  numRun q s = Some q' -> forallb plainChar s = true.
Proof.
  revert q. induction s as [|c s IH]; intros q; simpl; [reflexivity|].
  destruct (numStep q c) as [q1|] eqn:E; [|discriminate].
  intros H. rewrite (numStep_plain _ _ _ E). simpl. eapply IH, H.
Qed.

Lemma jsstring_eqb_eq (a b : jsstring) : jsstring_eqb a b = true -> a = b.
Proof.
  revert b. induction a as [|x a IH]; intros [|y b]; simpl; try discriminate.
  - reflexivity.
  - intros H. apply andb_prop in H as [H1 H2].
    apply N.eqb_eq in H1. subst. f_equal. now apply IH.
Qed.

Lemma isAtom_plain (t : jsstring) :
  isAtom t = true -> t <> [] /\ forallb plainChar t = true.
Proof.
  unfold isAtom. intros H.
  repeat (apply orb_prop in H; destruct H as [H|H]).
  - unfold isNumber in H. destruct (numRun NStart t) as [q|] eqn:E; [|discriminate].
    split; [|eapply numRun_plain, E].
    intros ->. simpl in E. injection E as <-. discriminate.
  - apply jsstring_eqb_eq in H. subst. split; [discriminate|reflexivity].
  - apply jsstring_eqb_eq in H. subst. split; [discriminate|reflexivity].
  - apply jsstring_eqb_eq in H. subst. split; [discriminate|reflexivity].
Qed.

Lemma closes_atom (t : jsstring) : isAtom t = true -> closes t.
Proof.
  intros H. destruct (isAtom_plain t H) as [Hne Hp]. now apply closes_plain.
Qed.

Lemma strictStep_in_plain (c : char) (st : list char) (ac : bool) :
  (c =? c_quote)%N = false -> (c =? c_backslash)%N = false ->
  strictStep (instr st ac) c = Some (instr st ac).
Proof. intros Hq Hb. unfold strictStep, instr. simpl. now rewrite Hq, Hb. Qed.

Lemma strictAll_in_escape (e : char) (rest : jsstring) (st : list char) (ac : bool) :
  strictAll (instr st ac) (c_backslash :: e :: rest)
  = strictAll (instr st ac) rest.
Proof.
  cbn [strictAll]. unfold strictStep at 1. cbn.
  unfold strictStep at 1. cbn. rewrite andb_false_r.
  destruct (e =? c_backslash)%N; reflexivity.
Qed.

Lemma strictAll_body (n : nat) :
  forall b st ac,
    List.length b <= n -> isStringBody b = true ->
    strictAll (instr st ac) b = Some (instr st ac).
Proof.
  induction n as [|n IH]; intros b st ac Hlen Hb.
  - destruct b; [reflexivity|simpl in Hlen; lia].
  - destruct b as [|c rest]; [reflexivity|].
    simpl in Hb. destruct (c =? c_backslash)%N eqn:Ec.
    + apply N.eqb_eq in Ec. subst c.
      destruct rest as [|e rest']; [discriminate|].
      apply andb_prop in Hb as [_ Hb].
      rewrite strictAll_in_escape. apply IH; [simpl in Hlen; lia|exact Hb].
    + apply andb_prop in Hb as [Hb1 Hb]. apply andb_prop in Hb1 as [Hq _].
      apply negb_true_iff in Hq.
      simpl. rewrite strictStep_in_plain by assumption.
      apply IH; [simpl in Hlen; lia|exact Hb].
Qed.

Lemma closes_string (b : jsstring) :
  isStringBody b = true -> closes (c_quote :: b ++ [c_quote]).
Proof.
  intros Hb st ac.
  change (strictAll (instr st ac) (b ++ [c_quote]) = Some (clean st false)).
  rewrite strictAll_app, (strictAll_body (List.length b) b st ac (le_n _) Hb).
  reflexivity.
Qed.

Lemma closes_braces (inner : jsstring) :
  (forall st, strictAll (clean st false) inner = Some (clean st false)) ->
  closes (c_lbrace :: inner ++ [c_rbrace]).
Proof.
  intros H st ac.
  change (strictAll (clean (c_lbrace :: st) false) (inner ++ [c_rbrace])
          = Some (clean st false)).
  rewrite strictAll_app, H. reflexivity.
Qed.

Lemma closes_brackets (inner : jsstring) :
  (forall st, strictAll (clean st false) inner = Some (clean st false)) ->
  closes (c_lbracket :: inner ++ [c_rbracket]).
Proof.
  intros H st ac.
  change (strictAll (clean (c_lbracket :: st) false) (inner ++ [c_rbracket])
          = Some (clean st false)).
  rewrite strictAll_app, H. reflexivity.
Qed.

Lemma closes_joinComma (parts : list jsstring) :
  Forall closes parts -> parts <> [] -> closes (joinComma parts).
Proof.
  induction 1 as [|a parts Ha Hparts IH]; [congruence|]. intros _.
  destruct parts as [|b parts]; [exact Ha|].
  change (closes (a ++ c_comma :: joinComma (b :: parts))).
  intros st ac. rewrite strictAll_app, Ha.
  change (strictAll (clean st true) (joinComma (b :: parts)) = Some (clean st false)).
  apply IH. discriminate.
Qed.

Lemma padded_joinComma (pad : jsstring) (parts : list jsstring) (st : list char) :
  forallb isJsonWs pad = true -> Forall closes parts ->
  strictAll (clean st false) (pad ++ joinComma parts) = Some (clean st false).
Proof.
  intros Hpad Hparts. rewrite strictAll_app, (keeps_jsonWs _ Hpad).
  destruct parts as [|a parts]; [reflexivity|].
  apply closes_joinComma; [assumption|discriminate].
Qed.

Lemma valid_closes (t : cst) : valid t = true -> closes (render t).
Proof.
  induction t as [token|body|before v after IH|pad elements IH|pad members IH]
    using cst_induction; simpl; intros Hv.
  - now apply closes_atom.
  - now apply closes_string.
  - apply andb_prop in Hv as [Hv Ha]. apply andb_prop in Hv as [Hb Hv].
    apply keeps_closes; [now apply keeps_jsonWs|].
    apply closes_keeps; [now apply IH|now apply keeps_jsonWs].
  - apply andb_prop in Hv as [Hpad Hv].
    rewrite app_assoc. apply closes_brackets. intros st. apply padded_joinComma; [assumption|].
    rewrite forallb_forall in Hv. rewrite Forall_forall in *.
    intros a Ha. apply in_map_iff in Ha as [e [<- He]]. auto.
  - apply andb_prop in Hv as [Hpad Hv].
    rewrite app_assoc. apply closes_braces. intros st. apply padded_joinComma; [assumption|].
    rewrite forallb_forall in Hv. rewrite Forall_forall in *.
    intros a Ha. apply in_map_iff in Ha as [m [<- Hm]].
    specialize (Hv m Hm). apply andb_prop in Hv as [Hv Hval].
    apply andb_prop in Hv as [_ Hkey].
    destruct (IH m Hm) as [IHk IHv].
    apply closes_app; [now apply IHk|].
    apply (closes_app [c_colon]); [|now apply IHv].
    apply closes_plain; [discriminate|reflexivity].
Qed.

Lemma jsonText_strict (d : jsstring) :
  jsonText d -> strictAll (clean [] false) d = Some (clean [] false).
Proof. intros [t [Hv <-]]. now apply valid_closes. Qed.

(* --------------------------------------------------------------------- *)
(** ** repairJson on a JSON text that lost its last closers *)
(* --------------------------------------------------------------------- *)

Lemma strictStep_closer_in (s s' : strict) (c : char) :
  isCloser c = true -> inString (sc s) = true ->
  strictStep s c = Some s' -> inString (sc s') = true.
Proof.
  unfold isCloser, strictStep. intros Hc Hin.
  assert ((c =? c_quote)%N = false) as Hq.
  { unfold c_quote, c_rbrace, c_rbracket in *. char_props. lia. }
  rewrite Hq, Hin. simpl. intros [= <-]. reflexivity.
Qed.

(** Scanning the missing closers from the state reached on the truncated
    text gives back the empty stack only if the stack held exactly their
    openers, innermost first. *)
Lemma strictAll_closers (c : jsstring) :
  forall s,
    forallb isCloser c = true ->
    strictAll s c = Some (clean [] false) ->
    closeAll (stack (sc s)) = c
    /\ inString (sc s) = false /\ afterComma s = false.
Proof.
  induction c as [|x c IH]; intros s Hc Hrun.
  - simpl in Hrun. injection Hrun as ->. auto.
  - simpl in Hc. apply andb_prop in Hc as [Hx Hc]. simpl in Hrun.
    destruct (strictStep s x) as [s1|] eqn:E; [|discriminate].
    destruct (IH s1 Hc Hrun) as [Hclose [Hin Hac]].
    destruct (inString (sc s)) eqn:Hs.
    { rewrite (strictStep_closer_in _ _ _ Hx Hs E) in Hin. discriminate. }
    revert E. unfold strictStep. rewrite Hs.
    unfold isCloser in Hx. apply orb_prop in Hx as [Hx|Hx];
      apply N.eqb_eq in Hx; subst x; simpl.
    + destruct (stack (sc s)) as [|t st] eqn:Est; simpl; [discriminate|].
      destruct (t =? c_lbrace)%N eqn:Et; simpl; [|discriminate].
      destruct (afterComma s); simpl; [discriminate|].
      intros [= <-]. simpl in *. apply N.eqb_eq in Et. subst t.
      simpl. now rewrite Hclose.
    + destruct (stack (sc s)) as [|t st] eqn:Est; simpl; [discriminate|].
      destruct (t =? c_lbracket)%N eqn:Et; simpl; [|discriminate].
      destruct (afterComma s); simpl; [discriminate|].
      intros [= <-]. simpl in *. apply N.eqb_eq in Et. subst t.
      simpl. now rewrite Hclose.
Qed.

Lemma isWhiteSpace_not_special (c : char) :
  isWhiteSpace c = true ->
  (c =? c_quote)%N = false /\ (c =? c_backslash)%N = false
  /\ (c =? c_lbrace)%N = false /\ (c =? c_lbracket)%N = false
  /\ (c =? c_rbrace)%N = false /\ (c =? c_rbracket)%N = false
  /\ (c =? c_comma)%N = false.
Proof.
  unfold isWhiteSpace, c_quote, c_backslash, c_lbrace, c_lbracket, c_rbrace,
    c_rbracket, c_comma.
  intros H. char_props. lia.
Qed.

Lemma scanStep_ws (s : scan) (c : char) :
  isWhiteSpace c = true -> scanStep s c = Scan (stack s) (inString s) false.
Proof.
  intros H. destruct (isWhiteSpace_not_special _ H)
    as (Hq & Hb & H1 & H2 & H3 & H4 & _).
  unfold scanStep. rewrite Hq, Hb, H1, H2, H3, H4. simpl.
  destruct (inString s); reflexivity.
Qed.

Lemma scanAll_ws_stack (w : jsstring) (s : scan) :
  forallb isWhiteSpace w = true -> stack (scanAll s w) = stack s.
Proof.
  revert s. induction w as [|c w IH]; intros s Hw; [reflexivity|].
  simpl in Hw. apply andb_prop in Hw as [Hc Hw].
  unfold scanAll in *. simpl. rewrite (scanStep_ws _ _ Hc), IH by assumption.
  reflexivity.
Qed.

Lemma scanAll_ws_clean (w : jsstring) (st : list char) :
  forallb isWhiteSpace w = true ->
  scanAll (Scan st false false) w = Scan st false false.
Proof.
  induction w as [|c w IH]; intros Hw; [reflexivity|].
  simpl in Hw. apply andb_prop in Hw as [Hc Hw].
  unfold scanAll in *. simpl. rewrite (scanStep_ws _ _ Hc). now apply IH.
Qed.

Lemma scanAll_trim_stack (p : jsstring) :
  stack (scanAll scan0 (trim p)) = stack (scanAll scan0 p).
Proof.
  destruct (trim_split p) as (w1 & w2 & E & H1 & H2).
  transitivity (stack (scanAll scan0 (w1 ++ trim p ++ w2)));
    [|now rewrite <- E].
  rewrite !scanAll_app. unfold scan0. rewrite (scanAll_ws_clean _ _ H1).
  symmetry. now apply scanAll_ws_stack.
Qed.

Lemma strictStep_ws (s s' : strict) (c : char) :
  isWhiteSpace c = true -> strictStep s c = Some s' ->
  inString (sc s') = inString (sc s)
  /\ (inString (sc s) = false -> afterComma s' = afterComma s).
Proof.
  intros H. destruct (isWhiteSpace_not_special _ H)
    as (Hq & Hb & H1 & H2 & H3 & H4 & H5).
  unfold strictStep. rewrite Hq, Hb, H1, H2, H3, H4, H5, H. simpl.
  destruct (inString (sc s)); intros [= <-]; auto.
Qed.

Lemma strictAll_ws (w : jsstring) (s s' : strict) :
  forallb isWhiteSpace w = true -> strictAll s w = Some s' ->
  inString (sc s') = inString (sc s)
  /\ (inString (sc s) = false -> afterComma s' = afterComma s).
Proof.
  revert s. induction w as [|c w IH]; intros s Hw; simpl.
  - intros [= <-]. auto.
  - simpl in Hw. apply andb_prop in Hw as [Hc Hw].
    destruct (strictStep s c) as [s1|] eqn:E; [|discriminate].
    intros Hrun. destruct (strictStep_ws _ _ _ Hc E) as [Hin Hac].
    destruct (IH s1 Hw Hrun) as [Hin' Hac'].
    split; [congruence|]. intros Hs. rewrite Hac', Hac; congruence.
Qed.

Lemma strictStep_backslash (s s' : strict) :
  strictStep s c_backslash = Some s' -> inString (sc s') = true.
Proof.
  unfold strictStep. simpl.
  destruct (inString (sc s)); [|discriminate]. intros [= <-]. reflexivity.
Qed.

Lemma strictStep_comma (s s' : strict) :
  strictStep s c_comma = Some s' ->
  inString (sc s') = true \/ afterComma s' = true.
Proof.
  unfold strictStep. simpl.
  destruct (inString (sc s)); intros [= <-]; auto.
Qed.

(** A text that the checking scanner leaves outside a string and not just
    after a comma does not end, white space apart, in a backslash or a
    comma. *)
Lemma strict_no_trailing (p : jsstring) (s0 s : strict) (x : char) :
  strictAll s0 p = Some s ->
  inString (sc s) = false -> afterComma s = false ->
  x = c_backslash \/ x = c_comma ->
  endsWith [x] (trim p) = false.
Proof.
  intros Hrun Hin Hac Hx.
  destruct (endsWith [x] (trim p)) eqn:E; [exfalso|reflexivity].
  apply endsWith_one_inv in E as [z Ez].
  destruct (trim_split p) as (w1 & w2 & Ep & _ & Hw2).
  rewrite Ez in Ep. rewrite Ep in Hrun.
  rewrite app_assoc, strictAll_app in Hrun.
  destruct (strictAll s0 (w1 ++ z ++ [x])) as [s2|] eqn:E2; [|discriminate].
  rewrite app_assoc, strictAll_app in E2.
  destruct (strictAll s0 (w1 ++ z)) as [s1|] eqn:E1; [|discriminate].
  simpl in E2. destruct (strictStep s1 x) as [s2'|] eqn:Ex; [|discriminate].
  injection E2 as ->.
  destruct (strictAll_ws _ _ _ Hw2 Hrun) as [Hin2 Hac2].
  destruct Hx as [-> | ->].
  - apply strictStep_backslash in Ex. congruence.
  - apply strictStep_comma in Ex as [Ex|Ex]; [congruence|].
    rewrite Hin in Hin2. symmetry in Hin2. specialize (Hac2 Hin2). congruence.
Qed.

Lemma repairJson_truncated (d p c : jsstring) :
  jsonText d -> d = p ++ c -> forallb isCloser c = true ->
  repairJson p = trim p ++ c.
Proof.
  intros Hd -> Hc. apply jsonText_strict in Hd.
  rewrite strictAll_app in Hd.
  destruct (strictAll (clean [] false) p) as [s|] eqn:Ep; [|discriminate].
  destruct (strictAll_closers _ _ Hc Hd) as (Hclose & Hin & Hac).
  rewrite repairJson_no_trailing
    by (eapply strict_no_trailing; eauto).
  rewrite scanAll_trim_stack.
  apply strictAll_sound in Ep. simpl in Ep. unfold scan0. rewrite Ep.
  now rewrite Hclose.
Qed.

(* --------------------------------------------------------------------- *)
(** ** White space at the edges of a JSON text *)
(* --------------------------------------------------------------------- *)

Lemma isJsonWs_isWhiteSpace (c : char) : isJsonWs c = true -> isWhiteSpace c = true.
Proof.
  unfold isJsonWs. intros H. char_props.
  destruct H as [[[->| ->]| ->]| ->]; reflexivity.
Qed.

Lemma jsonWs_whiteSpace (w : jsstring) :
  forallb isJsonWs w = true -> forallb isWhiteSpace w = true.
Proof.
  rewrite !forallb_forall. intros H c Hc. now apply isJsonWs_isWhiteSpace, H.
Qed.

Lemma plainChar_solid (c : char) : plainChar c = true -> isSolid c = true.
Proof.
  unfold plainChar, isSolid, isBracket. intros H.
  apply negb_true_iff in H. apply negb_true_iff.
  repeat (apply orb_false_iff in H; destruct H as [H ?]).
  apply orb_false_iff. split; [assumption|].
  match goal with E : isOpener c || isCloser c = false |- _ =>
    apply orb_false_iff in E; tauto end.
Qed.

Lemma nonSolid_app (w c : jsstring) :
  forallb isWhiteSpace w = true -> forallb isCloser c = true ->
  forallb nonSolid (w ++ c) = true.
Proof.
  intros Hw Hc. rewrite forallb_app. apply andb_true_intro. split.
  - rewrite forallb_forall in *. intros a Ha. unfold nonSolid. now rewrite Hw.
  - rewrite forallb_forall in *. intros a Ha. unfold nonSolid.
    rewrite (Hc a Ha). apply orb_true_r.
Qed.

Lemma isSolid_nonSolid (c : char) : isSolid c = true -> nonSolid c = false.
Proof. unfold isSolid, nonSolid. intros H. now apply negb_true_iff in H. Qed.

(** What follows a solid character and is not solid lies after it. *)
Lemma suffix_after_solid (L post z : jsstring) (k : char) :
  isSolid k = true -> forallb nonSolid z = true ->
  forall x, L ++ k :: post = x ++ z ->
            exists y, post = y ++ z /\ x = L ++ k :: y.
Proof.
  intros Hk Hz. apply isSolid_nonSolid in Hk.
  induction L as [|a L IH]; intros x E.
  - destruct x as [|b x]; simpl in E.
    + subst z. simpl in Hz. rewrite Hk in Hz. discriminate.
    + injection E as <- E. exists x. auto.
  - destruct x as [|b x]; simpl in E.
    + subst z. simpl in Hz. apply andb_prop in Hz as [_ Hz].
      rewrite forallb_app in Hz. apply andb_prop in Hz as [_ Hz].
      simpl in Hz. rewrite Hk in Hz. discriminate.
    + injection E as <- E. destruct (IH x E) as [y [E1 E2]].
      exists y. split; [assumption|]. simpl. now rewrite E2.
Qed.

(** White space in front of a text ends before its first character that
    is not white space. *)
Lemma prefix_before_solid (w : jsstring) :
  forallb isWhiteSpace w = true ->
  forall pre k post x,
    isWhiteSpace k = false -> forallb isWhiteSpace pre = true ->
    pre ++ k :: post = w ++ x ->
    exists pre', pre = w ++ pre' /\ x = pre' ++ k :: post.
Proof.
  induction w as [|a w IH]; intros Hw pre k post x Hk Hpre E.
  - exists pre. auto.
  - simpl in Hw. apply andb_prop in Hw as [Ha Hw].
    destruct pre as [|b pre]; simpl in E.
    + injection E as -> _. congruence.
    + injection E as <- E. simpl in Hpre. apply andb_prop in Hpre as [_ Hpre].
      destruct (IH Hw pre k post x Hk Hpre E) as [pre' [E1 E2]].
      exists pre'. split; [now rewrite E1|assumption].
Qed.

Lemma snoc_eq_app {A : Type} (s x z : list A) (k : A) :
  s ++ [k] = x ++ z ->
  (z = [] /\ x = s ++ [k]) \/ (exists z', z = z' ++ [k] /\ s = x ++ z').
Proof.
  intros E. induction z as [|k' z' _] using rev_ind.
  - left. split; [reflexivity|]. now rewrite app_nil_r in E.
  - right. rewrite app_assoc in E. apply app_inj_tail in E as [E1 E2].
    subst k'. eauto.
Qed.

Lemma first_solid (t : cst) :
  valid t = true ->
  exists pre k post,
    render t = pre ++ k :: post /\ isSolid k = true
    /\ forallb isJsonWs pre = true.
Proof.
  induction t as [token|body|before v after IH|pad elements _|pad members _]
    using cst_induction; simpl; intros Hv.
  - destruct (isAtom_plain token Hv) as [Hne Hp].
    destruct token as [|k post]; [congruence|].
    simpl in Hp. apply andb_prop in Hp as [Hk _].
    exists [], k, post. repeat split. now apply plainChar_solid.
  - exists [], c_quote, (body ++ [c_quote]). repeat split.
  - apply andb_prop in Hv as [Hv Ha]. apply andb_prop in Hv as [Hb Hv].
    destruct (IH Hv) as (pre & k & post & E & Hk & Hpre).
    exists (before ++ pre), k, (post ++ after). rewrite E. split.
    + now rewrite <- !app_assoc.
    + split; [assumption|]. rewrite forallb_app. now rewrite Hb, Hpre.
  - eexists [], c_lbracket, _. repeat split.
  - eexists [], c_lbrace, _. repeat split.
Qed.

Lemma joinComma_snoc (parts : list jsstring) (a : jsstring) :
  joinComma (parts ++ [a]) = joinPrefix parts ++ a.
Proof.
  induction parts as [|p parts IH]; [reflexivity|].
  cbn [app joinComma]. destruct (parts ++ [a]) as [|b rest] eqn:E.
  - destruct parts; discriminate.
  - rewrite IH. unfold joinPrefix. simpl. now rewrite <- !app_assoc.
Qed.

Lemma all_solid_no_tail (s x z : jsstring) :
  forallb isSolid s = true -> s = x ++ z -> forallb nonSolid z = true -> z = [].
Proof.
  intros Hs -> Hz. rewrite forallb_app in Hs. apply andb_prop in Hs as [_ Hs].
  destruct z as [|a z]; [reflexivity|]. simpl in *.
  apply andb_prop in Hs as [Ha _]. apply andb_prop in Hz as [Ha' _].
  apply isSolid_nonSolid in Ha. congruence.
Qed.

Lemma ws_closers_nil (u : jsstring) :
  forallb isWhiteSpace u = true -> forallb isCloser u = true -> u = [].
Proof.
  destruct u as [|a u]; [reflexivity|]. simpl. intros Hw Hc.
  apply andb_prop in Hw as [Ha _]. apply andb_prop in Hc as [Ha' _].
  unfold isCloser in Ha'. apply orb_prop in Ha' as [E|E];
    apply N.eqb_eq in E; subst a; discriminate.
Qed.

(** A closer at the end of [w ++ c] is the last of [c]. *)
Lemma closer_tail (w c z' : jsstring) (k : char) :
  forallb isWhiteSpace w = true -> forallb isCloser c = true ->
  isWhiteSpace k = false ->
  w ++ c = z' ++ [k] ->
  exists c', c = c' ++ [k] /\ z' = w ++ c' /\ forallb isCloser c' = true.
Proof.
  intros Hw Hc Hk E. induction c as [|kc c' _] using rev_ind.
  - rewrite app_nil_r in E. subst w. rewrite forallb_app in Hw.
    apply andb_prop in Hw as [_ Hw]. simpl in Hw. rewrite Hk in Hw. discriminate.
  - rewrite app_assoc in E. apply app_inj_tail in E as [E1 E2]. subst kc.
    rewrite forallb_app in Hc. apply andb_prop in Hc as [Hc _].
    exists c'. auto.
Qed.

(** The inside of an array or of an object, up to the closer: padding and
    a comma-separated list whose last part ends with a rendered tree. *)
Lemma inner_edge (opener : char) (pad front : jsstring) (last : cst)
  (x w c : jsstring) :
  isSolid opener = true ->
  valid last = true ->
  (forall x w c,
      render last = x ++ w ++ c ->
      forallb isWhiteSpace w = true -> forallb isCloser c = true ->
      exists t', valid t' = true /\ render t' = x ++ c
                 /\ eraseWs t' = eraseWs last) ->
  opener :: pad ++ front ++ render last = x ++ w ++ c ->
  forallb isWhiteSpace w = true -> forallb isCloser c = true ->
  exists last',
    valid last' = true /\ eraseWs last' = eraseWs last
    /\ opener :: pad ++ front ++ render last' = x ++ c.
Proof.
  intros Ho Hv IH E Hw Hc.
  destruct (first_solid last Hv) as (pre & k & post & Er & Hk & _).
  rewrite Er in E.
  replace (opener :: pad ++ front ++ pre ++ k :: post)
    with ((opener :: pad ++ front ++ pre) ++ k :: post) in E
    by (simpl; now rewrite <- !app_assoc).
  destruct (suffix_after_solid _ _ _ _ Hk (nonSolid_app _ _ Hw Hc) _ E)
    as (y & Ey & Ex).
  destruct (IH (pre ++ k :: y) w c) as (t' & Hv' & Er' & Ee'); try assumption.
  { rewrite Er, Ey. now rewrite <- !app_assoc. }
  exists t'. split; [assumption|]. split; [assumption|].
  rewrite Er', Ex. simpl. now rewrite <- !app_assoc.
Qed.

(** White space that stands before the closers at the end of a JSON text,
    or at its very end, can be left out. *)
Lemma right_edge (t : cst) :
  valid t = true ->
  forall x w c,
    render t = x ++ w ++ c ->
    forallb isWhiteSpace w = true -> forallb isCloser c = true ->
    exists t', valid t' = true /\ render t' = x ++ c
               /\ eraseWs t' = eraseWs t.
Proof.
  induction t as [token|body|before v after IH|pad elements IH|pad members IH]
    using cst_induction; cbn [valid render]; intros Hv x w c E Hw Hc.
  - (* atom *)
    destruct (isAtom_plain token Hv) as [_ Hp].
    assert (Hs : forallb isSolid token = true).
    { rewrite forallb_forall in *. intros a Ha. now apply plainChar_solid, Hp. }
    pose proof (all_solid_no_tail _ _ _ Hs E (nonSolid_app _ _ Hw Hc)) as Hz.
    apply app_eq_nil in Hz as [-> ->].
    exists (CAtom token). simpl in *. auto.
  - (* string *)
    change (c_quote :: body ++ [c_quote]) with ((c_quote :: body) ++ [c_quote]) in E.
    apply snoc_eq_app in E as [[Hz Ex]|(z' & Hz & Ex)].
    + apply app_eq_nil in Hz as [-> ->].
      exists (CString body). simpl. rewrite app_nil_r. auto.
    + destruct (closer_tail w c z' c_quote Hw Hc eq_refl Hz) as (c' & -> & _ & _).
      rewrite forallb_app in Hc. apply andb_prop in Hc as [_ Hc]. discriminate.
  - (* padded value *)
    apply andb_prop in Hv as [Hv Ha]. apply andb_prop in Hv as [Hb Hv].
    destruct (first_solid v Hv) as (pre & k & post & Er & Hk & _).
    pose proof E as E0. rewrite Er in E.
    replace (before ++ (pre ++ k :: post) ++ after)
      with ((before ++ pre) ++ k :: post ++ after) in E
      by (now rewrite <- !app_assoc).
    destruct (suffix_after_solid _ _ _ _ Hk (nonSolid_app _ _ Hw Hc) _ E)
      as (y & Ey & Ex).
    induction after as [|a after' _] using rev_ind.
    + rewrite app_nil_r in Ey.
      destruct (IH Hv (pre ++ k :: y) w c) as (v' & Hv' & Er' & Ee');
        try assumption.
      { rewrite Er, Ey. now rewrite <- !app_assoc. }
      exists (CPad before v' []). cbn [valid render eraseWs].
      rewrite Hb, Hv'. split; [reflexivity|]. split; [|assumption].
      rewrite Er', Ex, app_nil_r. now rewrite <- !app_assoc.
    + assert (c = []) as ->.
      { induction c as [|kc c' _] using rev_ind; [reflexivity|]. exfalso.
        rewrite !app_assoc in Ey. apply app_inj_tail in Ey as [_ Ek]. subst kc.
        rewrite forallb_app in Ha, Hc.
        apply andb_prop in Ha as [_ Ha]. apply andb_prop in Hc as [_ Hc].
        simpl in Ha, Hc. rewrite andb_true_r in Ha, Hc.
        apply isJsonWs_isWhiteSpace in Ha.
        pose proof (ws_closers_nil [a]) as Hn. simpl in Hn.
        rewrite Ha, Hc in Hn. specialize (Hn eq_refl eq_refl). discriminate. }
      rewrite app_nil_r in *.
      apply app_eq_app in Ey as (l & [[E1 E2]|[E1 E2]]).
      * assert (Hl : forallb isWhiteSpace l = true).
        { rewrite E2, forallb_app in Hw. now apply andb_prop in Hw as [Hw _]. }
        destruct (IH Hv (pre ++ k :: y) l []) as (v' & Hv' & Er' & Ee');
          try assumption; try reflexivity.
        { rewrite Er, E1, app_nil_r. now rewrite <- !app_assoc. }
        exists (CPad before v' []). cbn [valid render eraseWs].
        rewrite Hb, Hv'. split; [reflexivity|]. split; [|assumption].
        rewrite Er', Ex, !app_nil_r. now rewrite <- !app_assoc.
      * assert (Hl : forallb isJsonWs l = true).
        { rewrite E2, forallb_app in Ha. now apply andb_prop in Ha as [Ha _]. }
        exists (CPad before v l). cbn [valid render eraseWs].
        rewrite Hb, Hv, Hl. split; [reflexivity|]. split; [|reflexivity].
        rewrite Er, Ex, E1. now rewrite <- !app_assoc.
  - (* array *)
    apply andb_prop in Hv as [Hpad Hv].
    replace (c_lbracket :: pad ++ joinComma (map render elements) ++ [c_rbracket])
      with ((c_lbracket :: pad ++ joinComma (map render elements)) ++ [c_rbracket])
      in E by (simpl; now rewrite <- !app_assoc).
    apply snoc_eq_app in E as [[Hz Ex]|(z' & Hz & Ex)].
    { apply app_eq_nil in Hz as [-> ->].
      exists (CArray pad elements). cbn [valid render]. rewrite Hpad, Hv.
      split; [reflexivity|]. split; [|reflexivity].
      rewrite Ex, app_nil_r. simpl. now rewrite <- !app_assoc. }
    destruct (closer_tail w c z' c_rbracket Hw Hc eq_refl Hz)
      as (c' & -> & -> & Hc').
    induction elements as [|e init _] using rev_ind.
    + simpl in Ex. rewrite app_nil_r in Ex.
      destruct (suffix_after_solid [] pad (w ++ c') c_lbracket eq_refl
                  (nonSolid_app _ _ Hw Hc') x Ex) as (y & Ey & ->).
      assert (c' = []) as ->.
      { apply ws_closers_nil; [|assumption].
        apply jsonWs_whiteSpace in Hpad. rewrite Ey, !forallb_app in Hpad.
        apply andb_prop in Hpad as [_ Hpad]. now apply andb_prop in Hpad as [_ Hpad]. }
      exists (CArray y []). cbn [valid render eraseWs map joinComma].
      rewrite Ey, forallb_app in Hpad. apply andb_prop in Hpad as [Hy _].
      rewrite Hy. auto.
    + rewrite forallb_app in Hv. apply andb_prop in Hv as [Hinit He].
      simpl in He. rewrite andb_true_r in He.
      apply Forall_app in IH as [_ IHe]. inversion IHe as [|? ? IHe' _]; subst.
      rewrite map_app in Ex. simpl in Ex. rewrite joinComma_snoc in Ex.
      destruct (inner_edge c_lbracket pad (joinPrefix (map render init)) e
                  x w c' eq_refl He (IHe' He) Ex Hw Hc')
        as (e' & He' & Ee' & Er').
      exists (CArray pad (init ++ [e'])). cbn [valid render eraseWs].
      rewrite Hpad, forallb_app, Hinit. simpl. rewrite He'.
      split; [reflexivity|]. split.
      * rewrite map_app. simpl. rewrite joinComma_snoc.
        transitivity ((c_lbracket :: pad ++ joinPrefix (map render init)
                         ++ render e') ++ [c_rbracket]).
        { simpl. now rewrite <- !app_assoc. }
        rewrite Er'. now rewrite <- !app_assoc.
      * rewrite !map_app. simpl. now rewrite Ee'.
  - (* object *)
    apply andb_prop in Hv as [Hpad Hv].
    set (renderMember := fun m : cst * cst => render (fst m) ++ c_colon :: render (snd m)) in *.
    replace (c_lbrace :: pad ++ joinComma (map renderMember members) ++ [c_rbrace])
      with ((c_lbrace :: pad ++ joinComma (map renderMember members)) ++ [c_rbrace])
      in E by (simpl; now rewrite <- !app_assoc).
    apply snoc_eq_app in E as [[Hz Ex]|(z' & Hz & Ex)].
    { apply app_eq_nil in Hz as [-> ->].
      exists (CObject pad members). cbn [valid render]. rewrite Hpad, Hv.
      split; [reflexivity|]. split; [|reflexivity].
      fold renderMember. rewrite Ex, app_nil_r. simpl. now rewrite <- !app_assoc. }
    destruct (closer_tail w c z' c_rbrace Hw Hc eq_refl Hz)
      as (c' & -> & -> & Hc').
    induction members as [|[mk mv] init _] using rev_ind.
    + simpl in Ex. rewrite app_nil_r in Ex.
      destruct (suffix_after_solid [] pad (w ++ c') c_lbrace eq_refl
                  (nonSolid_app _ _ Hw Hc') x Ex) as (y & Ey & ->).
      assert (c' = []) as ->.
      { apply ws_closers_nil; [|assumption].
        apply jsonWs_whiteSpace in Hpad. rewrite Ey, !forallb_app in Hpad.
        apply andb_prop in Hpad as [_ Hpad]. now apply andb_prop in Hpad as [_ Hpad]. }
      exists (CObject y []). cbn [valid render eraseWs map joinComma].
      rewrite Ey, forallb_app in Hpad. apply andb_prop in Hpad as [Hy _].
      rewrite Hy. auto.
    + rewrite forallb_app in Hv. apply andb_prop in Hv as [Hinit He].
      simpl in He. rewrite andb_true_r in He.
      apply andb_prop in He as [Hk Hmv].
      apply Forall_app in IH as [_ IHe]. inversion IHe as [|? ? [_ IHv] _]; subst.
      simpl in IHv.
      rewrite map_app in Ex. simpl in Ex. rewrite joinComma_snoc in Ex.
      unfold renderMember at 2 in Ex. simpl in Ex.
      replace (c_lbrace :: pad ++ joinPrefix (map renderMember init)
                 ++ render mk ++ c_colon :: render mv)
        with (c_lbrace :: pad ++ (joinPrefix (map renderMember init)
                 ++ render mk ++ [c_colon]) ++ render mv) in Ex
        by (now rewrite <- !app_assoc).
      destruct (inner_edge c_lbrace pad _ mv x w c' eq_refl Hmv (IHv Hmv) Ex Hw Hc')
        as (mv' & Hmv' & Ee' & Er').
      exists (CObject pad (init ++ [(mk, mv')])). cbn [valid render eraseWs].
      rewrite Hpad, forallb_app, Hinit. simpl. rewrite Hk, Hmv'.
      split; [reflexivity|]. split.
      * fold renderMember. rewrite map_app. simpl. rewrite joinComma_snoc.
        unfold renderMember at 2. simpl.
        transitivity ((c_lbrace :: pad ++ (joinPrefix (map renderMember init)
                         ++ render mk ++ [c_colon]) ++ render mv') ++ [c_rbrace]).
        { simpl. now rewrite <- !app_assoc. }
        rewrite Er'. now rewrite <- !app_assoc.
      * rewrite !map_app. simpl. now rewrite Ee'.
Qed.

Lemma isSolid_not_ws (k : char) : isSolid k = true -> isWhiteSpace k = false.
Proof.
  unfold isSolid. intros H. apply negb_true_iff, orb_false_iff in H. tauto.
Qed.

(** White space in front of a JSON text can be left out. *)
Lemma left_edge (t : cst) :
  valid t = true ->
  forall w x,
    render t = w ++ x -> forallb isWhiteSpace w = true ->
    exists t', valid t' = true /\ render t' = x /\ eraseWs t' = eraseWs t.
Proof.
  assert (Hsame : forall t k rest w x,
             render t = k :: rest -> isWhiteSpace k = false ->
             valid t = true -> render t = w ++ x ->
             forallb isWhiteSpace w = true ->
             exists t', valid t' = true /\ render t' = x
                        /\ eraseWs t' = eraseWs t).
  { intros t0 k rest w x Ek Hk Hv E Hw. destruct w as [|a w].
    - exists t0. auto.
    - rewrite Ek in E. simpl in E, Hw. injection E as <- _.
      apply andb_prop in Hw as [Ha _]. congruence. }
  induction t as [token|body|before v after IH|pad elements _|pad members _]
    using cst_induction; intros Hv w x E Hw.
  - destruct (isAtom_plain token Hv) as [Hne Hp].
    destruct token as [|k rest]; [congruence|].
    simpl in Hp. apply andb_prop in Hp as [Hk _].
    apply (Hsame (CAtom (k :: rest)) k rest w x); auto.
    now apply isSolid_not_ws, plainChar_solid.
  - eapply (Hsame (CString body) c_quote); eauto; reflexivity.
  - cbn [valid render] in *.
    apply andb_prop in Hv as [Hv Ha]. apply andb_prop in Hv as [Hb Hv].
    destruct (first_solid v Hv) as (pre & k & post & Er & Hk & Hpre).
    rewrite Er in E.
    replace (before ++ (pre ++ k :: post) ++ after)
      with ((before ++ pre) ++ k :: post ++ after) in E
      by (now rewrite <- !app_assoc).
    destruct (prefix_before_solid w Hw (before ++ pre) k (post ++ after) x)
      as (pre' & E1 & Ex); [now apply isSolid_not_ws| |assumption|].
    { rewrite forallb_app. now rewrite !jsonWs_whiteSpace. }
    apply app_eq_app in E1 as (l & [[E1 E2]|[E1 E2]]).
    + assert (Hl : forallb isJsonWs l = true).
      { rewrite E1, forallb_app in Hb. now apply andb_prop in Hb as [_ Hb]. }
      exists (CPad l v after). cbn [valid render eraseWs].
      rewrite Hl, Hv, Ha. split; [reflexivity|]. split; [|reflexivity].
      rewrite Er, Ex, E2. now rewrite <- !app_assoc.
    + assert (Hl : forallb isWhiteSpace l = true).
      { rewrite E1, forallb_app in Hw. now apply andb_prop in Hw as [_ Hw]. }
      destruct (IH Hv l (pre' ++ k :: post)) as (v' & Hv' & Er' & Ee');
        [|assumption|].
      { rewrite Er, E2. now rewrite <- !app_assoc. }
      exists (CPad [] v' after). cbn [valid render eraseWs].
      rewrite Hv', Ha. split; [reflexivity|]. split; [|assumption].
      rewrite Er', Ex. simpl. now rewrite <- !app_assoc.
  - eapply (Hsame (CArray pad elements) c_lbracket); eauto; reflexivity.
  - eapply (Hsame (CObject pad members) c_lbrace); eauto; reflexivity.
Qed.

(** The repaired text is a JSON document again, and differs from the
    document that was truncated in white space only. *)
Lemma repairJson_sameJson (d p c : jsstring) :
  jsonText d -> d = p ++ c -> forallb isCloser c = true ->
  sameJson d (repairJson p).
Proof.
  intros Hd E Hc. rewrite (repairJson_truncated d p c Hd E Hc).
  destruct Hd as (t & Hv & Er).
  destruct (trim_split p) as (w1 & w2 & Ep & Hw1 & Hw2).
  destruct (left_edge t Hv w1 (trim p ++ w2 ++ c)) as (t1 & Hv1 & Er1 & Ee1);
    [|assumption|].
  { rewrite Er, E. rewrite Ep at 1. now rewrite <- !app_assoc. }
  destruct (right_edge t1 Hv1 (trim p) w2 c Er1 Hw2 Hc) as (t2 & Hv2 & Er2 & Ee2).
  exists t, t2. repeat split; try assumption. congruence.
Qed.

(** C3, as the code has it: on a well-formed JSON document that lost only
    closing braces and brackets at its end, repairJson returns the trimmed
    input followed by exactly the missing closers; the result is a
    well-formed JSON document that differs from the truncated one in white
    space only, and when the input has no white space at its ends it is
    that document itself. *)
Theorem repairJson_restores_truncated (d p c : jsstring) :
  jsonText d -> d = p ++ c -> forallb isCloser c = true ->
  repairJson p = trim p ++ c
  /\ sameJson d (repairJson p)
  /\ (trim p = p -> repairJson p = d).
Proof.
  intros Hd E Hc.
  pose proof (repairJson_truncated d p c Hd E Hc) as H.
  split; [exact H|]. split; [now apply (repairJson_sameJson d p c)|].
  intros Ht. now rewrite H, Ht, <- E.
Qed.

Lemma repairJson_restores_truncated_witness :
  let d := strq "{'a': [1, {'b': 'x]'}]}" in
  let p := strq "{'a': [1, {'b': 'x]'" in
  let c := strq "}]}" in
  repairJson p = trim p ++ c
  /\ sameJson d (repairJson p)
  /\ (trim p = p -> repairJson p = d).
Proof.
  intros d p c. apply (repairJson_restores_truncated d p c).
  - exists (CObject []
              [(CString (str "a"),
                CPad (str " ")
                  (CArray []
                     [CAtom (str "1");
                      CPad (str " ")
                        (CObject []
                           [(CString (str "b"),
                             CPad (str " ") (CString (str "x]")) [])]) []]) [])]).
    split; reflexivity.
  - reflexivity.
  - reflexivity.
Defined.

(** C3 as stated fails on an input with white space at its ends: the
    document [ [1]] with a leading blank, truncated to [ [1], is repaired to
    [[1]] without the blank, which is not the document that was truncated. *)
Lemma repairJson_trims_counterexample :
  let d := strq " [1]" in
  let p := strq " [1" in
  let c := strq "]" in
  jsonText d /\ d = p ++ c /\ forallb isCloser c = true
  /\ repairJson p = strq "[1]" /\ repairJson p <> d.
Proof.
  intros d p c. repeat split.
  - exists (CPad (str " ") (CArray [] [CAtom (str "1")]) []).
    split; reflexivity.
  - vm_compute. discriminate.
Qed.

(* --------------------------------------------------------------------- *)
(** ** cleanJson *)
(* --------------------------------------------------------------------- *)

Lemma startsWith_length (pat s : jsstring) :
  startsWith pat s = true -> List.length pat <= List.length s.
Proof.
  revert s. induction pat as [|x pat IH]; intros [|c s]; simpl;
    try discriminate; try lia.
  intros H. apply andb_prop in H as [_ H]. apply IH in H. lia.
Qed.

Lemma startsWith_barrier (pat a b : jsstring) (x : char) :
  ~ In x pat -> startsWith pat (a ++ x :: b) = startsWith pat a.
Proof.
  revert a. induction pat as [|y pat IH]; intros a Hx; [reflexivity|].
  destruct a as [|c a]; simpl.
  - destruct (N.eqb_spec y x); [|reflexivity].
    exfalso. apply Hx. left. assumption.
  - rewrite IH; [reflexivity|]. intros H. apply Hx. now right.
Qed.

Lemma removeAllFrom_barrier (pat b : jsstring) (x : char) :
  pat <> [] -> ~ In x pat ->
  forall a k, k <= List.length a ->
    removeAllFrom pat k (a ++ x :: b)
    = removeAllFrom pat k a ++ x :: removeAll pat b.
Proof.
  intros Hne Hx. induction a as [|c a IH]; intros k Hk.
  - simpl in Hk. assert (k = 0) as -> by lia.
    pose proof (startsWith_barrier pat [] b x Hx) as E.
    destruct pat as [|y pat]; [congruence|].
    simpl in *. rewrite E. reflexivity.
  - destruct k as [|k]; cbn [app removeAllFrom].
    + change (c :: a ++ x :: b) with ((c :: a) ++ x :: b).
      rewrite (startsWith_barrier pat (c :: a) b x Hx).
      destruct (startsWith pat (c :: a)) eqn:E.
      * apply IH. apply startsWith_length in E. simpl in E. lia.
      * simpl. f_equal. apply IH. lia.
    + apply IH. simpl in Hk. lia.
Qed.

Lemma removeAll_barrier (pat a b : jsstring) (x : char) :
  pat <> [] -> ~ In x pat ->
  removeAll pat (a ++ x :: b) = removeAll pat a ++ x :: removeAll pat b.
Proof.
  intros Hne Hx. unfold removeAll at 1 2.
  apply removeAllFrom_barrier; [assumption|assumption|lia].
Qed.

Lemma removeAllFrom_In (pat s : jsstring) (x : char) :
  forall k, In x (removeAllFrom pat k s) -> In x s.
Proof.
  induction s as [|c s IH]; intros k; simpl; [tauto|].
  destruct k.
  - destruct (startsWith pat (c :: s)).
    + intros H. right. eapply IH, H.
    + intros [H|H]; [now left|right; eapply IH, H].
  - intros H. right. eapply IH, H.
Qed.

Lemma startsWith_app (pat a b : jsstring) :
  startsWith pat a = true -> startsWith pat (a ++ b) = true.
Proof.
  revert a. induction pat as [|y pat IH]; intros a; [reflexivity|].
  destruct a as [|z a]; simpl; [discriminate|].
  intros H. apply andb_prop in H as [H1 H2]. rewrite H1. simpl. now apply IH.
Qed.

Lemma includes_app_l (pat a b : jsstring) :
  includes pat (a ++ b) = false -> includes pat a = false.
Proof.
  induction a as [|c a IH].
  - simpl. destruct pat; [|reflexivity]. destruct b; discriminate.
  - cbn [app includes]. intros H. apply orb_false_iff in H as [H1 H2].
    rewrite IH by assumption. rewrite orb_false_r.
    destruct (startsWith pat (c :: a)) eqn:E; [|reflexivity].
    apply (startsWith_app pat (c :: a) b) in E. simpl app in E. congruence.
Qed.

Lemma removeAll_absent (pat s : jsstring) :
  includes pat s = false -> removeAll pat s = s.
Proof.
  unfold removeAll. induction s as [|c s IH]; [reflexivity|].
  cbn [includes removeAllFrom]. intros H. apply orb_false_iff in H as [H1 H2].
  rewrite H1. f_equal. now apply IH.
Qed.

Lemma startsWith_fence_json (s : jsstring) :
  startsWith fence_json s = true -> startsWith fence s = true.
Proof.
  destruct s as [|a [|b [|c s]]]; simpl; try discriminate;
    rewrite ?andb_false_r; try discriminate.
  intros H. apply andb_prop in H as [-> H]. apply andb_prop in H as [-> H].
  apply andb_prop in H as [-> H]. reflexivity.
Qed.

Lemma includes_fence_json (s : jsstring) :
  includes fence s = false -> includes fence_json s = false.
Proof.
  induction s as [|c s IH]; [reflexivity|].
  cbn [includes]. intros H. apply orb_false_iff in H as [H1 H2].
  rewrite IH by assumption. rewrite orb_false_r.
  destruct (startsWith fence_json (c :: s)) eqn:E; [|reflexivity].
  apply startsWith_fence_json in E. congruence.
Qed.

Lemma indexOf_first (x : char) (a b : jsstring) :
  ~ In x a -> indexOf x (a ++ x :: b) = Some (List.length a).
Proof.
  induction a as [|c a IH]; simpl; intros H.
  - now rewrite N.eqb_refl.
  - destruct (N.eqb_spec c x); [exfalso; auto|].
    rewrite IH; [reflexivity|]. tauto.
Qed.

Lemma lastIndexOf_none (x : char) (b : jsstring) :
  ~ In x b -> lastIndexOf x b = None.
Proof.
  induction b as [|c b IH]; simpl; intros H; [reflexivity|].
  rewrite IH by tauto. destruct (N.eqb_spec c x); [exfalso; auto|reflexivity].
Qed.

Lemma lastIndexOf_last (x : char) (a b : jsstring) :
  ~ In x b -> lastIndexOf x (a ++ x :: b) = Some (List.length a).
Proof.
  intros H. induction a as [|c a IH]; simpl.
  - rewrite lastIndexOf_none by assumption. now rewrite N.eqb_refl.
  - now rewrite IH.
Qed.

Lemma jsonObject_shape (obj : jsstring) :
  jsonObject obj -> exists mid, obj = c_lbrace :: mid ++ [c_rbrace].
Proof.
  intros (pad & members & _ & <-). simpl. rewrite app_assoc. eauto.
Qed.

Lemma stripFences_around (pre mid post : jsstring) :
  includes fence mid = false ->
  stripFences (pre ++ (c_lbrace :: mid ++ [c_rbrace]) ++ post)
  = stripFences pre ++ (c_lbrace :: mid ++ [c_rbrace]) ++ stripFences post.
Proof.
  intros Hmid. unfold stripFences.
  assert (Hj1 : ~ In c_lbrace fence_json)
    by (vm_compute; intuition discriminate).
  assert (Hj2 : ~ In c_rbrace fence_json)
    by (vm_compute; intuition discriminate).
  assert (Hf1 : ~ In c_lbrace fence) by (vm_compute; intuition discriminate).
  assert (Hf2 : ~ In c_rbrace fence) by (vm_compute; intuition discriminate).
  assert (Hnj : fence_json <> []) by discriminate.
  assert (Hnf : fence <> []) by discriminate.
  simpl app. rewrite <- (app_assoc mid [c_rbrace] post). simpl app.
  rewrite (removeAll_barrier fence_json pre _ c_lbrace Hnj Hj1).
  rewrite (removeAll_barrier fence_json mid _ c_rbrace Hnj Hj2).
  rewrite (removeAll_barrier fence _ _ c_lbrace Hnf Hf1).
  rewrite (removeAll_barrier fence _ _ c_rbrace Hnf Hf2).
  rewrite (removeAll_absent fence_json mid) by now apply includes_fence_json.
  rewrite (removeAll_absent fence mid) by assumption.
  rewrite <- (app_assoc mid [c_rbrace]). reflexivity.
Qed.

(** C4, as the code has it: cleanJson returns exactly the JSON object when
    the text before it has no opening brace, the text after it has no
    closing brace, and the object does not contain a code fence itself. *)
Theorem cleanJson_extracts_object (pre obj post : jsstring) :
  jsonObject obj ->
  ~ In c_lbrace pre -> ~ In c_rbrace post -> includes fence obj = false ->
  cleanJson (pre ++ obj ++ post) = obj.
Proof.
  intros Hobj Hpre Hpost Hfence.
  destruct (jsonObject_shape obj Hobj) as [mid ->].
  assert (Hmid : includes fence mid = false).
  { cbn [includes] in Hfence. apply orb_false_iff in Hfence as [_ Hfence].
    now apply includes_app_l in Hfence. }
  set (A := stripFences pre). set (B := stripFences post).
  assert (HA : ~ In c_lbrace A).
  { intros H. apply Hpre. unfold A, stripFences, removeAll in H.
    apply removeAllFrom_In in H. now apply removeAllFrom_In in H. }
  assert (HB : ~ In c_rbrace B).
  { intros H. apply Hpost. unfold B, stripFences, removeAll in H.
    apply removeAllFrom_In in H. now apply removeAllFrom_In in H. }
  assert (Hclean : stripFences (pre ++ (c_lbrace :: mid ++ [c_rbrace]) ++ post)
                   = (A ++ c_lbrace :: mid) ++ c_rbrace :: B).
  { rewrite (stripFences_around pre mid post Hmid). fold A B.
    simpl. rewrite <- !app_assoc. reflexivity. }
  unfold cleanJson. rewrite Hclean.
  rewrite (lastIndexOf_last c_rbrace _ B HB).
  rewrite <- app_assoc. simpl app.
  rewrite (indexOf_first c_lbrace A _ HA).
  rewrite length_app. simpl List.length.
  replace (List.length A <? List.length A + S (List.length mid)) with true
    by (symmetry; apply Nat.ltb_lt; lia).
  unfold substring. rewrite skipn_app.
  rewrite skipn_all, Nat.sub_diag. simpl skipn. simpl app.
  replace (List.length A + S (List.length mid) + 1 - List.length A)
    with (List.length (c_lbrace :: mid ++ [c_rbrace]))
    by (simpl; rewrite length_app; simpl; lia).
  replace (c_lbrace :: mid ++ c_rbrace :: B)
    with ((c_lbrace :: mid ++ [c_rbrace]) ++ B)
    by (simpl; rewrite <- app_assoc; reflexivity).
  rewrite firstn_app, Nat.sub_diag, firstn_all. simpl firstn.
  apply app_nil_r.
Qed.

Lemma cleanJson_extracts_object_witness :
  let obj := strq "{'title': 'T', 'quizzes': [{'options': ['a', 'b']}]}" in
  cleanJson (str "```json" ++ [10%N] ++ obj ++ [10%N] ++ str "``` Hope this helps!")
  = obj.
Proof.
  intros obj.
  apply (cleanJson_extracts_object (str "```json" ++ [10%N]) obj
           ([10%N] ++ str "``` Hope this helps!")).
  - exists [],
      [(CString (str "title"), CPad (str " ") (CString (str "T")) []);
       (CPad (str " ") (CString (str "quizzes")) [],
        CPad (str " ")
          (CArray []
             [CObject []
                [(CString (str "options"),
                  CPad (str " ")
                    (CArray [] [CString (str "a");
                                CPad (str " ") (CString (str "b")) []]) [])]])
          [])].
    split; reflexivity.
  - vm_compute. intuition discriminate.
  - vm_compute. intuition discriminate.
  - reflexivity.
Defined.

(** C4 as stated fails when the trailing prose has a closing brace, and
    when the object itself contains a code fence. *)
Lemma cleanJson_counterexample :
  let obj := strq "{'a':1}" in
  let obj2 := strq "{'a':'```'}" in
  jsonObject obj
  /\ cleanJson (obj ++ str " Use {} for an empty object.")
     = strq "{'a':1} Use {}"
  /\ cleanJson (obj ++ str " Use {} for an empty object.") <> obj
  /\ jsonObject obj2
  /\ cleanJson obj2 = strq "{'a':''}"
  /\ cleanJson obj2 <> obj2.
Proof.
  intros obj obj2. repeat split.
  - exists [], [(CString (str "a"), CAtom (str "1"))]. split; reflexivity.
  - vm_compute. discriminate.
  - exists [], [(CString (str "a"), CString (str "```"))]. split; reflexivity.
  - vm_compute. discriminate.
Qed.

(* --------------------------------------------------------------------- *)
(** ** Post-processing of the quizzes *)
(* --------------------------------------------------------------------- *)

Lemma getProp_ok (v : JsValue) (k : jsstring) :
  isNullish v = false ->
  getProp v k = Ok (match v with
                    | JObj fields => lookupField k fields
                    | _ => JUndefined
                    end).
Proof. destruct v; simpl; intros H; try discriminate; reflexivity. Qed.

Lemma getProp_throws (v : JsValue) (k : jsstring) :
  isNullish v = true -> exists e, getProp v k = Throw e.
Proof. destruct v; simpl; intros H; try discriminate; eauto. Qed.

Lemma sanitizeQuiz_ok (raw : JsValue) :
  isNullish raw = false ->
  sanitizeQuiz raw
  = Ok {| question := if truthy (fieldOf raw (str "question"))
                      then fieldOf raw (str "question")
                      else JStr (str "Untitled Question");
          options := match fieldOf raw (str "options") with
                     | JArr elements =>
                         if 2 <=? List.length elements then elements
                         else placeholderOptions
                     | _ => placeholderOptions
                     end;
          correctAnswerIndex := match fieldOf raw (str "correctAnswerIndex") with
                                | JNum n => n
                                | _ => num_zero
                                end;
          explanation := if truthy (fieldOf raw (str "explanation"))
                         then fieldOf raw (str "explanation")
                         else placeholderExplanation |}.
Proof.
  intros H. unfold sanitizeQuiz. rewrite !(getProp_ok raw _ H). reflexivity.
Qed.

Lemma sanitizeQuiz_inv (raw : JsValue) (q : QuizQuestion) :
  sanitizeQuiz raw = Ok q -> isNullish raw = false.
Proof.
  destruct (isNullish raw) eqn:E; [|reflexivity].
  destruct (getProp_throws raw (str "question") E) as [e He].
  unfold sanitizeQuiz. rewrite He. discriminate.
Qed.

Lemma sanitizeQuiz_options (raw : JsValue) (q : QuizQuestion) :
  sanitizeQuiz raw = Ok q -> 2 <= List.length (options q).
Proof.
  intros H. pose proof (sanitizeQuiz_inv raw q H) as Hn.
  rewrite (sanitizeQuiz_ok raw Hn) in H. injection H as <-.
  cbn [options]. unfold placeholderOptions.
  destruct (fieldOf raw (str "options")) as [| | | | |elements|];
    cbn [List.length]; try lia.
  destruct elements as [|a [|b elements]]; cbn [List.length]; lia.
Qed.

Lemma mapM_ok {A B : Type} (f : A -> result B) (l : list A) (ys : list B) :
  mapM f l = Ok ys -> Forall2 (fun x y => f x = Ok y) l ys.
Proof.
  revert ys. induction l as [|x l IH]; intros ys; simpl.
  - intros [= <-]. constructor.
  - destruct (f x) as [y|e] eqn:E; simpl; [|discriminate].
    destruct (mapM f l) as [ys'|e]; simpl; [|discriminate].
    intros [= <-]. constructor; auto.
Qed.

Lemma mapM_total {A B : Type} (f : A -> result B) (l : list A) :
  Forall (fun x => exists y, f x = Ok y) l -> exists ys, mapM f l = Ok ys.
Proof.
  induction 1 as [|x l [y Hy] _ [ys Hys]]; simpl.
  - eauto.
  - rewrite Hy, Hys. simpl. eauto.
Qed.

Lemma filter_all {A : Type} (p : A -> bool) (l : list A) :
  Forall (fun x => p x = true) l -> filter p l = l.
Proof.
  induction 1 as [|x l Hx _ IH]; simpl; [reflexivity|].
  now rewrite Hx, IH.
Qed.

(** The filter after the map drops nothing: every mapped quiz has at least
    two options. *)
Lemma sanitizeQuizzes_ok (raws : list JsValue) (qs : list QuizQuestion) :
  sanitizeQuizzes raws = Ok qs <-> mapM sanitizeQuiz raws = Ok qs.
Proof.
  unfold sanitizeQuizzes.
  destruct (mapM sanitizeQuiz raws) as [mapped|e] eqn:E; simpl;
    [|split; discriminate].
  rewrite filter_all; [reflexivity|].
  apply mapM_ok in E. induction E as [|raw q raws' qs' Hq _ IH]; constructor; auto.
  apply sanitizeQuiz_options in Hq. apply Nat.ltb_lt. lia.
Qed.

Lemma sanitizeQuizzes_origin (raws : list JsValue) (qs : list QuizQuestion)
  (q : QuizQuestion) :
  sanitizeQuizzes raws = Ok qs -> In q qs ->
  exists raw, In raw raws /\ sanitizeQuiz raw = Ok q.
Proof.
  intros H Hq. apply sanitizeQuizzes_ok, mapM_ok in H.
  induction H as [|raw q' raws' qs' Hq' _ IH]; [contradiction|].
  destruct Hq as [<-|Hq].
  - exists raw. split; [now left|assumption].
  - destruct (IH Hq) as [r [Hr1 Hr2]]. exists r. split; [now right|assumption].
Qed.

(* --------------------------------------------------------------------- *)
(** ** What analyzeLectureContent delivers *)
(* --------------------------------------------------------------------- *)

Section Delivery.
Variable JSON_parse : jsstring -> result JsValue.
Variable numberToString : number -> jsstring.
Variable api : nat -> ApiOutcome.

Lemma postProcess_quizzes (parsed : JsValue) (d : Delivered) :
  postProcess numberToString parsed = Ok d ->
  exists raws, sanitizeQuizzes raws = Ok (deliveredQuizzes d).
Proof.
  unfold postProcess.
  destruct (titleSaysFailed parsed) as [failed|e]; simpl; [|discriminate].
  destruct failed.
  { destruct (getProp parsed (str "summary")); simpl; discriminate. }
  destruct (getProp parsed (str "quizzes")) as [rq|e]; simpl; [|discriminate].
  destruct (getProp parsed (str "flashcards")) as [rf|e]; simpl; [|discriminate].
  destruct (canHoldProperties parsed); simpl; [|discriminate].
  destruct (sanitizeQuizzes (arrayOr rq [])) as [qs|e] eqn:E; simpl;
    [|discriminate].
  intros [= <-]. simpl. eauto.
Qed.

Lemma runAttempt_quizzes (attempt : nat) (d : Delivered) :
  runAttempt JSON_parse numberToString api attempt = Ok d ->
  exists raws, sanitizeQuizzes raws = Ok (deliveredQuizzes d).
Proof.
  unfold runAttempt.
  destruct (api attempt) as [e|[[|c text]|]]; try discriminate.
  destruct (parseResponse JSON_parse (c :: text)) as [parsed|e]; simpl;
    [|discriminate].
  apply postProcess_quizzes.
Qed.

Lemma retryLoop_delivers (remaining attempt : nat) (d : Delivered) :
  outcome (retryLoop JSON_parse numberToString api remaining attempt) = Ok d ->
  exists n, runAttempt JSON_parse numberToString api n = Ok d.
Proof.
  revert attempt. induction remaining as [|r IH]; intros attempt; simpl.
  - discriminate.
  - destruct (runAttempt JSON_parse numberToString api attempt) as [d'|e] eqn:E.
    + simpl. intros [= <-]. eauto.
    + destruct (attempt =? MAX_RETRIES); simpl; [discriminate|]. apply IH.
Qed.

(** What the post-processing delivers: the parsed value, and the images of
    the elements of its [quizzes] under [sanitizeQuiz], one for one. *)
Lemma postProcess_origin (parsed : JsValue) (d : Delivered) :
  postProcess numberToString parsed = Ok d ->
  data d = parsed
  /\ Forall2 (fun raw q => sanitizeQuiz raw = Ok q)
             (arrayOr (fieldOf parsed (str "quizzes")) [])
             (deliveredQuizzes d).
Proof.
  unfold postProcess.
  destruct (titleSaysFailed parsed) as [failed|e]; simpl; [|discriminate].
  destruct failed.
  { destruct (getProp parsed (str "summary")); simpl; discriminate. }
  destruct (canHoldProperties parsed) eqn:Ec.
  2:{ destruct (getProp parsed (str "quizzes")); simpl; [|discriminate].
      destruct (getProp parsed (str "flashcards")); simpl; discriminate. }
  assert (Hq : getProp parsed (str "quizzes")
               = Ok (fieldOf parsed (str "quizzes")))
    by (destruct parsed; try discriminate; reflexivity).
  assert (Hf : exists rf, getProp parsed (str "flashcards") = Ok rf)
    by (destruct parsed; try discriminate; eexists; reflexivity).
  destruct Hf as [rf Hf]. rewrite Hq, Hf. simpl.
  destruct (sanitizeQuizzes (arrayOr (fieldOf parsed (str "quizzes")) []))
    as [qs|e] eqn:E; simpl; [|discriminate].
  intros [= <-]. simpl. split; [reflexivity|].
  apply mapM_ok. now apply sanitizeQuizzes_ok.
Qed.

(** A delivered analysis comes from one response of the service: its
    [data] is what the cascade parsed from the text of that response, and
    its quiz questions are the images of the quizzes of that value. *)
Lemma delivered_origin (d : Delivered) :
  outcome (analyzeLectureContent JSON_parse numberToString api) = Ok d ->
  exists n responseText,
    api n = ApiResponds (Some responseText)
    /\ parseResponse JSON_parse responseText = Ok (data d)
    /\ Forall2 (fun raw q => sanitizeQuiz raw = Ok q)
               (arrayOr (fieldOf (data d) (str "quizzes")) [])
               (deliveredQuizzes d).
Proof.
  intros H. apply retryLoop_delivers in H as [n H].
  unfold runAttempt in H.
  destruct (api n) as [e|[[|c text]|]] eqn:Eapi; try discriminate.
  destruct (parseResponse JSON_parse (c :: text)) as [parsed|e] eqn:Ep;
    simpl in H; [|discriminate].
  destruct (postProcess_origin parsed d H) as [Hd Hall].
  exists n, (c :: text). rewrite Hd. auto.
Qed.

(** Every delivered quiz question is the image of an element of the
    response under [sanitizeQuiz]. *)
Lemma delivered_quiz_origin (d : Delivered) (q : QuizQuestion) :
  outcome (analyzeLectureContent JSON_parse numberToString api) = Ok d ->
  In q (deliveredQuizzes d) ->
  exists raw, sanitizeQuiz raw = Ok q.
Proof.
  intros H Hq. apply retryLoop_delivers in H as [n H].
  apply runAttempt_quizzes in H as [raws H].
  destruct (sanitizeQuizzes_origin raws _ q H Hq) as [raw [_ Hraw]]. eauto.
Qed.
End Delivery.

(* --------------------------------------------------------------------- *)
(** ** correctAnswerIndex *)
(* --------------------------------------------------------------------- *)

Lemma getSafeCorrectIndex_clamped (q : QuizQuestion) :
  1 <= List.length (options q) ->
  exists i, getSafeCorrectIndex q = Int i
            /\ (0 <= i <= Z.of_nat (List.length (options q)) - 1)%Z.
Proof.
  intros Hlen. unfold getSafeCorrectIndex.
  set (hi := (Z.of_nat (List.length (options q)) - 1)%Z).
  assert (0 <= hi)%Z by (unfold hi; lia).
  destruct (correctAnswerIndex q) as [s|s| |s m e]; simpl.
  - exists (Z.min 0 hi). split; [reflexivity|lia].
  - destruct s; simpl.
    + exists (Z.min 0 hi). split; [reflexivity|lia].
    + exists hi. split; [reflexivity|lia].
  - exists (Z.min 0 hi). split; [reflexivity|lia].
  - eexists. split; [reflexivity|lia].
Qed.

(** C1, as the code has it.  A delivered analysis comes from the text of
    one response of the service, and its quiz questions are those of the
    value parsed from that text, one for one and in their order: in each,
    the field correctAnswerIndex is the number that the question of the
    response held, unchanged, or 0 when it held no number there, and the
    list of options has at least two entries.  The clamping is done by the
    quiz view, whose getSafeCorrectIndex returns an integer of
    [0, options.length - 1] for every delivered question. *)
Theorem delivered_index_clamped_by_view
  (JSON_parse : jsstring -> result JsValue)
  (numberToString : number -> jsstring) (api : nat -> ApiOutcome)
  (d : Delivered) :
  outcome (analyzeLectureContent JSON_parse numberToString api) = Ok d ->
  exists n responseText,
    api n = ApiResponds (Some responseText)
    /\ parseResponse JSON_parse responseText = Ok (data d)
    /\ Forall2
         (fun raw q =>
            correctAnswerIndex q
            = match fieldOf raw (str "correctAnswerIndex") with
              | JNum n => n
              | _ => num_zero
              end
            /\ 2 <= List.length (options q)
            /\ exists i,
                 getSafeCorrectIndex q = Int i
                 /\ (0 <= i <= Z.of_nat (List.length (options q)) - 1)%Z)
         (arrayOr (fieldOf (data d) (str "quizzes")) [])
         (deliveredQuizzes d).
Proof.
  intros Hrun.
  destruct (delivered_origin JSON_parse numberToString api d Hrun)
    as [n [responseText [Hapi [Hparse Hall]]]].
  exists n, responseText. split; [exact Hapi|]. split; [exact Hparse|].
  revert Hall. apply Forall2_impl. intros raw q Hraw.
  pose proof (sanitizeQuiz_options raw q Hraw) as Hlen.
  split; [|split; [exact Hlen|apply getSafeCorrectIndex_clamped; lia]].
  rewrite (sanitizeQuiz_ok raw (sanitizeQuiz_inv raw q Hraw)) in Hraw.
  injection Hraw as <-. reflexivity.
Qed.

Lemma analyze_index7 :
  outcome (analyzeLectureContent (parseOnly responseIndex7 valueIndex7)
             (fun _ => []) (fun _ => ApiResponds (Some responseIndex7)))
  = Ok {| data := valueIndex7;
          deliveredQuizzes := [quizIndex7];
          deliveredFlashcards := [] |}.
Proof. vm_compute. reflexivity. Qed.

Lemma delivered_index_clamped_by_view_witness :
  exists n responseText,
    (fun _ : nat => ApiResponds (Some responseIndex7)) n
    = ApiResponds (Some responseText)
    /\ parseResponse (parseOnly responseIndex7 valueIndex7) responseText
       = Ok valueIndex7
    /\ Forall2
         (fun raw q =>
            correctAnswerIndex q
            = match fieldOf raw (str "correctAnswerIndex") with
              | JNum n => n
              | _ => num_zero
              end
            /\ 2 <= List.length (options q)
            /\ exists i,
                 getSafeCorrectIndex q = Int i
                 /\ (0 <= i <= Z.of_nat (List.length (options q)) - 1)%Z)
         (arrayOr (fieldOf valueIndex7 (str "quizzes")) [])
         [quizIndex7].
Proof.
  apply (delivered_index_clamped_by_view
           (parseOnly responseIndex7 valueIndex7) (fun _ => [])
           (fun _ => ApiResponds (Some responseIndex7))
           {| data := valueIndex7;
              deliveredQuizzes := [quizIndex7];
              deliveredFlashcards := [] |}).
  vm_compute. reflexivity.
Defined.

(** C1 as stated fails: the question delivered for that response still has
    the index 7, with four options. *)
Lemma delivered_index_counterexample :
  exists d q,
    outcome (analyzeLectureContent (parseOnly responseIndex7 valueIndex7)
               (fun _ => []) (fun _ => ApiResponds (Some responseIndex7)))
    = Ok d
    /\ In q (deliveredQuizzes d)
    /\ integerValue (correctAnswerIndex q) = Some 7%Z
    /\ List.length (options q) = 4
    /\ ~ indexInRange (correctAnswerIndex q) (List.length (options q)).
Proof.
  eexists. exists quizIndex7. split; [apply analyze_index7|].
  split; [simpl; auto|]. split; [reflexivity|]. split; [reflexivity|].
  intros [i [Hi Hr]]. vm_compute in Hi. injection Hi as <-.
  simpl in Hr. lia.
Qed.

(* --------------------------------------------------------------------- *)
(** ** validQuizzes *)
(* --------------------------------------------------------------------- *)

(** C2: a quiz object with fewer than two options is not in the validated
    list, whatever list the view is given; every question of the validated
    list has at least two options. *)
Theorem validQuizzes_excludes_short (quizzes : list QuizQuestion) :
  (forall q, List.length (options q) < 2 -> ~ In q (validQuizzes quizzes))
  /\ (forall q, In q (validQuizzes quizzes) ->
                In q quizzes /\ 2 <= List.length (options q)).
Proof.
  assert (H : forall q, In q (validQuizzes quizzes) ->
                        In q quizzes /\ 2 <= List.length (options q)).
  { intros q Hq. unfold validQuizzes in Hq. apply filter_In in Hq as [Hin Hq].
    apply andb_prop in Hq as [_ Hq]. apply Nat.leb_le in Hq. auto. }
  split; [|exact H]. intros q Hlen Hq. apply H in Hq. lia.
Qed.

Example validQuizzes_example :
  let short := {| question := JStr (str "Q1"); options := [JStr (str "only")];
                  correctAnswerIndex := num_zero;
                  explanation := placeholderExplanation |} in
  validQuizzes [short; quizIndex7] = [quizIndex7].
Proof. reflexivity. Qed.

(* --------------------------------------------------------------------- *)
(** ** Placeholders for options and explanation *)
(* --------------------------------------------------------------------- *)

(** C6, as the code has it: the post-processing of a list of quiz elements
    none of which is null returns a list of the same length, in the same
    order; the options of an element are replaced by the two-option
    placeholder when they are missing, not a list, or a list of fewer than
    two entries, and are kept otherwise, whatever the entries are; a
    missing explanation (any falsy value) is replaced by the placeholder
    string. *)
Theorem sanitizeQuizzes_placeholders (raws : list JsValue) :
  Forall (fun raw => isNullish raw = false) raws ->
  exists qs,
    sanitizeQuizzes raws = Ok qs
    /\ List.length qs = List.length raws
    /\ Forall2 sanitizedFrom raws qs.
Proof.
  intros Hraws.
  destruct (mapM_total sanitizeQuiz raws) as [qs Hqs].
  { eapply Forall_impl; [|exact Hraws]. intros raw H.
    rewrite (sanitizeQuiz_ok raw H). eauto. }
  exists qs. split; [now apply sanitizeQuizzes_ok|].
  apply mapM_ok in Hqs.
  split; [symmetry; eapply Forall2_length; eassumption|].
  clear Hraws. induction Hqs as [|raw q raws' qs' Hq _ IH]; constructor; auto.
  rewrite (sanitizeQuiz_ok raw (sanitizeQuiz_inv raw q Hq)) in Hq.
  injection Hq as <-. unfold sanitizedFrom. cbn [options explanation].
  repeat split.
  - intros ->. reflexivity.
  - intros ->. reflexivity.
Qed.

Lemma sanitizeQuizzes_placeholders_witness :
  exists qs,
    sanitizeQuizzes [rawNoOptions; rawNumericOptions] = Ok qs
    /\ List.length qs = 2
    /\ Forall2 sanitizedFrom [rawNoOptions; rawNumericOptions] qs.
Proof.
  apply (sanitizeQuizzes_placeholders [rawNoOptions; rawNumericOptions]).
  repeat constructor.
Defined.

(** C6 as stated fails on options that are a list of two numbers: they are
    not a list of at least two strings, and they are kept. *)
Lemma sanitizeQuiz_numeric_options_counterexample :
  isListOfTwoStrings (fieldOf rawNumericOptions (str "options")) = false
  /\ exists q, sanitizeQuiz rawNumericOptions = Ok q
               /\ options q = [JNum (numOfPos 3); JNum (numOfPos 4)]
               /\ options q <> placeholderOptions.
Proof.
  split; [reflexivity|]. eexists. split; [reflexivity|].
  split; [reflexivity|]. discriminate.
Qed.

(* --------------------------------------------------------------------- *)
(** ** The retry loop *)
(* --------------------------------------------------------------------- *)

Lemma finalMessage_nonempty (e : Exn) : finalMessage e <> [].
Proof.
  unfold finalMessage. destruct (message e) eqn:E; [discriminate|].
  discriminate.
Qed.

(** C8: analyzeLectureContent calls the service at most MAX_RETRIES = 2
    times; when the first attempt throws, it makes a second one; when the
    second throws too, it throws an Error whose message is the message of
    that last exception, or a fixed text when that message is empty, so
    the message thrown is never empty; and it throws in no other case. *)
Theorem analyze_retries_then_throws
  (JSON_parse : jsstring -> result JsValue)
  (numberToString : number -> jsstring) (api : nat -> ApiOutcome) :
  let run := analyzeLectureContent JSON_parse numberToString api in
  let attempt := runAttempt JSON_parse numberToString api in
  1 <= calls run <= MAX_RETRIES
  /\ (forall d, attempt 1 = Ok d -> calls run = 1 /\ outcome run = Ok d)
  /\ (forall e1, attempt 1 = Throw e1 ->
        calls run = 2
        /\ outcome run = match attempt 2 with
                         | Ok d => Ok d
                         | Throw e2 => Throw (Error (finalMessage e2))
                         end)
  /\ (forall e, outcome run = Throw e ->
        message e <> []
        /\ exists e1 e2,
            attempt 1 = Throw e1 /\ attempt 2 = Throw e2
            /\ message e = match message e2 with
                           | [] => str "Failed to analyze content"
                           | _ :: _ => message e2
                           end).
Proof.
  intros run attempt. unfold run, analyzeLectureContent, MAX_RETRIES.
  cbn [retryLoop Nat.add]. unfold MAX_RETRIES. cbn [Nat.eqb]. fold attempt.
  destruct (attempt 1) as [d1|e1] eqn:E1; cbn [calls outcome].
  - split; [lia|]. split; [intros d' H; injection H as <-; auto|].
    split; [intros e H; discriminate|]. intros e H; discriminate.
  - destruct (attempt 2) as [d2|e2] eqn:E2; cbn [calls outcome].
    + split; [lia|]. split; [intros d' H; discriminate|].
      split; [intros e H; auto|]. intros e H; discriminate.
    + split; [lia|]. split; [intros d' H; discriminate|].
      split; [intros e H; auto|]. intros e H. injection H as <-.
      cbn [message]. split; [apply finalMessage_nonempty|].
      exists e1, e2. auto.
Qed.

Example analyze_network_down :
  let run := analyzeLectureContent (fun _ => Throw (Error (str "Unexpected token")))
               (fun _ => [])
               (fun _ => ApiThrows (Error (str "Failed to fetch"))) in
  calls run = 2 /\ outcome run = Throw (Error (str "Failed to fetch")).
Proof. split; reflexivity. Qed.

Example analyze_second_attempt_succeeds :
  let run := analyzeLectureContent (parseOnly responseIndex7 valueIndex7)
               (fun _ => [])
               (fun n => if n =? 1 then ApiResponds None
                         else ApiResponds (Some responseIndex7)) in
  calls run = 2
  /\ outcome run = Ok {| data := valueIndex7;
                         deliveredQuizzes := [quizIndex7];
                         deliveredFlashcards := [] |}.
Proof. split; vm_compute; reflexivity. Qed.

(* --------------------------------------------------------------------- *)
(** ** The normalisation cascade *)
(* --------------------------------------------------------------------- *)

Lemma afterKey_absent (key s : jsstring) :
  startsWith (quoted key) s = false -> afterKey key s = None.
Proof. intros H. unfold afterKey, literal. fold (quoted key). now rewrite H. Qed.


Lemma matchAllFrom_absent {A : Type} (key : jsstring)
  (k : jsstring -> option (A * jsstring)) (s : jsstring) :
  includes (quoted key) s = false ->
  forall skip, matchAllFrom (fun s' => obind (afterKey key s') k) skip s = [].
Proof.
  induction s as [|c s IH]; intros H skip; [reflexivity|].
  cbn [includes] in H. apply orb_false_iff in H as [H1 H2].
  cbn [matchAllFrom]. destruct skip; [|now apply IH].
  rewrite (afterKey_absent key (c :: s) H1). cbn [obind]. now apply IH.
Qed.

Example fallbackExtraction_partial :
  let text := strq "Sorry, truncated: {'summary': 'Cells divide.', 'flashcards': [{'front': 'Mitosis', 'back': 'Division'}, {'fro" in
  fallbackExtraction text
  = {| title := str "Untitled Analysis";
       summary := str "Cells divide.";
       keyPoints := [str "Analysis completed partially."];
       flashcards := [{| front := str "Mitosis"; back := str "Division" |}];
       quizzes := [] |}.
Proof. vm_compute. reflexivity. Qed.

(* --------------------------------------------------------------------- *)
(** ** Moving a material between subjects *)
(* --------------------------------------------------------------------- *)

Lemma jsstring_eqb_refl (a : jsstring) : jsstring_eqb a a = true.
Proof. induction a as [|x a IH]; simpl; [reflexivity|]. now rewrite N.eqb_refl. Qed.

Lemma jsstring_eqb_neq (a b : jsstring) : a <> b -> jsstring_eqb a b = false.
Proof.
  intros H. destruct (jsstring_eqb a b) eqn:E; [|reflexivity].
  apply jsstring_eqb_eq in E. contradiction.
Qed.

Lemma NoDup_app_disjoint {A : Type} (l l' : list A) (a : A) :
  NoDup (l ++ l') -> In a l -> In a l' -> False.
Proof.
  induction l as [|x l IH]; simpl; [tauto|].
  intros H [->|Ha] Ha'.
  - inversion H as [|? ? Hx _]; subst. apply Hx, in_or_app. now right.
  - inversion H; subst. now apply IH.
Qed.

Lemma find_absent (mid : jsstring) (l : list SavedMaterial) :
  ~ In mid (map materialId l) ->
  find (fun x => jsstring_eqb (materialId x) mid) l = None.
Proof.
  induction l as [|x l IH]; simpl; [reflexivity|]. intros H.
  rewrite jsstring_eqb_neq by tauto. apply IH. tauto.
Qed.

Lemma find_unique (m : SavedMaterial) (l : list SavedMaterial) :
  NoDup (map materialId l) -> In m l ->
  find (fun x => jsstring_eqb (materialId x) (materialId m)) l = Some m.
Proof.
  induction l as [|x l IH]; simpl; [tauto|].
  intros H [->|Hm].
  - now rewrite jsstring_eqb_refl.
  - inversion H as [|? ? Hx Hl]; subst.
    rewrite jsstring_eqb_neq; [now apply IH|].
    intros E. apply Hx. rewrite E. now apply in_map.
Qed.

Lemma allMaterials_cons (sub : Subject) (subs : list Subject) :
  allMaterials (sub :: subs) = materials sub ++ allMaterials subs.
Proof. reflexivity. Qed.

Lemma allMaterials_app (a b : list Subject) :
  allMaterials (a ++ b) = allMaterials a ++ allMaterials b.
Proof. unfold allMaterials. now rewrite map_app, concat_app. Qed.

Lemma In_allMaterials (m : SavedMaterial) (s : Subject) (subs : list Subject) :
  In s subs -> In m (materials s) -> In m (allMaterials subs).
Proof.
  intros Hs Hm. unfold allMaterials. apply in_concat.
  exists (materials s). split; [now apply in_map|assumption].
Qed.

Lemma findSource_owner (m : SavedMaterial) (s : Subject) (subs : list Subject) :
  NoDup (map materialId (allMaterials subs)) ->
  In s subs -> In m (materials s) ->
  findSource (materialId m) subs = Some (m, subjectId s).
Proof.
  induction subs as [|sub subs IH]; [contradiction|].
  rewrite allMaterials_cons, map_app. intros Hnd Hs Hm. simpl.
  destruct Hs as [->|Hs].
  - rewrite (find_unique m (materials s)); [reflexivity| |assumption].
    eapply NoDup_app_remove_r, Hnd.
  - rewrite find_absent.
    + apply IH; [eapply NoDup_app_remove_l, Hnd|assumption|assumption].
    + intros Hin. eapply (NoDup_app_disjoint _ _ _ Hnd Hin).
      apply in_map. eapply In_allMaterials; eassumption.
Qed.

Lemma filter_removes (m : SavedMaterial) (l1 l2 : list SavedMaterial) :
  NoDup (map materialId (l1 ++ m :: l2)) ->
  filter (fun x => negb (jsstring_eqb (materialId x) (materialId m)))
         (l1 ++ m :: l2)
  = l1 ++ l2.
Proof.
  intros Hnd.
  assert (Hkeep : forall l, ~ In (materialId m) (map materialId l) ->
            filter (fun x => negb (jsstring_eqb (materialId x) (materialId m))) l = l).
  { induction l as [|x l IH]; simpl; [reflexivity|]. intros H.
    rewrite jsstring_eqb_neq by tauto. simpl. f_equal. apply IH. tauto. }
  rewrite map_app in Hnd. simpl in Hnd.
  rewrite filter_app. simpl. rewrite jsstring_eqb_refl. simpl.
  apply NoDup_remove_2 in Hnd.
  rewrite !Hkeep; [reflexivity| |];
    intros H; apply Hnd, in_or_app; auto.
Qed.

Lemma moveStep_other (mid src tgt : jsstring) (m : SavedMaterial)
  (l : list Subject) :
  ~ In src (map subjectId l) -> ~ In tgt (map subjectId l) ->
  map (moveStep mid src tgt m) l = l.
Proof.
  induction l as [|u l IH]; simpl; [reflexivity|]. intros Hs Ht.
  unfold moveStep at 1.
  rewrite (jsstring_eqb_neq (subjectId u) src) by tauto.
  rewrite (jsstring_eqb_neq (subjectId u) tgt) by tauto.
  f_equal. apply IH; tauto.
Qed.

Lemma moveMaterial_steps (m : SavedMaterial) (s : Subject) (tgt : jsstring)
  (subs : list Subject) :
  wellFormed subs -> In s subs -> In m (materials s) ->
  subjectId s <> tgt ->
  moveMaterial (materialId m) tgt subs
  = map (moveStep (materialId m) (subjectId s) tgt m) subs.
Proof.
  intros (_ & Hmat & Hne) Hs Hm Hst. unfold moveMaterial.
  rewrite (findSource_owner m s subs Hmat Hs Hm).
  rewrite Forall_forall in Hne. specialize (Hne s Hs).
  destruct (subjectId s) as [|c sid] eqn:E; [congruence|].
  rewrite jsstring_eqb_neq by assumption. reflexivity.
Qed.

Lemma materialsOf_unique (s : Subject) (subs : list Subject) :
  NoDup (map subjectId subs) -> In s subs ->
  materialsOf (subjectId s) subs = materials s.
Proof.
  induction subs as [|u subs IH]; simpl; [tauto|].
  intros Hnd [->|Hs].
  - now rewrite jsstring_eqb_refl.
  - inversion Hnd as [|? ? Hu Hl]; subst.
    rewrite jsstring_eqb_neq; [now apply IH|].
    intros E. apply Hu. rewrite E. now apply in_map.
Qed.

Lemma occurrences_unique (m : SavedMaterial) (subs : list Subject) :
  NoDup (map materialId (allMaterials subs)) -> In m (allMaterials subs) ->
  occurrences (materialId m) subs = 1.
Proof.
  unfold occurrences. generalize (allMaterials subs). intros l.
  induction l as [|x l IH]; simpl; [tauto|].
  intros Hnd Hm. inversion Hnd as [|? ? Hx Hl]; subst.
  destruct Hm as [->|Hm].
  - rewrite jsstring_eqb_refl. simpl. f_equal.
    clear IH Hnd. induction l as [|y l IH]; simpl; [reflexivity|].
    simpl in Hx. rewrite jsstring_eqb_neq by tauto.
    inversion Hl; subst. apply IH; tauto.
  - rewrite jsstring_eqb_neq; [now apply IH|].
    intros E. apply Hx. rewrite E. now apply in_map.
Qed.

Lemma materials_NoDup (s : Subject) (subs : list Subject) :
  NoDup (map materialId (allMaterials subs)) -> In s subs ->
  NoDup (map materialId (materials s)).
Proof.
  intros Hnd Hs. apply in_split in Hs as (X & Y & ->).
  rewrite allMaterials_app, allMaterials_cons, !map_app in Hnd.
  eapply NoDup_app_remove_r, NoDup_app_remove_l, Hnd.
Qed.

Lemma moveStep_source (m : SavedMaterial) (s : Subject) (tgt : jsstring)
  (l1 l2 : list SavedMaterial) :
  materials s = l1 ++ m :: l2 -> NoDup (map materialId (materials s)) ->
  moveStep (materialId m) (subjectId s) tgt m s = withMaterials s (l1 ++ l2).
Proof.
  intros E Hnd. unfold moveStep. rewrite jsstring_eqb_refl.
  rewrite E in *. now rewrite filter_removes.
Qed.

Lemma moveStep_target (m : SavedMaterial) (src : jsstring) (t : Subject) :
  subjectId t <> src ->
  moveStep (materialId m) src (subjectId t) m t
  = withMaterials t (m :: materials t).
Proof.
  intros H. unfold moveStep.
  now rewrite (jsstring_eqb_neq _ _ H), jsstring_eqb_refl.
Qed.

Lemma two_positions (s t : Subject) (subs : list Subject) :
  In s subs -> In t subs -> s <> t ->
  exists A B C,
    subs = A ++ s :: B ++ t :: C \/ subs = A ++ t :: B ++ s :: C.
Proof.
  intros Hs Ht Hst. apply in_split in Hs as (A & R & ->).
  apply in_app_or in Ht as [Ht|[Ht|Ht]].
  - apply in_split in Ht as (A1 & A2 & ->).
    exists A1, A2, R. right. now rewrite <- app_assoc.
  - congruence.
  - apply in_split in Ht as (B & C & ->). exists A, B, C. now left.
Qed.

Lemma ids_apart (x y : Subject) (A B C : list Subject) :
  NoDup (map subjectId (A ++ x :: B ++ y :: C)) ->
  (~ In (subjectId x) (map subjectId A)
   /\ ~ In (subjectId x) (map subjectId B)
   /\ ~ In (subjectId x) (map subjectId C))
  /\ (~ In (subjectId y) (map subjectId A)
      /\ ~ In (subjectId y) (map subjectId B)
      /\ ~ In (subjectId y) (map subjectId C))
  /\ subjectId x <> subjectId y.
Proof.
  intros Hnd.
  pose proof Hnd as Hx. rewrite map_app in Hx. simpl in Hx.
  apply NoDup_remove_2 in Hx. rewrite map_app in Hx. simpl in Hx.
  pose proof Hnd as Hy.
  replace (A ++ x :: B ++ y :: C) with ((A ++ x :: B) ++ y :: C) in Hy
    by (rewrite <- app_assoc; reflexivity).
  rewrite map_app in Hy. simpl in Hy. apply NoDup_remove_2 in Hy.
  rewrite map_app in Hy. simpl in Hy.
  repeat split; intros H.
  - apply Hx, in_or_app. now left.
  - apply Hx, in_or_app. right. apply in_or_app. now left.
  - apply Hx, in_or_app. right. apply in_or_app. right. now right.
  - apply Hy, in_or_app. left. apply in_or_app. now left.
  - apply Hy, in_or_app. left. apply in_or_app. right. now right.
  - apply Hy, in_or_app. now right.
  - apply Hx, in_or_app. right. apply in_or_app. right. left. now symmetry.
Qed.

(** The store after a move to another existing subject. *)
Lemma moveMaterial_shape (m : SavedMaterial) (s t : Subject)
  (subs : list Subject) :
  wellFormed subs -> In s subs -> In m (materials s) ->
  In t subs -> subjectId t <> subjectId s ->
  exists A B C l1 l2,
    materials s = l1 ++ m :: l2
    /\ ((subs = A ++ s :: B ++ t :: C
         /\ moveMaterial (materialId m) (subjectId t) subs
            = A ++ withMaterials s (l1 ++ l2)
                :: B ++ withMaterials t (m :: materials t) :: C)
        \/ (subs = A ++ t :: B ++ s :: C
            /\ moveMaterial (materialId m) (subjectId t) subs
               = A ++ withMaterials t (m :: materials t)
                   :: B ++ withMaterials s (l1 ++ l2) :: C)).
Proof.
  intros Hwf Hs Hm Ht Hts.
  rewrite (moveMaterial_steps m s (subjectId t) subs Hwf Hs Hm)
    by (intros E; apply Hts; now symmetry).
  destruct Hwf as (Hids & Hmat & _).
  pose proof (materials_NoDup s subs Hmat Hs) as Hnd.
  destruct (in_split _ _ Hm) as (l1 & l2 & El).
  destruct (two_positions s t subs Hs Ht) as (A & B & C & [E|E]).
  { intros ->. now apply Hts. }
  - exists A, B, C, l1, l2. split; [exact El|]. left. split; [exact E|].
    rewrite E in Hids. apply ids_apart in Hids as ((Ha & Hb & Hc) & (Ha' & Hb' & Hc') & _).
    rewrite E, map_app. cbn [map]. rewrite map_app. cbn [map].
    rewrite !moveStep_other by assumption.
    now rewrite (moveStep_source m s _ l1 l2 El Hnd), (moveStep_target m _ t Hts).
  - exists A, B, C, l1, l2. split; [exact El|]. right. split; [exact E|].
    rewrite E in Hids. apply ids_apart in Hids as ((Ha & Hb & Hc) & (Ha' & Hb' & Hc') & _).
    rewrite E, map_app. cbn [map]. rewrite map_app. cbn [map].
    rewrite !moveStep_other by assumption.
    now rewrite (moveStep_source m s _ l1 l2 El Hnd), (moveStep_target m _ t Hts).
Qed.

(** The store after a move to a subject that does not exist. *)
Lemma moveMaterial_lost_shape (m : SavedMaterial) (s : Subject)
  (tgt : jsstring) (subs : list Subject) :
  wellFormed subs -> In s subs -> In m (materials s) ->
  ~ In tgt (map subjectId subs) ->
  exists A B l1 l2,
    materials s = l1 ++ m :: l2
    /\ subs = A ++ s :: B
    /\ moveMaterial (materialId m) tgt subs
       = A ++ withMaterials s (l1 ++ l2) :: B.
Proof.
  intros Hwf Hs Hm Htgt.
  assert (Hst : subjectId s <> tgt).
  { intros E. apply Htgt. rewrite <- E. now apply in_map. }
  rewrite (moveMaterial_steps m s tgt subs Hwf Hs Hm Hst).
  destruct Hwf as (Hids & Hmat & _).
  pose proof (materials_NoDup s subs Hmat Hs) as Hnd.
  destruct (in_split _ _ Hm) as (l1 & l2 & El).
  destruct (in_split _ _ Hs) as (A & B & E).
  exists A, B, l1, l2. split; [exact El|]. split; [exact E|].
  rewrite E in Hids, Htgt. rewrite map_app in Hids, Htgt. simpl in Hids, Htgt.
  apply NoDup_remove_2 in Hids.
  rewrite E, map_app. cbn [map].
  rewrite !moveStep_other;
    try (intros H; apply Hids, in_or_app; auto; fail);
    try (intros H; apply Htgt, in_or_app; simpl; auto; fail).
  now rewrite (moveStep_source m s _ l1 l2 El Hnd).
Qed.

Lemma perm_source_first {A : Type} (m : A) (X l1 l2 Y Z : list A) :
  Permutation (X ++ (l1 ++ l2) ++ Y ++ m :: Z) (X ++ (l1 ++ m :: l2) ++ Y ++ Z).
Proof.
  apply Permutation_app_head.
  transitivity (m :: (l1 ++ l2) ++ Y ++ Z).
  - rewrite app_assoc. symmetry. rewrite <- app_assoc.
    replace ((l1 ++ l2) ++ Y ++ m :: Z) with (((l1 ++ l2) ++ Y) ++ m :: Z)
      by (now rewrite <- !app_assoc).
    replace (m :: l1 ++ l2 ++ Y ++ Z) with (m :: ((l1 ++ l2) ++ Y) ++ Z)
      by (now rewrite <- !app_assoc).
    apply Permutation_middle.
  - rewrite <- !app_assoc. simpl. apply Permutation_middle.
Qed.

Lemma perm_target_first {A : Type} (m : A) (X Z Y l1 l2 W : list A) :
  Permutation (X ++ (m :: Z) ++ Y ++ (l1 ++ l2) ++ W)
              (X ++ Z ++ Y ++ (l1 ++ m :: l2) ++ W).
Proof.
  apply Permutation_app_head. simpl.
  replace (Z ++ Y ++ (l1 ++ m :: l2) ++ W) with ((Z ++ Y ++ l1) ++ m :: l2 ++ W)
    by (now rewrite <- !app_assoc).
  replace (m :: Z ++ Y ++ (l1 ++ l2) ++ W) with (m :: (Z ++ Y ++ l1) ++ l2 ++ W)
    by (now rewrite <- !app_assoc).
  apply Permutation_middle.
Qed.

Lemma wellFormed_transport (subs subs' : list Subject) :
  wellFormed subs ->
  map subjectId subs' = map subjectId subs ->
  Permutation (allMaterials subs') (allMaterials subs) ->
  wellFormed subs'.
Proof.
  intros (Hids & Hmat & Hne) Eids Hperm. unfold wellFormed.
  split; [|split].
  - now rewrite Eids.
  - eapply Permutation_NoDup; [|exact Hmat].
    symmetry. now apply Permutation_map.
  - rewrite Forall_forall in *. intros u Hu.
    assert (In (subjectId u) (map subjectId subs)) as H
      by (rewrite <- Eids; now apply in_map).
    apply in_map_iff in H as [v [Ev Hv]]. rewrite <- Ev. now apply Hne.
Qed.

(* --------------------------------------------------------------------- *)
(** ** The invariant of the store *)
(* --------------------------------------------------------------------- *)

(** Filtering a list keeps its keys distinct. *)
Lemma filter_keeps_distinct {A K : Type} (key : A -> K) (keep : A -> bool) :
  forall l : list A, NoDup (map key l) -> NoDup (map key (filter keep l)).
Proof.
  intros l Hnd. induction l as [|x l IH]; [exact Hnd|].
  apply NoDup_cons_iff in Hnd as [Hx Hl]. cbn [filter].
  destruct (keep x); [|exact (IH Hl)].
  cbn [map]. apply NoDup_cons; [|exact (IH Hl)].
  intros Hin. apply Hx. apply in_map_iff in Hin as (y & Ey & Hy).
  apply filter_In in Hy as [Hy _]. rewrite <- Ey. now apply in_map.
Qed.

Lemma NoDup_app_shrink {A : Type} (a a' b b' : list A) :
  NoDup (a ++ b) -> NoDup a' -> NoDup b' -> incl a' a -> incl b' b ->
  NoDup (a' ++ b').
Proof.
  intros H Ha' Hb' Ia Ib. apply NoDup_app; try assumption.
  intros x Hx Hx'. eapply (NoDup_app_disjoint a b x H); auto.
Qed.

(** A store whose subjects kept their ids and lost some of their
    materials. *)
Lemma shrink_wellFormed (f : Subject -> Subject) (subs : list Subject) :
  (forall sub, In sub subs ->
     subjectId (f sub) = subjectId sub
     /\ exists p, materials (f sub) = filter p (materials sub)) ->
  wellFormed subs -> wellFormed (map f subs).
Proof.
  intros Hf (Hids & Hmat & Hne).
  assert (Eids : map subjectId (map f subs) = map subjectId subs).
  { rewrite map_map. apply map_ext_in. intros sub Hs. now apply Hf. }
  unfold wellFormed. split; [now rewrite Eids|]. split.
  - clear Hids Hne Eids.
    assert (H : NoDup (map materialId (allMaterials (map f subs)))
                /\ incl (map materialId (allMaterials (map f subs)))
                        (map materialId (allMaterials subs))).
    { induction subs as [|sub subs IH]; [split; [constructor|apply incl_refl]|].
      cbn [map]. rewrite !allMaterials_cons, !map_app in *.
      destruct (Hf sub (or_introl eq_refl)) as [_ [p Ep]].
      destruct IH as [IH1 IH2].
      { intros s Hs. apply Hf. now right. }
      { eapply NoDup_app_remove_l, Hmat. }
      assert (Hinc : incl (map materialId (materials (f sub)))
                          (map materialId (materials sub))).
      { rewrite Ep. intros x Hx. apply in_map_iff in Hx as (y & Ey & Hy).
        apply filter_In in Hy as [Hy _]. rewrite <- Ey. now apply in_map. }
      split.
      - eapply NoDup_app_shrink; [exact Hmat| |exact IH1|exact Hinc|exact IH2].
        rewrite Ep. apply filter_keeps_distinct. eapply NoDup_app_remove_r, Hmat.
      - now apply incl_app_app. }
    apply H.
  - rewrite Forall_forall in *. intros u Hu.
    apply in_map_iff in Hu as (sub & <- & Hs).
    destruct (Hf sub Hs) as [-> _]. now apply Hne.
Qed.

Lemma filter_true {A : Type} (l : list A) : l = filter (fun _ => true) l.
Proof. induction l as [|x l IH]; simpl; [reflexivity|]. now rewrite <- IH. Qed.

Lemma deleteMaterial_wellFormed (sid mid : jsstring) (subs : list Subject) :
  wellFormed subs -> wellFormed (deleteMaterial sid mid subs).
Proof.
  apply shrink_wellFormed. intros sub _.
  destruct (jsstring_eqb (subjectId sub) sid); simpl.
  - split; [reflexivity|]. eauto.
  - split; [reflexivity|]. eexists. apply filter_true.
Qed.

Lemma deleteSubject_wellFormed (sid : jsstring) (subs : list Subject) :
  wellFormed subs -> wellFormed (deleteSubject sid subs).
Proof.
  intros (Hids & Hmat & Hne). unfold deleteSubject, wellFormed.
  split; [now apply filter_keeps_distinct|]. split.
  - clear Hids Hne.
    set (p := fun s => negb (jsstring_eqb (subjectId s) sid)).
    assert (H : NoDup (map materialId (allMaterials (filter p subs)))
                /\ incl (map materialId (allMaterials (filter p subs)))
                        (map materialId (allMaterials subs))).
    { induction subs as [|sub subs IH]; [split; [constructor|apply incl_refl]|].
      rewrite allMaterials_cons, map_app in *.
      destruct IH as [IH1 IH2]; [eapply NoDup_app_remove_l, Hmat|].
      cbn [filter]. destruct (p sub).
      - rewrite allMaterials_cons, map_app. split.
        + eapply NoDup_app_shrink;
            [exact Hmat|eapply NoDup_app_remove_r, Hmat|exact IH1
            |apply incl_refl|exact IH2].
        + apply incl_app_app; [apply incl_refl|exact IH2].
      - split; [exact IH1|]. now apply incl_appr. }
    apply H.
  - rewrite Forall_forall in *. intros u Hu. apply filter_In in Hu as [Hu _].
    now apply Hne.
Qed.

Lemma createSubject_wellFormed (now name col : jsstring) (subs : list Subject) :
  now <> [] -> ~ In now (map subjectId subs) -> wellFormed subs ->
  wellFormed (createSubject {| subjectId := now; subjectName := name;
                               materials := []; color := col |} subs).
Proof.
  intros Hn Hfresh (Hids & Hmat & Hne). unfold createSubject, wellFormed.
  split; [|split].
  - rewrite map_app. simpl. apply NoDup_app; try assumption.
    + repeat constructor. simpl. tauto.
    + intros x Hx [<-|[]]. contradiction.
  - rewrite allMaterials_app. unfold allMaterials at 2. simpl.
    now rewrite app_nil_r.
  - apply Forall_app. split; [assumption|]. repeat constructor. assumption.
Qed.

Lemma addMaterial_other (active : jsstring) (m : SavedMaterial)
  (l : list Subject) :
  ~ In active (map subjectId l) -> addMaterial active m l = l.
Proof.
  unfold addMaterial. induction l as [|u l IH]; simpl; [reflexivity|].
  intros H. rewrite jsstring_eqb_neq by tauto. f_equal. apply IH. tauto.
Qed.

Lemma addMaterial_wellFormed (active : jsstring) (m : SavedMaterial)
  (subs : list Subject) :
  ~ In (materialId m) (map materialId (allMaterials subs)) ->
  wellFormed subs -> wellFormed (addMaterial active m subs).
Proof.
  intros Hfresh Hwf.
  destruct (in_dec (list_eq_dec N.eq_dec) active (map subjectId subs))
    as [Hin|Hout]; [|now rewrite addMaterial_other].
  apply in_map_iff in Hin as (s & <- & Hs).
  apply in_split in Hs as (A & B & E).
  pose proof Hwf as (Hids & Hmat & Hne).
  rewrite E, map_app in Hids. simpl in Hids.
  pose proof (NoDup_remove_2 _ _ _ Hids) as Hs.
  assert (Er : addMaterial (subjectId s) m subs
               = A ++ withMaterials s (m :: materials s) :: B).
  { rewrite E. unfold addMaterial. rewrite map_app. cbn [map].
    rewrite jsstring_eqb_refl.
    fold (addMaterial (subjectId s) m A). fold (addMaterial (subjectId s) m B).
    rewrite !addMaterial_other; [reflexivity| |];
      intros H; apply Hs, in_or_app; auto. }
  rewrite Er. unfold wellFormed. split; [|split].
  - rewrite !map_app. simpl. exact Hids.
  - rewrite allMaterials_app, allMaterials_cons. cbn [withMaterials materials].
    eapply Permutation_NoDup.
    + apply Permutation_map.
      apply (Permutation_middle (allMaterials A) (materials s ++ allMaterials B) m).
    + simpl. constructor.
      * rewrite E, allMaterials_app, allMaterials_cons in Hfresh. exact Hfresh.
      * rewrite E, allMaterials_app, allMaterials_cons in Hmat. exact Hmat.
  - rewrite E in Hne. rewrite Forall_forall in *. intros u Hu.
    apply in_app_or in Hu as [Hu|[<-|Hu]].
    + apply Hne, in_or_app. now left.
    + apply (Hne s), in_or_app. right. now left.
    + apply Hne, in_or_app. right. now right.
Qed.

Lemma findSource_some (mid sid : jsstring) (m : SavedMaterial)
  (subs : list Subject) :
  findSource mid subs = Some (m, sid) ->
  exists s, In s subs /\ In m (materials s)
            /\ materialId m = mid /\ subjectId s = sid.
Proof.
  induction subs as [|sub subs IH]; simpl; [discriminate|].
  destruct (find (fun x => jsstring_eqb (materialId x) mid) (materials sub))
    as [found|] eqn:E.
  - intros [= <- <-]. apply find_some in E as [E1 E2].
    apply jsstring_eqb_eq in E2. exists sub. auto.
  - intros H. destruct (IH H) as (s & Hs & Hm). exists s. tauto.
Qed.

Lemma moveMaterial_existing_target (m : SavedMaterial) (s t : Subject)
  (subs : list Subject) :
  wellFormed subs -> In s subs -> In m (materials s) ->
  In t subs -> subjectId t <> subjectId s ->
  map subjectId (moveMaterial (materialId m) (subjectId t) subs)
  = map subjectId subs
  /\ Permutation (allMaterials (moveMaterial (materialId m) (subjectId t) subs))
                 (allMaterials subs).
Proof.
  intros Hwf Hs Hm Ht Hts.
  destruct (moveMaterial_shape m s t subs Hwf Hs Hm Ht Hts)
    as (A & B & C & l1 & l2 & El & [[E ->]|[E ->]]); rewrite E; split.
  - rewrite !map_app. cbn [map]. rewrite !map_app. reflexivity.
  - rewrite !allMaterials_app, !allMaterials_cons, !allMaterials_app,
      !allMaterials_cons. cbn [withMaterials materials]. rewrite El.
    apply (perm_source_first m).
  - rewrite !map_app. cbn [map]. rewrite !map_app. reflexivity.
  - rewrite !allMaterials_app, !allMaterials_cons, !allMaterials_app,
      !allMaterials_cons. cbn [withMaterials materials]. rewrite El.
    apply (perm_target_first m).
Qed.

Lemma moveMaterial_wellFormed (mid tgt : jsstring) (subs : list Subject) :
  wellFormed subs -> wellFormed (moveMaterial mid tgt subs).
Proof.
  intros Hwf. destruct (findSource mid subs) as [[m sid]|] eqn:Ef;
    [|unfold moveMaterial; now rewrite Ef].
  destruct (findSource_some mid sid m subs Ef) as (s & Hs & Hm & <- & <-).
  destruct (list_eq_dec N.eq_dec (subjectId s) tgt) as [<-|Hst].
  { unfold moveMaterial. rewrite Ef. destruct (subjectId s); [assumption|].
    now rewrite jsstring_eqb_refl. }
  destruct (in_dec (list_eq_dec N.eq_dec) tgt (map subjectId subs))
    as [Hin|Hout].
  - apply in_map_iff in Hin as (t & <- & Ht).
    destruct (moveMaterial_existing_target m s t subs Hwf Hs Hm Ht)
      as [Eids Hperm]; [congruence|].
    exact (wellFormed_transport subs _ Hwf Eids Hperm).
  - rewrite (moveMaterial_steps m s tgt subs Hwf Hs Hm Hst).
    apply shrink_wellFormed; [|assumption].
    intros sub Hsub. unfold moveStep.
    destruct (jsstring_eqb (subjectId sub) (subjectId s)); simpl.
    + split; [reflexivity|]. eauto.
    + rewrite jsstring_eqb_neq.
      * split; [reflexivity|]. eexists. apply filter_true.
      * intros E. apply Hout. rewrite <- E. now apply in_map.
Qed.

Lemma initialSubjects_wellFormed : wellFormed initialSubjects.
Proof.
  unfold wellFormed. split; [|split].
  - repeat constructor; simpl; intuition discriminate.
  - constructor.
  - repeat constructor; discriminate.
Qed.

(** X1: the invariant of the subject store.  Every store reached from the
    two initial subjects by the updaters that App.tsx passes to setSubjects
    (creating a subject, deleting a subject, deleting a material, moving a
    material, saving a new material), with any arguments and with fresh
    ids from the clock, is well formed: no two subjects share an id, no two
    materials share an id, and no subject id is the empty string. *)
Lemma reachable_wellFormed (subs : list Subject) :
  reachable subs -> wellFormed subs.
Proof.
  induction 1 as [|prev next _ IH Hu]; [apply initialSubjects_wellFormed|].
  destruct Hu.
  - now apply createSubject_wellFormed.
  - now apply deleteSubject_wellFormed.
  - now apply deleteMaterial_wellFormed.
  - now apply moveMaterial_wellFormed.
  - now apply addMaterial_wellFormed.
Qed.

(** C7: in a store where identifiers identify, as in every store the
    application reaches, moving a material to the subject that holds it
    changes nothing; moving it to another subject of the store takes it
    out of the list of its subject and puts it at the head of the list of
    the target, leaves every other subject as it is, and leaves the
    material in the store exactly once. *)
Theorem handleMoveMaterial_transfers (st : AppState) (s : Subject)
  (m : SavedMaterial) :
  wellFormed (subjects st) -> In s (subjects st) -> In m (materials s) ->
  subjects (handleMoveMaterial (materialId m) (subjectId s) st) = subjects st
  /\ forall t, In t (subjects st) -> subjectId t <> subjectId s ->
       let result := subjects (handleMoveMaterial (materialId m) (subjectId t) st) in
       (exists l1 l2, materials s = l1 ++ m :: l2
                      /\ materialsOf (subjectId s) result = l1 ++ l2)
       /\ materialsOf (subjectId t) result = m :: materials t
       /\ (forall u, In u (subjects st) -> subjectId u <> subjectId s ->
                     subjectId u <> subjectId t -> In u result)
       /\ map subjectId result = map subjectId (subjects st)
       /\ occurrences (materialId m) result = 1
       /\ Permutation (allMaterials result) (allMaterials (subjects st))
       /\ wellFormed result.
Proof.
  intros Hwf Hs Hm. cbn [handleMoveMaterial subjects]. split.
  - unfold moveMaterial. destruct Hwf as (_ & Hmat & Hne).
    rewrite (findSource_owner m s _ Hmat Hs Hm).
    destruct (subjectId s); [reflexivity|]. now rewrite jsstring_eqb_refl.
  - intros t Ht Hts. cbv zeta. cbn [handleMoveMaterial subjects].
    destruct (moveMaterial_existing_target m s t _ Hwf Hs Hm Ht Hts)
      as [Eids Hperm].
    pose proof (wellFormed_transport _ _ Hwf Eids Hperm) as Hwf'.
    pose proof Hwf' as (Hids' & Hmat' & Hne').
    assert (Hocc : occurrences (materialId m)
                     (moveMaterial (materialId m) (subjectId t) (subjects st)) = 1).
    { apply occurrences_unique; [assumption|].
      eapply Permutation_in; [symmetry; exact Hperm|].
      exact (In_allMaterials m s _ Hs Hm). }
    destruct (moveMaterial_shape m s t _ Hwf Hs Hm Ht Hts)
      as (A & B & C & l1 & l2 & El & [[E Er]|[E Er]]);
      rewrite Er in *; clear Er;
      (split; [|split; [|split; [|repeat split; assumption]]]).
    + exists l1, l2. split; [exact El|].
      apply (materialsOf_unique (withMaterials s (l1 ++ l2))); [assumption|].
      apply in_or_app. right. now left.
    + apply (materialsOf_unique (withMaterials t (m :: materials t)));
        [assumption|].
      apply in_or_app. right. right. apply in_or_app. right. now left.
    + intros u Hu Hus Hut. rewrite E in Hu.
      apply in_app_or in Hu as [Hu|[->|Hu]]; [|congruence|].
      { apply in_or_app. now left. }
      apply in_app_or in Hu as [Hu|[->|Hu]]; [|congruence|].
      { apply in_or_app. right. right. apply in_or_app. now left. }
      apply in_or_app. right. right. apply in_or_app. right. now right.
    + exists l1, l2. split; [exact El|].
      apply (materialsOf_unique (withMaterials s (l1 ++ l2))); [assumption|].
      apply in_or_app. right. right. apply in_or_app. right. now left.
    + apply (materialsOf_unique (withMaterials t (m :: materials t)));
        [assumption|].
      apply in_or_app. right. now left.
    + intros u Hu Hus Hut. rewrite E in Hu.
      apply in_app_or in Hu as [Hu|[->|Hu]]; [|congruence|].
      { apply in_or_app. now left. }
      apply in_app_or in Hu as [Hu|[->|Hu]]; [|congruence|].
      { apply in_or_app. right. right. apply in_or_app. now left. }
      apply in_or_app. right. right. apply in_or_app. right. now right.
Qed.

Lemma sampleState_wellFormed : wellFormed (subjects sampleState).
Proof.
  unfold wellFormed. split; [|split].
  - repeat constructor; simpl; intuition discriminate.
  - repeat constructor; simpl; intuition discriminate.
  - repeat constructor; discriminate.
Qed.

Lemma handleMoveMaterial_transfers_witness :
  subjects (handleMoveMaterial (str "m1") (str "1") sampleState)
  = subjects sampleState
  /\ forall t, In t (subjects sampleState) -> subjectId t <> subjectId biology ->
       let result :=
         subjects (handleMoveMaterial (str "m1") (subjectId t) sampleState) in
       (exists l1 l2, materials biology = l1 ++ material "m1" :: l2
                      /\ materialsOf (subjectId biology) result = l1 ++ l2)
       /\ materialsOf (subjectId t) result = material "m1" :: materials t
       /\ (forall u, In u (subjects sampleState) ->
                     subjectId u <> subjectId biology ->
                     subjectId u <> subjectId t -> In u result)
       /\ map subjectId result = map subjectId (subjects sampleState)
       /\ occurrences (str "m1") result = 1
       /\ Permutation (allMaterials result) (allMaterials (subjects sampleState))
       /\ wellFormed result.
Proof.
  apply (handleMoveMaterial_transfers sampleState biology (material "m1")).
  - exact sampleState_wellFormed.
  - simpl. auto.
  - simpl. auto.
Defined.

Example handleMoveMaterial_example :
  subjects (handleMoveMaterial (str "m1") (str "2") sampleState)
  = [withMaterials biology [material "m2"];
     withMaterials artHistory [material "m1"; material "m3"]].
Proof. reflexivity. Qed.

Lemma occurrences_absent (mid : jsstring) (subs : list Subject) :
  ~ In mid (map materialId (allMaterials subs)) -> occurrences mid subs = 0.
Proof.
  unfold occurrences. generalize (allMaterials subs). intros l.
  induction l as [|x l IH]; simpl; [reflexivity|]. intros H.
  rewrite jsstring_eqb_neq by tauto. apply IH. tauto.
Qed.

(** C10: in a store where identifiers identify, as in every store the
    application reaches, moving a material to a subject id that no subject
    has takes the material out of its subject and puts it nowhere: the
    store holds one material less and the id of the material no longer
    occurs in it; the subjects other than the source are as they were. *)
Theorem handleMoveMaterial_unknown_target_loses (st : AppState) (s : Subject)
  (m : SavedMaterial) (tgt : jsstring) :
  wellFormed (subjects st) -> In s (subjects st) -> In m (materials s) ->
  ~ In tgt (map subjectId (subjects st)) ->
  let result := subjects (handleMoveMaterial (materialId m) tgt st) in
  (exists A B l1 l2,
      materials s = l1 ++ m :: l2
      /\ subjects st = A ++ s :: B
      /\ result = A ++ withMaterials s (l1 ++ l2) :: B)
  /\ List.length (allMaterials result) + 1
     = List.length (allMaterials (subjects st))
  /\ occurrences (materialId m) result = 0
  /\ (forall u, In u (subjects st) -> subjectId u <> subjectId s -> In u result)
  /\ map subjectId result = map subjectId (subjects st).
Proof.
  intros Hwf Hs Hm Htgt. cbv zeta. cbn [handleMoveMaterial subjects].
  destruct (moveMaterial_lost_shape m s tgt _ Hwf Hs Hm Htgt)
    as (A & B & l1 & l2 & El & E & Er).
  rewrite Er. destruct Hwf as (_ & Hmat & _).
  split; [exists A, B, l1, l2; auto|]. split; [|split; [|split]].
  - rewrite E, !allMaterials_app, !allMaterials_cons.
    cbn [withMaterials materials]. rewrite El, !length_app. simpl. lia.
  - apply occurrences_absent.
    rewrite E, allMaterials_app, allMaterials_cons, El in Hmat.
    rewrite allMaterials_app, allMaterials_cons. cbn [withMaterials materials].
    replace (allMaterials A ++ (l1 ++ m :: l2) ++ allMaterials B)
      with ((allMaterials A ++ l1) ++ m :: l2 ++ allMaterials B) in Hmat
      by (now rewrite <- !app_assoc).
    rewrite map_app in Hmat. simpl in Hmat. apply NoDup_remove_2 in Hmat.
    rewrite <- map_app in Hmat.
    rewrite <- !app_assoc in Hmat. now rewrite <- !app_assoc.
  - intros u Hu Hus. rewrite E in Hu.
    apply in_app_or in Hu as [Hu|[->|Hu]]; [|congruence|].
    + apply in_or_app. now left.
    + apply in_or_app. right. now right.
  - rewrite E, !map_app. reflexivity.
Qed.

Lemma handleMoveMaterial_unknown_target_loses_witness :
  let result := subjects (handleMoveMaterial (str "m1") (str "99") sampleState) in
  (exists A B l1 l2,
      materials biology = l1 ++ material "m1" :: l2
      /\ subjects sampleState = A ++ biology :: B
      /\ result = A ++ withMaterials biology (l1 ++ l2) :: B)
  /\ List.length (allMaterials result) + 1
     = List.length (allMaterials (subjects sampleState))
  /\ occurrences (str "m1") result = 0
  /\ (forall u, In u (subjects sampleState) ->
                subjectId u <> subjectId biology -> In u result)
  /\ map subjectId result = map subjectId (subjects sampleState).
Proof.
  apply (handleMoveMaterial_unknown_target_loses sampleState biology
           (material "m1") (str "99")).
  - exact sampleState_wellFormed.
  - simpl. auto.
  - simpl. auto.
  - simpl. intuition discriminate.
Defined.

Example handleMoveMaterial_unknown_target_example :
  subjects (handleMoveMaterial (str "m1") (str "99") sampleState)
  = [withMaterials biology [material "m2"]; artHistory].
Proof. reflexivity. Qed.

(* --------------------------------------------------------------------- *)
(** ** A store the application reaches *)
(* --------------------------------------------------------------------- *)

Lemma reachable_wellFormed_witness :
  wellFormed
    (addMaterial (str "1") (material "m1")
       (createSubject {| subjectId := str "1700000000000";
                         subjectName := str "Physics";
                         materials := []; color := str "bg-blue-500" |}
          initialSubjects)).
Proof.
  apply (reachable_wellFormed
           (addMaterial (str "1") (material "m1")
              (createSubject {| subjectId := str "1700000000000";
                                subjectName := str "Physics";
                                materials := []; color := str "bg-blue-500" |}
                 initialSubjects))).
  apply (reachable_update
           (createSubject {| subjectId := str "1700000000000";
                             subjectName := str "Physics";
                             materials := []; color := str "bg-blue-500" |}
              initialSubjects)).
  - apply (reachable_update initialSubjects).
    + exact reachable_initial.
    + apply update_create.
      * discriminate.
      * simpl. intuition discriminate.
  - apply update_add. simpl. intuition.
Defined.

(* --------------------------------------------------------------------- *)
(** ** Deleting after the confirmation dialog *)
(* --------------------------------------------------------------------- *)

Lemma find_subject (sid : jsstring) (subs : list Subject) (s : Subject) :
  find (fun x => jsstring_eqb (subjectId x) sid) subs = Some s ->
  In s subs /\ subjectId s = sid.
Proof.
  intros H. apply find_some in H. destruct H as [Hin Heq].
  split; [exact Hin|]. now apply jsstring_eqb_eq.
Qed.

Lemma find_material (mid : jsstring) (l : list SavedMaterial) (m : SavedMaterial) :
  find (fun x => jsstring_eqb (materialId x) mid) l = Some m ->
  In m l /\ materialId m = mid.
Proof.
  intros H. apply find_some in H. destruct H as [Hin Heq].
  split; [exact Hin|]. now apply jsstring_eqb_eq.
Qed.

Lemma split_by_id (s : Subject) (subs : list Subject) :
  NoDup (map subjectId subs) -> In s subs ->
  exists A B, subs = A ++ s :: B
              /\ ~ In (subjectId s) (map subjectId A)
              /\ ~ In (subjectId s) (map subjectId B).
Proof.
  intros Hnd Hin. destruct (in_split _ _ Hin) as [A [B ->]].
  exists A, B. split; [reflexivity|].
  rewrite map_app in Hnd. cbn [map] in Hnd.
  pose proof (NoDup_remove_2 _ _ _ Hnd) as Hout.
  split; intros H; apply Hout; apply in_or_app; auto.
Qed.

Lemma deleteMaterial_absent (sid mid : jsstring) (l : list Subject) :
  ~ In sid (map subjectId l) -> deleteMaterial sid mid l = l.
Proof.
  unfold deleteMaterial. induction l as [|x l IH]; intros H; [reflexivity|].
  cbn [map] in *. rewrite jsstring_eqb_neq by (intros E; apply H; now left).
  f_equal. apply IH. intros Hin. apply H. now right.
Qed.

Lemma deleteSubject_absent (sid : jsstring) (l : list Subject) :
  ~ In sid (map subjectId l) -> deleteSubject sid l = l.
Proof.
  unfold deleteSubject. induction l as [|x l IH]; intros H; [reflexivity|].
  cbn [map filter] in *. rewrite jsstring_eqb_neq by (intros E; apply H; now left).
  cbn [negb]. f_equal. apply IH. intros Hin. apply H. now right.
Qed.

Lemma materialsOf_skip (sid : jsstring) (A B : list Subject) :
  ~ In sid (map subjectId A) -> materialsOf sid (A ++ B) = materialsOf sid B.
Proof.
  induction A as [|x A IH]; intros H; [reflexivity|].
  cbn [app materialsOf map] in *.
  rewrite jsstring_eqb_neq by (intros E; apply H; now left).
  apply IH. intros Hin. apply H. now right.
Qed.

Lemma materialsOf_deleteMaterial_other (sid sid' mid : jsstring)
  (l : list Subject) :
  sid' <> sid ->
  materialsOf sid' (deleteMaterial sid mid l) = materialsOf sid' l.
Proof.
  intros Hne. unfold deleteMaterial.
  induction l as [|x l IH]; [reflexivity|]. cbn [map materialsOf].
  destruct (jsstring_eqb (subjectId x) sid) eqn:E.
  - apply jsstring_eqb_eq in E. cbn [withMaterials subjectId].
    rewrite !jsstring_eqb_neq by congruence. exact IH.
  - destruct (jsstring_eqb (subjectId x) sid'); [reflexivity|exact IH].
Qed.

Lemma materialsOf_deleteMaterial (sid mid : jsstring) (l : list Subject) :
  materialsOf sid (deleteMaterial sid mid l)
  = filter (fun m => negb (jsstring_eqb (materialId m) mid)) (materialsOf sid l).
Proof.
  unfold deleteMaterial. induction l as [|x l IH]; [reflexivity|].
  cbn [map materialsOf].
  destruct (jsstring_eqb (subjectId x) sid) eqn:E.
  - cbn [withMaterials subjectId materials]. now rewrite E.
  - rewrite E. exact IH.
Qed.

Lemma deleteMaterial_ids (sid mid : jsstring) (l : list Subject) :
  map subjectId (deleteMaterial sid mid l) = map subjectId l.
Proof.
  unfold deleteMaterial. rewrite map_map. apply map_ext. intros x.
  now destruct (jsstring_eqb (subjectId x) sid).
Qed.

Lemma occurrences_absent_after (mid : jsstring) (subs : list Subject) :
  ~ In mid (map materialId (allMaterials subs)) -> occurrences mid subs = 0.
Proof.
  unfold occurrences. induction (allMaterials subs) as [|x l IH]; intros H;
    [reflexivity|].
  cbn [map filter] in *. rewrite jsstring_eqb_neq by (intros E; apply H; now left).
  apply IH. intros Hin. apply H. now right.
Qed.

(** X2: a material deletion that the dialog confirms removes exactly the
    material the dialog was opened for.  If handleDeleteMaterial opened the
    dialog for the subject id [sid] and the material id [mid] (not the
    empty string) on a store in which identifiers identify, then
    executeDelete takes that one material out of that subject, keeps the
    order of the others, leaves every other subject as it is, leaves no
    material with this id in the store, keeps the invariant, and returns to
    the dashboard exactly when the deleted material was the one on
    display. *)
Theorem executeDelete_removes_material (st : AppState) (sid mid : jsstring)
  (c : DeleteConfirmation) :
  wellFormed (subjects st) ->
  mid <> [] ->
  handleDeleteMaterial (subjects st) sid mid = Some c ->
  let st' := executeDelete (Some c) st in
  exists s m l1 l2,
    In s (subjects st) /\ subjectId s = sid /\ materialId m = mid
    /\ confirmTitle c = materialTitle m
    /\ materials s = l1 ++ m :: l2
    /\ materialsOf sid (subjects st') = l1 ++ l2
    /\ (forall sid', sid' <> sid ->
          materialsOf sid' (subjects st') = materialsOf sid' (subjects st))
    /\ map subjectId (subjects st') = map subjectId (subjects st)
    /\ Permutation (m :: allMaterials (subjects st')) (allMaterials (subjects st))
    /\ occurrences mid (subjects st') = 0
    /\ wellFormed (subjects st')
    /\ activeSubjectId st' = activeSubjectId st
    /\ (forall cm, currentMaterial st = Some cm -> materialId cm = mid ->
          currentMaterial st' = None /\ currentView st' = ViewDashboard)
    /\ ((forall cm, currentMaterial st = Some cm -> materialId cm <> mid) ->
          currentMaterial st' = currentMaterial st
          /\ currentView st' = currentView st).
Proof.
  intros Hwf Hmid Hc st'.
  unfold handleDeleteMaterial in Hc.
  destruct (find (fun s => jsstring_eqb (subjectId s) sid) (subjects st))
    as [s|] eqn:Es; [|discriminate].
  destruct (find (fun m => jsstring_eqb (materialId m) mid) (materials s))
    as [m|] eqn:Em; [|discriminate].
  injection Hc as <-.
  destruct (find_subject _ _ _ Es) as [Hs Hsid].
  destruct (find_material _ _ _ Em) as [Hm Hmm].
  destruct Hwf as [Hids [Hmids Hne]].
  destruct (in_split _ _ Hm) as [l1 [l2 Hl]].
  assert (Hsubs : subjects st' = deleteMaterial sid mid (subjects st)).
  { unfold st', executeDelete. cbn [confirmType confirmMaterialId confirmSubjectId].
    destruct mid as [|ch rest]; [congruence|]. reflexivity. }
  assert (Hwf' : wellFormed (subjects st')).
  { rewrite Hsubs. apply deleteMaterial_wellFormed. repeat split; assumption. }
  pose proof (materials_NoDup s (subjects st) Hmids Hs) as Hnd.
  assert (Hof : materialsOf sid (subjects st') = l1 ++ l2).
  { rewrite Hsubs, materialsOf_deleteMaterial, <- Hsid.
    rewrite (materialsOf_unique s (subjects st) Hids Hs), Hl, <- Hmm.
    apply filter_removes. now rewrite <- Hl. }
  assert (Hperm : Permutation (m :: allMaterials (subjects st'))
                              (allMaterials (subjects st))).
  { rewrite Hsubs.
    destruct (split_by_id s (subjects st) Hids Hs) as [A [B [HAB [HA HB]]]].
    rewrite Hsid in HA, HB. rewrite HAB.
    unfold deleteMaterial. rewrite map_app. cbn [map].
    fold (deleteMaterial sid mid A). fold (deleteMaterial sid mid B).
    rewrite (deleteMaterial_absent sid mid A HA),
            (deleteMaterial_absent sid mid B HB).
    rewrite <- Hsid at 1. rewrite jsstring_eqb_refl.
    rewrite !allMaterials_app, !allMaterials_cons. cbn [withMaterials materials].
    rewrite Hl, <- Hmm, filter_removes by (now rewrite <- Hl).
    rewrite <- !app_assoc. cbn [app].
    rewrite (app_assoc (allMaterials A) l1 (m :: l2 ++ allMaterials B)).
    apply Permutation_cons_app. rewrite <- app_assoc.
    apply Permutation_refl. }
  exists s, m, l1, l2.
  split; [exact Hs|]. split; [exact Hsid|]. split; [exact Hmm|].
  split; [reflexivity|]. split; [exact Hl|]. split; [exact Hof|].
  split; [intros sid' Hd; rewrite Hsubs;
          now apply materialsOf_deleteMaterial_other|].
  split; [rewrite Hsubs; apply deleteMaterial_ids|].
  split; [exact Hperm|].
  split.
  { apply occurrences_absent_after. intros Hin.
    assert (Hnd2 : NoDup (map materialId (m :: allMaterials (subjects st')))).
    { apply (Permutation_NoDup (l := map materialId (allMaterials (subjects st)))).
      - apply Permutation_map. now apply Permutation_sym.
      - exact Hmids. }
    cbn [map] in Hnd2. apply NoDup_cons_iff in Hnd2. apply (proj1 Hnd2).
    now rewrite Hmm. }
  split; [exact Hwf'|].
  unfold st', executeDelete. cbn [confirmType confirmMaterialId confirmSubjectId].
  destruct mid as [|ch rest]; [congruence|]. cbn [activeSubjectId].
  split; [reflexivity|]. split.
  - intros cm Hcm Hid. rewrite Hcm. cbn [currentMaterial currentView].
    rewrite Hid, jsstring_eqb_refl. split; reflexivity.
  - intros Hother. cbn [currentMaterial currentView].
    destruct (currentMaterial st) as [cm|] eqn:Ecm; [|split; reflexivity].
    rewrite jsstring_eqb_neq by (now apply Hother). split; reflexivity.
Qed.

Lemma executeDelete_removes_material_witness :
  let c := {| confirmType := DeleteOfMaterial;
              confirmSubjectId := str "1";
              confirmMaterialId := Some (str "m1");
              confirmTitle := str "Lecture" |} in
  let st' := executeDelete (Some c) sampleState in
  exists s m l1 l2,
    In s (subjects sampleState) /\ subjectId s = str "1"
    /\ materialId m = str "m1"
    /\ confirmTitle c = materialTitle m
    /\ materials s = l1 ++ m :: l2
    /\ materialsOf (str "1") (subjects st') = l1 ++ l2
    /\ (forall sid', sid' <> str "1" ->
          materialsOf sid' (subjects st') = materialsOf sid' (subjects sampleState))
    /\ map subjectId (subjects st') = map subjectId (subjects sampleState)
    /\ Permutation (m :: allMaterials (subjects st'))
                   (allMaterials (subjects sampleState))
    /\ occurrences (str "m1") (subjects st') = 0
    /\ wellFormed (subjects st')
    /\ activeSubjectId st' = activeSubjectId sampleState
    /\ (forall cm, currentMaterial sampleState = Some cm ->
          materialId cm = str "m1" ->
          currentMaterial st' = None /\ currentView st' = ViewDashboard)
    /\ ((forall cm, currentMaterial sampleState = Some cm ->
           materialId cm <> str "m1") ->
          currentMaterial st' = currentMaterial sampleState
          /\ currentView st' = currentView sampleState).
Proof.
  intros c. apply (executeDelete_removes_material sampleState (str "1") (str "m1") c).
  - exact sampleState_wellFormed.
  - discriminate.
  - reflexivity.
Defined.

(** X3: a subject deletion that the dialog confirms removes exactly that
    subject, with all its materials.  If handleDeleteSubject opened the
    dialog for [sid] on a store in which identifiers identify, then
    executeDelete takes the one subject with this id out of the list, keeps
    the other subjects and their order, and the materials left are those of
    the other subjects; the active subject is reset, and the dashboard
    shown, exactly when the deleted subject was the active one. *)
Theorem executeDelete_removes_subject (st : AppState) (sid : jsstring)
  (c : DeleteConfirmation) :
  wellFormed (subjects st) ->
  handleDeleteSubject (subjects st) sid = Some c ->
  let st' := executeDelete (Some c) st in
  exists s A B,
    subjectId s = sid
    /\ confirmTitle c = subjectName s
    /\ subjects st = A ++ s :: B
    /\ subjects st' = A ++ B
    /\ ~ In sid (map subjectId (subjects st'))
    /\ Permutation (materials s ++ allMaterials (subjects st'))
                   (allMaterials (subjects st))
    /\ wellFormed (subjects st')
    /\ currentMaterial st' = currentMaterial st
    /\ (activeSubjectId st = Some sid ->
          activeSubjectId st' = None /\ currentView st' = ViewDashboard)
    /\ (activeSubjectId st <> Some sid ->
          activeSubjectId st' = activeSubjectId st
          /\ currentView st' = currentView st).
Proof.
  intros Hwf Hc st'. unfold handleDeleteSubject in Hc.
  destruct (find (fun s => jsstring_eqb (subjectId s) sid) (subjects st))
    as [s|] eqn:Es; [|discriminate].
  injection Hc as <-.
  destruct (find_subject _ _ _ Es) as [Hs Hsid].
  pose proof Hwf as [Hids [Hmids Hne]].
  destruct (split_by_id s (subjects st) Hids Hs) as [A [B [HAB [HA HB]]]].
  rewrite Hsid in HA, HB.
  assert (Hsubs : subjects st' = A ++ B).
  { unfold st', executeDelete. cbn [confirmType confirmSubjectId subjects].
    rewrite HAB. unfold deleteSubject. rewrite filter_app. cbn [filter].
    rewrite Hsid, jsstring_eqb_refl. cbn [negb].
    fold (deleteSubject sid A). fold (deleteSubject sid B).
    now rewrite (deleteSubject_absent sid A HA), (deleteSubject_absent sid B HB). }
  exists s, A, B.
  split; [exact Hsid|]. split; [reflexivity|]. split; [exact HAB|].
  split; [exact Hsubs|].
  split.
  { rewrite Hsubs, map_app. intros Hin. apply in_app_or in Hin. tauto. }
  split.
  { rewrite Hsubs, HAB, !allMaterials_app, allMaterials_cons.
    rewrite app_assoc.
    apply Permutation_trans
      with (l' := (allMaterials A ++ materials s) ++ allMaterials B).
    - apply Permutation_app_tail. apply Permutation_app_comm.
    - now rewrite <- app_assoc. }
  split.
  { assert (E : subjects st' = deleteSubject sid (subjects st)) by reflexivity.
    rewrite E. now apply deleteSubject_wellFormed. }
  unfold st', executeDelete.
  cbn [confirmType confirmSubjectId currentMaterial activeSubjectId currentView].
  split; [reflexivity|]. split.
  - intros Ha. rewrite Ha, jsstring_eqb_refl. split; reflexivity.
  - intros Ha. destruct (activeSubjectId st) as [a|] eqn:Ea; [|split; reflexivity].
    rewrite jsstring_eqb_neq by congruence. split; reflexivity.
Qed.

Lemma executeDelete_removes_subject_witness :
  let c := {| confirmType := DeleteOfSubject;
              confirmSubjectId := str "2";
              confirmMaterialId := None;
              confirmTitle := str "Art History" |} in
  let st' := executeDelete (Some c) sampleState in
  exists s A B,
    subjectId s = str "2"
    /\ confirmTitle c = subjectName s
    /\ subjects sampleState = A ++ s :: B
    /\ subjects st' = A ++ B
    /\ ~ In (str "2") (map subjectId (subjects st'))
    /\ Permutation (materials s ++ allMaterials (subjects st'))
                   (allMaterials (subjects sampleState))
    /\ wellFormed (subjects st')
    /\ currentMaterial st' = currentMaterial sampleState
    /\ (activeSubjectId sampleState = Some (str "2") ->
          activeSubjectId st' = None /\ currentView st' = ViewDashboard)
    /\ (activeSubjectId sampleState <> Some (str "2") ->
          activeSubjectId st' = activeSubjectId sampleState
          /\ currentView st' = currentView sampleState).
Proof.
  intros c. apply (executeDelete_removes_subject sampleState (str "2") c).
  - exact sampleState_wellFormed.
  - reflexivity.
Defined.

(* --------------------------------------------------------------------- *)
(** ** Moves issued from the dashboard *)
(* --------------------------------------------------------------------- *)

Lemma moveMaterial_source_target (m : SavedMaterial) (s t : Subject)
  (subs : list Subject) :
  wellFormed subs -> In s subs -> In m (materials s) ->
  In t subs -> subjectId t <> subjectId s ->
  let result := moveMaterial (materialId m) (subjectId t) subs in
  materialsOf (subjectId t) result = m :: materials t
  /\ exists l1 l2, materials s = l1 ++ m :: l2
                   /\ materialsOf (subjectId s) result = l1 ++ l2.
Proof.
  intros Hwf Hs Hm Ht Hts result. unfold result.
  destruct (moveMaterial_existing_target m s t _ Hwf Hs Hm Ht Hts)
    as [Eids Hperm].
  pose proof (wellFormed_transport _ _ Hwf Eids Hperm) as (Hids' & _ & _).
  destruct (moveMaterial_shape m s t _ Hwf Hs Hm Ht Hts)
    as (A & B & C & l1 & l2 & El & [[E Er]|[E Er]]);
    rewrite Er in *; clear Er; split.
  - apply (materialsOf_unique (withMaterials t (m :: materials t)));
      [assumption|].
    apply in_or_app. right. right. apply in_or_app. right. now left.
  - exists l1, l2. split; [exact El|].
    apply (materialsOf_unique (withMaterials s (l1 ++ l2))); [assumption|].
    apply in_or_app. right. now left.
  - apply (materialsOf_unique (withMaterials t (m :: materials t)));
      [assumption|].
    apply in_or_app. right. now left.
  - exists l1, l2. split; [exact El|].
    apply (materialsOf_unique (withMaterials s (l1 ++ l2))); [assumption|].
    apply in_or_app. right. right. apply in_or_app. right. now left.
Qed.

(** X4: a move issued from the dashboard never loses the material.  The
    dashboard lists the materials of the active subject and its move dialog
    offers the other subjects of the store as destinations; on a store in
    which identifiers identify, confirming any offered destination puts the
    material at the head of that subject, takes it out of the active one,
    keeps the store's materials (as a multiset) and its invariant, and the
    moved material is no longer the one on display. *)
Theorem dashboard_move_keeps_material (st : AppState) (s t : Subject)
  (m : SavedMaterial) :
  wellFormed (subjects st) ->
  activeSubject (subjects st) (activeSubjectId st) = Some s ->
  In m (materials s) ->
  In t (moveTargets (subjects st) (activeSubjectId st)) ->
  let st' := handleMoveConfirm (Some m) (subjectId t) st in
  In t (subjects st)
  /\ subjectId t <> subjectId s
  /\ materialsOf (subjectId t) (subjects st') = m :: materials t
  /\ (exists l1 l2, materials s = l1 ++ m :: l2
                    /\ materialsOf (subjectId s) (subjects st') = l1 ++ l2)
  /\ map subjectId (subjects st') = map subjectId (subjects st)
  /\ Permutation (allMaterials (subjects st')) (allMaterials (subjects st))
  /\ wellFormed (subjects st')
  /\ (forall cm, currentMaterial st' = Some cm -> materialId cm <> materialId m).
Proof.
  intros Hwf Hact Hm Htgt st'.
  unfold activeSubject in Hact. apply find_some in Hact as [Hs Hcur].
  unfold moveTargets in Htgt. apply filter_In in Htgt as [Ht Hnot].
  destruct (activeSubjectId st) as [cur|] eqn:Ecur; [|discriminate].
  cbn [isCurrent] in Hcur, Hnot. apply jsstring_eqb_eq in Hcur.
  assert (Hts : subjectId t <> subjectId s).
  { intros E. rewrite E, Hcur, jsstring_eqb_refl in Hnot. discriminate. }
  assert (Hsubs : subjects st' = moveMaterial (materialId m) (subjectId t) (subjects st))
    by reflexivity.
  destruct (moveMaterial_existing_target m s t _ Hwf Hs Hm Ht Hts)
    as [Eids Hperm].
  destruct (moveMaterial_source_target m s t _ Hwf Hs Hm Ht Hts) as [Hto Hfrom].
  split; [exact Ht|]. split; [exact Hts|]. rewrite Hsubs.
  split; [exact Hto|]. split; [exact Hfrom|]. split; [exact Eids|].
  split; [exact Hperm|].
  split; [exact (wellFormed_transport _ _ Hwf Eids Hperm)|].
  intros cm. unfold st', handleMoveConfirm, handleMoveMaterial.
  cbn [currentMaterial]. rewrite Ecur.
  destruct (currentMaterial st) as [cm0|]; [|discriminate].
  destruct (jsstring_eqb (materialId cm0) (materialId m)) eqn:E.
  - destruct Hwf as (_ & _ & Hne).
    rewrite Forall_forall in Hne. specialize (Hne s Hs). rewrite Hcur in Hne.
    destruct cur as [|ch rest]; [congruence|]. cbn [negb andb].
    rewrite jsstring_eqb_neq by congruence. discriminate.
  - cbn [andb]. intros H. injection H as <-. intros E'.
    rewrite E', jsstring_eqb_refl in E. discriminate.
Qed.

Lemma dashboard_move_keeps_material_witness :
  let st' := handleMoveConfirm (Some (material "m1")) (subjectId artHistory)
               sampleState in
  In artHistory (subjects sampleState)
  /\ subjectId artHistory <> subjectId biology
  /\ materialsOf (subjectId artHistory) (subjects st')
     = material "m1" :: materials artHistory
  /\ (exists l1 l2, materials biology = l1 ++ material "m1" :: l2
                    /\ materialsOf (subjectId biology) (subjects st') = l1 ++ l2)
  /\ map subjectId (subjects st') = map subjectId (subjects sampleState)
  /\ Permutation (allMaterials (subjects st')) (allMaterials (subjects sampleState))
  /\ wellFormed (subjects st')
  /\ (forall cm, currentMaterial st' = Some cm ->
                 materialId cm <> materialId (material "m1")).
Proof.
  apply (dashboard_move_keeps_material sampleState biology artHistory
           (material "m1")).
  - exact sampleState_wellFormed.
  - reflexivity.
  - simpl. auto.
  - simpl. auto.
Defined.

(* --------------------------------------------------------------------- *)
(** ** Creating a subject *)
(* --------------------------------------------------------------------- *)

Lemma trimStart_blank (s : jsstring) :
  forallb isWhiteSpace s = true -> trimStart s = [].
Proof.
  induction s as [|c s IH]; [reflexivity|]. cbn [forallb trimStart].
  intros H. apply andb_prop in H as [Hc Hs]. rewrite Hc. now apply IH.
Qed.

Lemma trim_blank (s : jsstring) :
  trim s = [] <-> forallb isWhiteSpace s = true.
Proof.
  split.
  - intros E. destruct (trim_split s) as [w1 [w2 [Hs [H1 H2]]]].
    rewrite E in Hs. cbn [app] in Hs. rewrite Hs, forallb_app, H1, H2.
    reflexivity.
  - intros H. unfold trim. now rewrite (trimStart_blank s H).
Qed.

(** X5: the form that creates a subject ignores a name that is empty or
    made of white space only, and otherwise appends exactly one subject to
    the store: its name is the text as typed, not trimmed, it has no
    materials, and its colour is one of the five of the palette. *)
Theorem handleCreateSubmit_blank_or_appends (now : jsstring) (pick : nat)
  (name : jsstring) (prev : list Subject) :
  (forallb isWhiteSpace name = true ->
     handleCreateSubmit now pick name prev = prev)
  /\ (forallb isWhiteSpace name = false ->
        exists col,
          handleCreateSubmit now pick name prev
          = prev ++ [{| subjectId := now; subjectName := name;
                        materials := []; color := col |}]
          /\ allMaterials (handleCreateSubmit now pick name prev)
             = allMaterials prev
          /\ (pick < 5 ->
              In col (map (fun c => str "bg-" ++ c ++ str "-500")
                          subjectColors))).
Proof.
  unfold handleCreateSubmit. split.
  - intros H. apply trim_blank in H. now rewrite H.
  - intros H. destruct (trim name) as [|c r] eqn:E.
    + apply trim_blank in E. congruence.
    + unfold handleCreateSubject, createSubject. eexists. split; [reflexivity|].
      split.
      * rewrite allMaterials_app. unfold allMaterials at 2. cbn.
        apply app_nil_r.
      * intros Hp.
        destruct pick as [|[|[|[|[|p]]]]]; cbn [nth subjectColors map];
          [now left|right; now left|do 2 right; now left
          |do 3 right; now left|do 4 right; now left|lia].
Qed.

(* --------------------------------------------------------------------- *)
(** ** The error shown when the analysis fails *)
(* --------------------------------------------------------------------- *)

Lemma analyze_throws_message
  (JSON_parse : jsstring -> result JsValue)
  (numberToString : number -> jsstring) (api : nat -> ApiOutcome) (e : Exn) :
  outcome (analyzeLectureContent JSON_parse numberToString api) = Throw e ->
  message e <> [].
Proof.
  unfold analyzeLectureContent, MAX_RETRIES.
  cbn [retryLoop Nat.add]. unfold MAX_RETRIES. cbn [Nat.eqb].
  destruct (runAttempt JSON_parse numberToString api 1); cbn [outcome];
    [discriminate|].
  destruct (runAttempt JSON_parse numberToString api 2); cbn [outcome];
    [discriminate|].
  intros H. injection H as <-. apply finalMessage_nonempty.
Qed.

(** X6: the error banner after a failed analysis.  Whatever exception
    analyzeLectureContent ends with, the text handleInputSubmit shows is
    not empty; off line it is the network text; on line it is one of the
    five fixed texts or the message of the exception itself, and the
    default text for an exception without a message is never the branch
    taken, since the service never throws an empty message. *)
Theorem errorMsg_of_failed_analysis
  (JSON_parse : jsstring -> result JsValue)
  (numberToString : number -> jsstring) (api : nat -> ApiOutcome)
  (onLine : bool) (e : Exn) :
  outcome (analyzeLectureContent JSON_parse numberToString api) = Throw e ->
  errorMsg onLine e <> []
  /\ (onLine = false ->
      errorMsg onLine e
      = str "Network Error: Please check your internet connection.")
  /\ (onLine = true ->
      errorMsg onLine e = message e
      \/ In (errorMsg onLine e)
           [str "Content Access Error: The AI could not access the transcript or content of this video. It might be private, age-restricted, or lacking captions.";
            str "Analysis Error: The AI response was malformed. Please try a different video or shorter file.";
            str "Input Error: The file might be corrupted or the format invalid.";
            str "Server Busy: AI Service is temporarily overloaded. Please try again.";
            str "Content Filtered: The lecture content was flagged by safety filters."]).
Proof.
  intros Hrun. pose proof (analyze_throws_message _ _ _ _ Hrun) as Hmsg.
  unfold errorMsg. destruct onLine; cbn [negb].
  - destruct (jsstring_eqb (message e) (str "AI_CONTENT_ACCESS_ERROR")).
    { split; [discriminate|]. split; [discriminate|]. intros _. right. now left. }
    destruct (jsstring_eqb (message e) (str "AI_JSON_PARSE_ERROR")).
    { split; [discriminate|]. split; [discriminate|]. intros _.
      right. right. now left. }
    destruct (message e) as [|c r] eqn:E; [congruence|].
    destruct (includes (str "400") (c :: r)).
    { split; [discriminate|]. split; [discriminate|]. intros _.
      right. do 2 right. now left. }
    destruct (includes (str "503") (c :: r) || includes (str "Overloaded") (c :: r)).
    { split; [discriminate|]. split; [discriminate|]. intros _.
      right. do 3 right. now left. }
    destruct (includes (str "SAFETY") (c :: r)).
    { split; [discriminate|]. split; [discriminate|]. intros _.
      right. do 4 right. now left. }
    split; [discriminate|]. split; [discriminate|]. intros _. now left.
  - split; [discriminate|]. split; [reflexivity|]. discriminate.
Qed.

Lemma errorMsg_of_failed_analysis_witness :
  let e := Error (str "Failed to fetch") in
  errorMsg true e <> []
  /\ (true = false ->
      errorMsg true e
      = str "Network Error: Please check your internet connection.")
  /\ (true = true ->
      errorMsg true e = message e
      \/ In (errorMsg true e)
           [str "Content Access Error: The AI could not access the transcript or content of this video. It might be private, age-restricted, or lacking captions.";
            str "Analysis Error: The AI response was malformed. Please try a different video or shorter file.";
            str "Input Error: The file might be corrupted or the format invalid.";
            str "Server Busy: AI Service is temporarily overloaded. Please try again.";
            str "Content Filtered: The lecture content was flagged by safety filters."]).
Proof.
  intros e.
  apply (errorMsg_of_failed_analysis
           (fun _ => Throw (Error (str "Unexpected token")))
           (fun _ => [])
           (fun _ => ApiThrows (Error (str "Failed to fetch")))
           true e).
  reflexivity.
Defined.

(* --------------------------------------------------------------------- *)
(** ** The active subject and the saving of an analysis *)
(* --------------------------------------------------------------------- *)

Lemma addMaterial_ids (active : jsstring) (m : SavedMaterial)
  (l : list Subject) :
  map subjectId (addMaterial active m l) = map subjectId l.
Proof.
  unfold addMaterial. rewrite map_map. apply map_ext. intros x.
  now destruct (jsstring_eqb (subjectId x) active).
Qed.

Lemma moveMaterial_ids (mid tgt : jsstring) (l : list Subject) :
  map subjectId (moveMaterial mid tgt l) = map subjectId l.
Proof.
  unfold moveMaterial. destruct (findSource mid l) as [[m src]|]; [|reflexivity].
  destruct src as [|c r]; [reflexivity|].
  destruct (jsstring_eqb (c :: r) tgt); [reflexivity|].
  rewrite map_map. apply map_ext. intros x.
  destruct (jsstring_eqb (subjectId x) (c :: r)); [reflexivity|].
  now destruct (jsstring_eqb (subjectId x) tgt).
Qed.

Lemma deleteSubject_ids (sid a : jsstring) (l : list Subject) :
  In a (map subjectId l) -> a <> sid ->
  In a (map subjectId (deleteSubject sid l)).
Proof.
  intros Hin Hne. apply in_map_iff in Hin as [s [Hs Hin]].
  apply in_map_iff. exists s. split; [exact Hs|].
  unfold deleteSubject. apply filter_In. split; [exact Hin|].
  rewrite jsstring_eqb_neq by congruence. reflexivity.
Qed.

Lemma handleCreateSubmit_wellFormed (now : jsstring) (pick : nat)
  (name : jsstring) (subs : list Subject) :
  now <> [] -> ~ In now (map subjectId subs) -> wellFormed subs ->
  wellFormed (handleCreateSubmit now pick name subs).
Proof.
  intros Hne Hfresh Hwf. unfold handleCreateSubmit.
  destruct (trim name); [exact Hwf|].
  unfold handleCreateSubject. now apply createSubject_wellFormed.
Qed.

Lemma handleCreateSubmit_ids (now : jsstring) (pick : nat)
  (name a : jsstring) (subs : list Subject) :
  In a (map subjectId subs) ->
  In a (map subjectId (handleCreateSubmit now pick name subs)).
Proof.
  intros H. unfold handleCreateSubmit. destruct (trim name); [exact H|].
  unfold handleCreateSubject, createSubject. rewrite map_app.
  apply in_or_app. now left.
Qed.

Lemma executeDelete_wellFormed (dc : option DeleteConfirmation) (st : AppState) :
  wellFormed (subjects st) -> wellFormed (subjects (executeDelete dc st)).
Proof.
  intros Hwf. unfold executeDelete. destruct dc as [c|]; [|exact Hwf].
  destruct (confirmType c).
  - cbn [subjects]. now apply deleteSubject_wellFormed.
  - destruct (confirmMaterialId c) as [[|ch rest]|]; try exact Hwf.
    cbn [subjects]. now apply deleteMaterial_wellFormed.
Qed.

Lemma executeDelete_active (dc : option DeleteConfirmation) (st : AppState) :
  activeInStore st -> activeInStore (executeDelete dc st).
Proof.
  unfold activeInStore, executeDelete. intros H.
  destruct dc as [c|]; [|exact H]. destruct (confirmType c).
  - cbn [activeSubjectId subjects].
    destruct (activeSubjectId st) as [a|]; [|exact I].
    destruct (jsstring_eqb a (confirmSubjectId c)) eqn:E; [exact I|].
    apply deleteSubject_ids; [exact H|].
    intros Ea. rewrite Ea, jsstring_eqb_refl in E. discriminate.
  - destruct (confirmMaterialId c) as [[|ch rest]|]; try exact H.
    cbn [activeSubjectId subjects]. now rewrite deleteMaterial_ids.
Qed.

Lemma appStep_invariant (st st' : AppState) :
  appStep st st' ->
  wellFormed (subjects st) /\ activeInStore st ->
  wellFormed (subjects st') /\ activeInStore st'.
Proof.
  intros Hstep [Hwf Hact]. destruct Hstep.
  - split; [exact Hwf|]. unfold activeInStore. cbn. now apply in_map.
  - split; [exact Hwf|exact I].
  - split; [exact Hwf|]. unfold activeInStore. cbn. apply in_map.
    unfold activeSubject in H. now apply find_some in H as [Hin _].
  - split; assumption.
  - split; [exact Hwf|exact I].
  - split; assumption.
  - split; [exact Hwf|exact I].
  - split; [now apply handleCreateSubmit_wellFormed|].
    unfold activeInStore in *. cbn [activeSubjectId subjects].
    destruct (activeSubjectId st); [|exact I].
    now apply handleCreateSubmit_ids.
  - split; [now apply executeDelete_wellFormed|now apply executeDelete_active].
  - split; [now apply moveMaterial_wellFormed|].
    unfold activeInStore in *. cbn [handleMoveMaterial activeSubjectId subjects].
    destruct (activeSubjectId st); [|exact I]. now rewrite moveMaterial_ids.
  - unfold handleInputSubmit.
    destruct captured as [[|c r]|]; try (cbn [fst]; split; assumption).
    destruct attempt as [m|e]; cbn [fst]; [|split; assumption].
    unfold activeInStore in *. cbn [subjects activeSubjectId].
    split; [apply addMaterial_wellFormed; [now apply H|exact Hwf]|].
    destruct (activeSubjectId st); [|exact I]. now rewrite addMaterial_ids.
Qed.

(** X7: in every state the application can reach, identifiers identify and
    the active subject, when there is one, is a subject of the store.
    The states are those reached from the initial one by the handlers of
    App.tsx: navigation, creating a subject, a confirmed deletion, a move,
    a submitted analysis, saved under whatever subject id the handler had
    captured, and logging out. *)
Theorem appReachable_invariant (st : AppState) :
  appReachable st -> wellFormed (subjects st) /\ activeInStore st.
Proof.
  induction 1 as [|st st' _ IH Hstep].
  - split; [exact initialSubjects_wellFormed|exact I].
  - exact (appStep_invariant st st' Hstep IH).
Qed.

Lemma appReachable_invariant_witness :
  wellFormed (subjects (onSelectSubject (str "1") initialState))
  /\ activeInStore (onSelectSubject (str "1") initialState).
Proof.
  apply (appReachable_invariant (onSelectSubject (str "1") initialState)).
  apply (appReachable_step initialState).
  - exact appReachable_initial.
  - apply (step_selectSubject initialState
             {| subjectId := str "1"; subjectName := str "Biology 101";
                materials := []; color := str "bg-emerald-500" |}).
    simpl. auto.
Defined.






(** The active subject of [sampleState] is the first one; a handler that
    captured the second saves there, and a handler that captured a subject
    deleted since saves nowhere, yet shows the material. *)
Example handleInputSubmit_stale_subject :
  let st' := fst (handleInputSubmit (Some (str "7")) true
                    (Ok (material "m9")) None sampleState) in
  subjects st' = subjects sampleState
  /\ currentMaterial st' = Some (material "m9")
  /\ currentView st' = ViewAnalysis.
Proof. repeat split. Qed.

(* --------------------------------------------------------------------- *)
(** ** cleanJson on any text *)
(* --------------------------------------------------------------------- *)

Lemma indexOf_some (c : char) (s : jsstring) (f : nat) :
  indexOf c s = Some f ->
  exists a b, s = a ++ c :: b /\ List.length a = f /\ ~ In c a.
Proof.
  revert f. induction s as [|x s IH]; intros f H; [discriminate|].
  cbn [indexOf] in H. destruct (x =? c)%N eqn:E.
  - apply N.eqb_eq in E. subst x. injection H as <-.
    exists [], s. repeat split. intros [].
  - destruct (indexOf c s) as [i|]; [|discriminate]. injection H as <-.
    destruct (IH i eq_refl) as [a [b [-> [Hl Hn]]]].
    exists (x :: a), b. split; [reflexivity|]. split; [cbn; now rewrite Hl|].
    intros [H|H]; [|now apply Hn]. subst x. now rewrite N.eqb_refl in E.
Qed.

Lemma indexOf_absent (c : char) (s : jsstring) :
  indexOf c s = None -> ~ In c s.
Proof.
  induction s as [|x s IH]; intros H; [intros []|].
  cbn [indexOf] in H. destruct (x =? c)%N eqn:E; [discriminate|].
  destruct (indexOf c s); [discriminate|].
  intros [Hx|Hin]; [|now apply IH]. subst x. now rewrite N.eqb_refl in E.
Qed.

Lemma lastIndexOf_some (c : char) (s : jsstring) (l : nat) :
  lastIndexOf c s = Some l ->
  exists a b, s = a ++ c :: b /\ List.length a = l /\ ~ In c b.
Proof.
  revert l. induction s as [|x s IH]; intros l H; [discriminate|].
  cbn [lastIndexOf] in H. destruct (lastIndexOf c s) as [i|] eqn:El.
  - injection H as <-. destruct (IH i eq_refl) as [a [b [-> [Hl Hn]]]].
    exists (x :: a), b. split; [reflexivity|]. split; [cbn; now rewrite Hl|].
    exact Hn.
  - destruct (x =? c)%N eqn:E; [|discriminate]. injection H as <-.
    apply N.eqb_eq in E. subst x. exists [], s. repeat split.
    clear IH. induction s as [|y s IHs]; [intros []|].
    cbn [lastIndexOf] in El. destruct (lastIndexOf c s); [discriminate|].
    destruct (y =? c)%N eqn:Ey; [discriminate|].
    intros [Hy|Hin]; [subst y; now rewrite N.eqb_refl in Ey|now apply IHs].
Qed.

Lemma lastIndexOf_absent (c : char) (s : jsstring) :
  lastIndexOf c s = None -> ~ In c s.
Proof.
  induction s as [|y s IHs]; intros El; [intros []|].
  cbn [lastIndexOf] in El. destruct (lastIndexOf c s); [discriminate|].
  destruct (y =? c)%N eqn:Ey; [discriminate|].
  intros [Hy|Hin]; [subst y; now rewrite N.eqb_refl in Ey|now apply IHs].
Qed.

Lemma includes_app_r (pat a b : jsstring) :
  includes pat (a ++ b) = false -> includes pat b = false.
Proof.
  induction a as [|x a IH]; intros H; [exact H|].
  cbn [app includes] in H. apply orb_false_iff in H as [_ H]. now apply IH.
Qed.

Lemma startsWith_fence_backticks (s : jsstring) :
  startsWith fence s = (3 <=? leadingBackticks s).
Proof.
  unfold fence. change (str "```") with [c_backtick; c_backtick; c_backtick].
  destruct s as [|a [|b [|c r]]]; cbn [startsWith leadingBackticks];
    rewrite ?(N.eqb_sym c_backtick);
    repeat match goal with
           | |- context [(?x =? c_backtick)%N] =>
               destruct (x =? c_backtick)%N; cbn [andb leadingBackticks]
           end;
    reflexivity.
Qed.

Lemma removeAllFrom_fence (s : jsstring) :
  forall k,
    includes fence (removeAllFrom fence k s) = false
    /\ leadingBackticks (removeAllFrom fence k s)
       <= leadingBackticks (skipn k s).
Proof.
  induction s as [|c s IH]; intros k.
  - cbn. split; [reflexivity|]. destruct k; cbn; lia.
  - cbn [removeAllFrom]. destruct k as [|k].
    + destruct (startsWith fence (c :: s)) eqn:E.
      * destruct (IH (List.length fence - 1)) as [H1 H2].
        split; [exact H1|]. cbn [skipn].
        rewrite startsWith_fence_backticks in E. apply Nat.leb_le in E.
        change (List.length fence - 1) with 2 in *.
        destruct s as [|a [|b r]].
        { cbn in *. destruct (c =? c_backtick)%N; cbn in *; lia. }
        { cbn in *. destruct (c =? c_backtick)%N; [|lia].
          destruct (a =? c_backtick)%N; cbn in *; lia. }
        cbn [skipn] in H2. cbn [leadingBackticks] in *.
        destruct (c =? c_backtick)%N; [|lia].
        destruct (a =? c_backtick)%N; [|lia].
        destruct (b =? c_backtick)%N; lia.
      * destruct (IH 0) as [H1 H2]. cbn [skipn] in *.
        assert (Hlead : leadingBackticks (c :: removeAllFrom fence 0 s)
                        <= leadingBackticks (c :: s)).
        { cbn [leadingBackticks]. destruct (c =? c_backtick)%N; lia. }
        split; [|exact Hlead].
        cbn [includes]. rewrite H1, orb_false_r.
        rewrite startsWith_fence_backticks in *.
        apply Nat.leb_gt in E. apply Nat.leb_gt. lia.
    + cbn [skipn]. apply IH.
Qed.

Lemma stripFences_no_fence (text : jsstring) :
  includes fence (stripFences text) = false.
Proof. unfold stripFences, removeAll. apply removeAllFrom_fence. Qed.

Lemma stripFences_fixed (s : jsstring) :
  includes fence s = false -> stripFences s = s.
Proof.
  intros H. unfold stripFences.
  rewrite (removeAll_absent fence_json s (includes_fence_json s H)).
  now apply removeAll_absent.
Qed.

Lemma removeAll_keeps (pat s : jsstring) (x : char) :
  pat <> [] -> ~ In x pat -> In x s -> In x (removeAll pat s).
Proof.
  intros Hp Hx Hin. destruct (in_split _ _ Hin) as [a [b ->]].
  rewrite (removeAll_barrier pat a b x Hp Hx). apply in_or_app. right. now left.
Qed.

Lemma stripFences_In (text : jsstring) (x : char) :
  ~ In x fence_json -> (In x (stripFences text) <-> In x text).
Proof.
  intros Hx. assert (Hx' : ~ In x fence).
  { intros H. apply Hx. unfold fence, fence_json in *. cbn in *.
    intuition. }
  unfold stripFences. split.
  - intros H. apply removeAllFrom_In in H. now apply removeAllFrom_In in H.
  - intros H. apply removeAll_keeps; [discriminate|exact Hx'|].
    apply removeAll_keeps; [discriminate|exact Hx|exact H].
Qed.

Lemma firstn_span (mid post : jsstring) (x y : char) :
  firstn (S (S (List.length mid))) (x :: mid ++ y :: post) = x :: mid ++ [y].
Proof.
  cbn [firstn]. f_equal. induction mid as [|c mid IH]; [reflexivity|].
  cbn [List.length app firstn]. f_equal. exact IH.
Qed.

(** The three shapes of the result, on the text without its fences. *)
Lemma cleanJson_cases (text : jsstring) :
  let cleaned := stripFences text in
  (~ In c_lbrace cleaned /\ cleanJson text = cleaned)
  \/ (exists a b,
         cleaned = a ++ c_lbrace :: b
         /\ ~ In c_lbrace a /\ ~ In c_rbrace b
         /\ cleanJson text = c_lbrace :: b)
  \/ (exists a mid post,
         cleaned = a ++ c_lbrace :: mid ++ c_rbrace :: post
         /\ ~ In c_lbrace a /\ ~ In c_rbrace post
         /\ cleanJson text = c_lbrace :: mid ++ [c_rbrace]).
Proof.
  intros cleaned. unfold cleanJson. fold cleaned.
  destruct (indexOf c_lbrace cleaned) as [f|] eqn:Ef.
  2:{ left. split; [now apply indexOf_absent|reflexivity]. }
  destruct (indexOf_some _ _ _ Ef) as [a [b [Hs [Hla Ha]]]].
  assert (Hfrom : substringFrom f cleaned = c_lbrace :: b).
  { unfold substringFrom. rewrite Hs, <- Hla, skipn_app, Nat.sub_diag.
    rewrite skipn_all. reflexivity. }
  destruct (lastIndexOf c_rbrace cleaned) as [l|] eqn:El.
  2:{ right. left. exists a, b. split; [exact Hs|]. split; [exact Ha|].
      split; [|exact Hfrom].
      intros Hin. apply (lastIndexOf_absent _ _ El). rewrite Hs.
      apply in_or_app. right. now right. }
  destruct (lastIndexOf_some _ _ _ El) as [a' [post [Hs' [Hla' Hpost]]]].
  assert (Hmeet : a ++ c_lbrace :: b = a' ++ c_rbrace :: post) by congruence.
  apply app_eq_app in Hmeet as [u [[Hu1 Hu2]|[Hu1 Hu2]]].
  - (* the last closing brace is at or before the first opening brace *)
    destruct u as [|x u].
    { cbn in Hu2. discriminate. }
    cbn [app] in Hu2. injection Hu2 as Hx Hpost'.
    assert (Hlt : (f <? l) = false).
    { apply Nat.ltb_ge. rewrite <- Hla, <- Hla', Hu1, length_app. cbn. lia. }
    rewrite Hlt. right. left. exists a, b.
    split; [exact Hs|]. split; [exact Ha|]. split; [|exact Hfrom].
    intros Hin. apply Hpost. rewrite Hpost'. apply in_or_app. right. now right.
  - destruct u as [|x mid].
    { cbn in Hu2. discriminate. }
    cbn [app] in Hu2. injection Hu2 as Hx Hb. subst x.
    assert (Hlt : (f <? l) = true).
    { apply Nat.ltb_lt. rewrite <- Hla, <- Hla', Hu1, length_app. cbn. lia. }
    rewrite Hlt. right. right. exists a, mid, post.
    split; [now rewrite Hs, Hb|]. split; [exact Ha|]. split; [exact Hpost|].
    unfold substring. rewrite Hs, <- Hla, skipn_app, Nat.sub_diag.
    rewrite skipn_all. cbn [skipn app]. rewrite Hb.
    replace (l + 1 - List.length a) with (S (S (List.length mid)))
      by (rewrite <- Hla', Hu1, length_app; cbn; lia).
    apply firstn_span.
Qed.

(** X9: what cleanJson returns on any text.  With [cleaned] the text
    without its code fences: when the text has no opening brace, the result
    is [cleaned]; otherwise it starts at the first opening brace of
    [cleaned] and ends with the last closing brace behind it, or runs to
    the end of [cleaned] when no closing brace follows.  Braces are not
    touched by the removal of the fences, and the result never contains a
    run of three backticks. *)
Theorem cleanJson_span (text : jsstring) :
  let cleaned := stripFences text in
  includes fence cleaned = false
  /\ includes fence (cleanJson text) = false
  /\ (In c_lbrace cleaned <-> In c_lbrace text)
  /\ (In c_rbrace cleaned <-> In c_rbrace text)
  /\ ((~ In c_lbrace text /\ cleanJson text = cleaned)
      \/ (exists a b,
             cleaned = a ++ c_lbrace :: b
             /\ ~ In c_lbrace a /\ ~ In c_rbrace b
             /\ cleanJson text = c_lbrace :: b)
      \/ (exists a mid post,
             cleaned = a ++ c_lbrace :: mid ++ c_rbrace :: post
             /\ ~ In c_lbrace a /\ ~ In c_rbrace post
             /\ cleanJson text = c_lbrace :: mid ++ [c_rbrace])).
Proof.
  intros cleaned.
  pose proof (stripFences_no_fence text) as Hnf. fold cleaned in Hnf.
  assert (Hl : In c_lbrace cleaned <-> In c_lbrace text).
  { apply stripFences_In. unfold fence_json. cbn.
    intuition discriminate. }
  assert (Hr : In c_rbrace cleaned <-> In c_rbrace text).
  { apply stripFences_In. unfold fence_json. cbn.
    intuition discriminate. }
  split; [exact Hnf|].
  destruct (cleanJson_cases text) as [[Hno E]|[(a & b & Hs & Ha & Hb & E)
                                              |(a & mid & post & Hs & Ha & Hp & E)]];
    fold cleaned in Hno || fold cleaned in Hs.
  - split; [now rewrite E|]. split; [exact Hl|]. split; [exact Hr|].
    left. split; [now rewrite <- Hl|exact E].
  - split.
    { rewrite E. rewrite Hs in Hnf. now apply includes_app_r in Hnf. }
    split; [exact Hl|]. split; [exact Hr|].
    right. left. exists a, b. auto.
  - split.
    { rewrite E. rewrite Hs in Hnf. apply includes_app_r in Hnf.
      apply (includes_app_l fence (c_lbrace :: mid ++ [c_rbrace]) post).
      cbn [app]. now rewrite <- app_assoc. }
    split; [exact Hl|]. split; [exact Hr|].
    right. right. exists a, mid, post. auto.
Qed.

Lemma not_in_last (x y : char) (l : jsstring) :
  ~ In x (l ++ [y]) -> ~ In x l.
Proof. intros H Hin. apply H. apply in_or_app. now left. Qed.

(** X10: cleanJson is idempotent: cleaning a cleaned text changes
    nothing. *)
Theorem cleanJson_idempotent (text : jsstring) :
  cleanJson (cleanJson text) = cleanJson text.
Proof.
  assert (Hfix : forall out,
             includes fence out = false ->
             (~ In c_lbrace out
              \/ (exists b, out = c_lbrace :: b /\ ~ In c_rbrace b)
              \/ (exists mid, out = c_lbrace :: mid ++ [c_rbrace])) ->
             cleanJson out = out).
  { intros out Hnf Hshape. unfold cleanJson. rewrite (stripFences_fixed out Hnf).
    destruct Hshape as [Hno|[[b [-> Hb]]|[mid ->]]].
    - destruct (indexOf c_lbrace out) as [f|] eqn:Ef; [|reflexivity].
      destruct (indexOf_some _ _ _ Ef) as [a [b [-> _]]].
      exfalso. apply Hno. apply in_or_app. right. now left.
    - cbn [indexOf]. rewrite N.eqb_refl.
      rewrite (lastIndexOf_none c_rbrace (c_lbrace :: b)).
      + reflexivity.
      + intros [H|H]; [discriminate|now apply Hb].
    - cbn [indexOf]. rewrite N.eqb_refl.
      pose proof (lastIndexOf_last c_rbrace (c_lbrace :: mid) [] (fun H => H))
        as HL.
      cbn [app] in HL. rewrite HL.
      cbn [List.length]. cbn [Nat.ltb Nat.leb].
      unfold substring. cbn [skipn]. rewrite Nat.sub_0_r, Nat.add_1_r.
      apply (firstn_span mid [] c_lbrace c_rbrace). }
  pose proof (stripFences_no_fence text) as Hnf.
  destruct (cleanJson_cases text) as [[Hno E]|[(a & b & Hs & Ha & Hb & E)
                                              |(a & mid & post & Hs & Ha & Hp & E)]].
  - rewrite E. apply Hfix; [exact Hnf|]. now left.
  - rewrite E. apply Hfix.
    + rewrite Hs in Hnf. now apply includes_app_r in Hnf.
    + right. left. exists b. auto.
  - rewrite E. apply Hfix.
    + rewrite Hs in Hnf. apply includes_app_r in Hnf.
      apply (includes_app_l fence (c_lbrace :: mid ++ [c_rbrace]) post).
      cbn [app]. now rewrite <- app_assoc.
    + right. right. exists mid. reflexivity.
Qed.

(* --------------------------------------------------------------------- *)
(** ** repairJson: what the appended closers achieve *)
(* --------------------------------------------------------------------- *)

Lemma scanAll_keeps_inString (text : jsstring) :
  Forall (fun c => c = c_rbrace \/ c = c_rbracket) text ->
  forall s, inString s = true -> inString (scanAll s text) = true.
Proof.
  induction 1 as [|c text Hc _ IH]; intros s Hs; [exact Hs|].
  unfold scanAll in *. cbn [fold_left]. apply IH.
  unfold scanStep.
  assert (Hq : (c =? c_quote)%N = false) by (destruct Hc; subst c; reflexivity).
  rewrite Hq. cbn [andb]. rewrite Hs. reflexivity.
Qed.

(** X11: repairJson cannot repair a text that is cut inside a string.
    When the scan of the text (trimmed, without a trailing backslash or
    comma) ends inside a quoted string, the closers are appended behind the
    open string, and the result is not a JSON text. *)
Theorem repairJson_inside_string (s : jsstring) :
  inString (scanAll scan0
              (dropTrailingComma (dropTrailingBackslash (trim s)))) = true ->
  ~ jsonText (repairJson s).
Proof.
  intros Hin Hjson.
  apply jsonText_strict in Hjson. apply strictAll_sound in Hjson.
  unfold repairJson in Hjson. cbv zeta in Hjson.
  rewrite scanAll_app in Hjson.
  pose proof (scanAll_keeps_inString _ (closeAll_closers
                (stack (scanAll scan0
                   (dropTrailingComma (dropTrailingBackslash (trim s))))))
                _ Hin) as Hkeep.
  cbn [clean sc] in Hjson. unfold scan0 in *. rewrite Hjson in Hkeep.
  discriminate.
Qed.

Lemma repairJson_inside_string_witness :
  ~ jsonText (repairJson (strq "{'a':'x")).
Proof.
  apply (repairJson_inside_string (strq "{'a':'x")). reflexivity.
Defined.

Lemma scanStep_openers (s : scan) (ch : char) :
  Forall (fun c => isOpener c = true) (stack s) ->
  Forall (fun c => isOpener c = true) (stack (scanStep s ch)).
Proof.
  intros H. unfold scanStep.
  destruct (if (ch =? c_quote)%N && negb (escape s)
            then negb (inString s) else inString s); [exact H|].
  destruct ((ch =? c_lbrace)%N || (ch =? c_lbracket)%N) eqn:E.
  { cbn [stack]. constructor; [exact E|exact H]. }
  destruct (ch =? c_rbrace)%N.
  { cbn [stack]. destruct (top_is c_lbrace (stack s)); [|exact H].
    destruct (stack s); [exact H|]. now inversion H. }
  destruct (ch =? c_rbracket)%N; [|exact H].
  cbn [stack]. destruct (top_is c_lbracket (stack s)); [|exact H].
  destruct (stack s); [exact H|]. now inversion H.
Qed.

Lemma scanAll_openers (text : jsstring) :
  forall s, Forall (fun c => isOpener c = true) (stack s) ->
            Forall (fun c => isOpener c = true) (stack (scanAll s text)).
Proof.
  induction text as [|ch text IH]; intros s H; [exact H|].
  unfold scanAll in *. cbn [fold_left]. apply IH. now apply scanStep_openers.
Qed.

Lemma closeAll_closes (st : list char) :
  Forall (fun c => isOpener c = true) st ->
  forall esc,
    stack (scanAll (Scan st false esc) (closeAll st)) = []
    /\ inString (scanAll (Scan st false esc) (closeAll st)) = false.
Proof.
  induction 1 as [|ch st Hch _ IH]; intros esc; [split; reflexivity|].
  unfold isOpener in Hch. cbn [closeAll].
  destruct (ch =? c_lbrace)%N eqn:E1.
  - apply N.eqb_eq in E1. subst ch. cbn [N.eqb Pos.eqb c_lbrace c_lbracket app].
    change (c_lbrace =? c_lbracket)%N with false. cbn [app].
    unfold scanAll in *. cbn [fold_left].
    replace (scanStep (Scan (c_lbrace :: st) false esc) c_rbrace)
      with (Scan st false false) by reflexivity.
    apply IH.
  - cbn [orb] in Hch. rewrite Hch. apply N.eqb_eq in Hch. subst ch. cbn [app].
    unfold scanAll in *. cbn [fold_left].
    replace (scanStep (Scan (c_lbracket :: st) false esc) c_rbracket)
      with (Scan st false false) by reflexivity.
    apply IH.
Qed.

(** X12: when the scan of the text (trimmed, without a trailing backslash
    or comma) ends outside a quoted string, the closers that repairJson
    appends close every brace and bracket the scan had found open: a scan
    of the result ends outside a string with an empty stack. *)
Theorem repairJson_closes_every_opener (s : jsstring) :
  inString (scanAll scan0
              (dropTrailingComma (dropTrailingBackslash (trim s)))) = false ->
  stack (scanAll scan0 (repairJson s)) = []
  /\ inString (scanAll scan0 (repairJson s)) = false.
Proof.
  intros Hout. unfold repairJson. cbv zeta. rewrite scanAll_app.
  set (repaired := dropTrailingComma (dropTrailingBackslash (trim s))) in *.
  pose proof (scanAll_openers repaired scan0 (Forall_nil _)) as Hop.
  destruct (scanAll scan0 repaired) as [st inS esc] eqn:E.
  cbn [inString stack] in *. subst inS.
  now apply closeAll_closes.
Qed.

Lemma repairJson_closes_every_opener_witness :
  stack (scanAll scan0 (repairJson (strq "{'a':[1,{'b':'}'"))) = []
  /\ inString (scanAll scan0 (repairJson (strq "{'a':[1,{'b':'}'"))) = false.
Proof.
  apply (repairJson_closes_every_opener (strq "{'a':[1,{'b':'}'")). reflexivity.
Defined.

(* --------------------------------------------------------------------- *)
(** ** What fallbackExtraction extracts *)
(* --------------------------------------------------------------------- *)

Lemma matchAllFrom_In {A : Type} (m : jsstring -> option (A * jsstring))
  (a : A) (s : jsstring) :
  forall skip, In a (matchAllFrom m skip s) ->
               exists s' rest, m s' = Some (a, rest).
Proof.
  induction s as [|c s IH]; intros skip H; [destruct H|].
  cbn [matchAllFrom] in H. destruct skip as [|k]; [|now apply (IH k)].
  destruct (m (c :: s)) as [[a' rest]|] eqn:E; [|now apply (IH 0)].
  destruct H as [H|H]; [|now apply (IH _ H)].
  subst a'. now exists (c :: s), rest.
Qed.

Lemma untilQuote_no_quote (s body rest : jsstring) :
  untilQuote s = Some (body, rest) -> ~ In c_quote body.
Proof.
  revert body. induction s as [|c s IH]; intros body H; [discriminate|].
  cbn [untilQuote] in H. destruct (c =? c_quote)%N eqn:E.
  - injection H as <- _. intros [].
  - destruct (untilQuote s) as [[b r]|]; [|discriminate].
    cbn [obind fst snd] in H. injection H as <- <-.
    intros [Hc|Hin]; [subst c; now rewrite N.eqb_refl in E|].
    exact (IH b eq_refl Hin).
Qed.

Lemma split_nonempty (sep : char) (s : jsstring) : split sep s <> [].
Proof.
  induction s as [|x s IH]; [discriminate|]. cbn [split].
  destruct (x =? sep)%N; [discriminate|].
  destruct (split sep s); discriminate.
Qed.

Lemma quizAt_shape (s rest qt opts : jsstring) :
  quizAt s = Some ((qt, opts), rest) -> qt <> [] /\ ~ In c_quote qt.
Proof.
  unfold quizAt. intros H.
  destruct (afterKey (str "question") s) as [r|]; [|discriminate].
  cbn [obind] in H. destruct (expect c_quote r) as [r'|]; [|discriminate].
  cbn [obind] in H. destruct (untilQuote r') as [[b r2]|] eqn:E; [|discriminate].
  cbn [obind fst snd] in H. destruct b as [|c b]; [discriminate|].
  destruct (searchFirst optionsAt r2) as [o|]; [|discriminate].
  cbn [obind] in H. injection H as <- _ _.
  split; [discriminate|]. exact (untilQuote_no_quote _ _ _ E).
Qed.

Lemma fallback_quiz_fields (text : jsstring) (q : QuizQuestion) :
  In q (quizzes (fallbackExtraction text)) ->
  (exists qs, question q = JStr qs /\ qs <> [] /\ ~ In c_quote qs)
  /\ explanation q = JStr (str "Explanation unavailable in fallback mode.").
Proof.
  unfold fallbackExtraction. cbn [quizzes]. intros H.
  apply in_map_iff in H as [[qt opts] [<- Hin]].
  unfold matchAll in Hin. apply matchAllFrom_In in Hin as [s' [rest Hm]].
  destruct (quizAt_shape _ _ _ _ Hm) as [Hne Hq].
  split; [exists qt; auto|reflexivity].
Qed.

(** X13: every quiz question that fallbackExtraction builds has a question
    text that is a non-empty string without a double quote, between one
    and four options, all strings, the index 0 as its answer and the fixed
    explanation; the quiz view reads 0 as its correct index. *)
Theorem fallback_quiz_wellformed (text : jsstring) (q : QuizQuestion) :
  In q (quizzes (fallbackExtraction text)) ->
  (exists qs, question q = JStr qs /\ qs <> [] /\ ~ In c_quote qs)
  /\ 1 <= List.length (options q) <= 4
  /\ Forall (fun o => isString o = true) (options q)
  /\ correctAnswerIndex q = num_zero
  /\ explanation q = JStr (str "Explanation unavailable in fallback mode.")
  /\ getSafeCorrectIndex q = Int 0.
Proof.
  unfold fallbackExtraction. cbn [quizzes]. intros H.
  apply in_map_iff in H as [[qt opts] [<- Hin]].
  unfold matchAll in Hin. apply matchAllFrom_In in Hin as [s' [rest Hm]].
  destruct (quizAt_shape _ _ _ _ Hm) as [Hne Hq].
  assert (Hlen : 1 <= List.length (options (fallbackQuiz (qt, opts))) <= 4).
  { unfold fallbackQuiz. cbn [options snd]. rewrite length_map, length_firstn.
    rewrite length_map.
    pose proof (split_nonempty c_comma opts) as Hs.
    destruct (split c_comma opts); [congruence|]. cbn [List.length]. lia. }
  split; [exists qt; auto|]. split; [exact Hlen|].
  split.
  { unfold fallbackQuiz. cbn [options]. apply Forall_forall.
    intros o Ho. apply in_map_iff in Ho as [x [<- _]]. reflexivity. }
  split; [reflexivity|]. split; [reflexivity|].
  unfold getSafeCorrectIndex. cbv zeta.
  replace (correctAnswerIndex (fallbackQuiz (qt, opts))) with num_zero
    by reflexivity.
  cbn [isNaN num_zero floor maxI minI]. f_equal. lia.
Qed.

Lemma fallback_quiz_wellformed_witness :
  let q := {| question := JStr (str "Is it alive?");
              options := [JStr (str "yes"); JStr (str "no");
                          JStr (str "maybe"); JStr (str "a")];
              correctAnswerIndex := num_zero;
              explanation := JStr (str "Explanation unavailable in fallback mode.") |} in
  (exists qs, question q = JStr qs /\ qs <> [] /\ ~ In c_quote qs)
  /\ 1 <= List.length (options q) <= 4
  /\ Forall (fun o => isString o = true) (options q)
  /\ correctAnswerIndex q = num_zero
  /\ explanation q = JStr (str "Explanation unavailable in fallback mode.")
  /\ getSafeCorrectIndex q = Int 0.
Proof.
  intros q. apply (fallback_quiz_wellformed responseBrokenQuiz q).
  vm_compute. left. reflexivity.
Defined.

Lemma sanitizeQuiz_of_quiz (q : QuizQuestion) :
  truthy (question q) = true -> truthy (explanation q) = true ->
  sanitizeQuiz (quizToJs q) = Ok (withPlaceholderOptions q).
Proof.
  intros Hq He. unfold sanitizeQuiz, quizToJs.
  change (getProp (JObj ?f) ?k) with (Ok (lookupField k f)).
  cbn [bind].
  change (lookupField (str "question") _) with (question q).
  change (lookupField (str "options")
            [(str "question", question q); (str "options", JArr (options q));
             (str "correctAnswerIndex", JNum (correctAnswerIndex q));
             (str "explanation", explanation q)])
    with (JArr (options q)).
  change (lookupField (str "correctAnswerIndex")
            [(str "question", question q); (str "options", JArr (options q));
             (str "correctAnswerIndex", JNum (correctAnswerIndex q));
             (str "explanation", explanation q)])
    with (JNum (correctAnswerIndex q)).
  change (lookupField (str "explanation")
            [(str "question", question q); (str "options", JArr (options q));
             (str "correctAnswerIndex", JNum (correctAnswerIndex q));
             (str "explanation", explanation q)])
    with (explanation q).
  now rewrite Hq, He.
Qed.

Lemma sanitizeQuizzes_of_quizzes (qs : list QuizQuestion) :
  Forall (fun q => truthy (question q) = true
                   /\ truthy (explanation q) = true) qs ->
  sanitizeQuizzes (map quizToJs qs) = Ok (map withPlaceholderOptions qs).
Proof.
  intros H. unfold sanitizeQuizzes.
  assert (Hm : mapM sanitizeQuiz (map quizToJs qs)
               = Ok (map withPlaceholderOptions qs)).
  { induction H as [|q qs [Hq He] _ IH]; [reflexivity|].
    cbn [map mapM]. rewrite (sanitizeQuiz_of_quiz q Hq He). cbn [bind].
    now rewrite IH. }
  rewrite Hm. cbn [bind]. f_equal. apply filter_all.
  apply Forall_forall. intros q' Hin.
  apply in_map_iff in Hin as [q [<- _]]. unfold withPlaceholderOptions.
  cbn [options]. destruct (2 <=? List.length (options q)) eqn:E.
  - apply Nat.leb_le in E. apply Nat.ltb_lt. lia.
  - reflexivity.
Qed.

Lemma includes_nil (pat : jsstring) : pat <> [] -> includes pat [] = false.
Proof. destruct pat; [congruence|reflexivity]. Qed.

Lemma fallback_quizzes_truthy (text : jsstring) :
  Forall (fun q => truthy (question q) = true
                   /\ truthy (explanation q) = true)
         (quizzes (fallbackExtraction text)).
Proof.
  apply Forall_forall. intros q Hq.
  destruct (fallback_quiz_fields text q Hq) as [[qs [E [Hne _]]] E'].
  rewrite E, E'. split; [|reflexivity].
  destruct qs; [congruence|reflexivity].
Qed.

Lemma postProcess_analysis (numberToString : number -> jsstring)
  (a : LectureAnalysis) :
  Forall (fun q => truthy (question q) = true
                   /\ truthy (explanation q) = true) (quizzes a) ->
  postProcess numberToString (analysisToJs a)
  = if includes (str "Error") (title a)
       || includes (str "Analysis Failed") (title a)
    then Throw (Error (match summary a with
                       | [] => str "Content analysis failed."
                       | _ :: _ => summary a
                       end))
    else Ok {| data := analysisToJs a;
               deliveredQuizzes := map withPlaceholderOptions (quizzes a);
               deliveredFlashcards := map flashcardToJs (flashcards a) |}.
Proof.
  intros Hqs.
  unfold postProcess, titleSaysFailed, analysisToJs.
  change (getProp (JObj ?f) ?k) with (Ok (lookupField k f)).
  cbn [bind].
  change (lookupField (str "title") _) with (JStr (title a)).
  destruct (title a) as [|c t] eqn:Et.
  - cbn [truthy]. rewrite !includes_nil by discriminate. cbn [orb bind].
    change (lookupField (str "quizzes") _) with (JArr (map quizToJs (quizzes a))).
    change (lookupField (str "flashcards") _)
      with (JArr (map flashcardToJs (flashcards a))).
    cbn [canHoldProperties negb arrayOr].
    rewrite (sanitizeQuizzes_of_quizzes _ Hqs). reflexivity.
  - cbn [truthy callIncludes bind].
    destruct (includes (str "Error") (c :: t)) eqn:E1; cbn [orb bind].
    + change (lookupField (str "summary") _) with (JStr (summary a)).
      destruct (summary a); reflexivity.
    + destruct (includes (str "Analysis Failed") (c :: t)) eqn:E2; cbn [bind].
      * change (lookupField (str "summary") _) with (JStr (summary a)).
        destruct (summary a); reflexivity.
      * change (lookupField (str "quizzes") _)
          with (JArr (map quizToJs (quizzes a))).
        change (lookupField (str "flashcards") _)
          with (JArr (map flashcardToJs (flashcards a))).
        cbn [canHoldProperties negb arrayOr].
        rewrite (sanitizeQuizzes_of_quizzes _ Hqs). reflexivity.
Qed.

(** X14: what the last stage of the cascade delivers.  The object that
    fallbackExtraction builds from any text passes the post-processing
    unless its title contains the word Error or Analysis Failed, in which
    case an Error with the extracted summary (or a fixed text when the
    summary is empty) is thrown; otherwise the flashcards found are
    delivered as they are, and so are the quiz questions found, except
    that a question with a single option gets the two placeholder options:
    none is dropped. *)
Theorem postProcess_fallback (numberToString : number -> jsstring)
  (text : jsstring) :
  let a := fallbackExtraction text in
  postProcess numberToString (analysisToJs a)
  = if includes (str "Error") (title a)
       || includes (str "Analysis Failed") (title a)
    then Throw (Error (match summary a with
                       | [] => str "Content analysis failed."
                       | _ :: _ => summary a
                       end))
    else Ok {| data := analysisToJs a;
               deliveredQuizzes := map withPlaceholderOptions (quizzes a);
               deliveredFlashcards := map flashcardToJs (flashcards a) |}.
Proof.
  intros a. apply postProcess_analysis. apply fallback_quizzes_truthy.
Qed.

(* --------------------------------------------------------------------- *)
(** ** The title that fallbackExtraction reads *)
(* --------------------------------------------------------------------- *)

Lemma trimStart_to_solid (w r : jsstring) (c : char) :
  forallb isWhiteSpace w = true -> isWhiteSpace c = false ->
  trimStart (w ++ c :: r) = c :: r.
Proof.
  intros Hw Hc. induction w as [|x w IH].
  - cbn [app trimStart]. now rewrite Hc.
  - cbn [forallb] in Hw. apply andb_prop in Hw as [Hx Hw].
    cbn [app trimStart]. rewrite Hx. now apply IH.
Qed.

Lemma literal_app (pat r : jsstring) : literal pat (pat ++ r) = Some r.
Proof.
  unfold literal.
  assert (H : startsWith pat (pat ++ r) = true).
  { induction pat as [|p pat IH]; [reflexivity|].
    cbn [app startsWith]. now rewrite N.eqb_refl. }
  rewrite H. f_equal. rewrite skipn_app, skipn_all, Nat.sub_diag. reflexivity.
Qed.

Lemma untilQuote_app (t post : jsstring) :
  ~ In c_quote t -> untilQuote (t ++ c_quote :: post) = Some (t, post).
Proof.
  induction t as [|c t IH]; intros H.
  - cbn [app untilQuote]. now rewrite N.eqb_refl.
  - cbn [app untilQuote].
    destruct (c =? c_quote)%N eqn:E.
    + apply N.eqb_eq in E. exfalso. apply H. now left.
    + rewrite IH by (intros Hin; apply H; now right). reflexivity.
Qed.

Lemma searchFirst_past {A : Type} (key : jsstring)
  (k : jsstring -> option A) (pre rest : jsstring) :
  ~ In c_quote pre ->
  searchFirst (fun s => obind (afterKey key s) k) (pre ++ rest)
  = searchFirst (fun s => obind (afterKey key s) k) rest.
Proof.
  induction pre as [|x pre IH]; intros H; [reflexivity|].
  cbn [app searchFirst].
  assert (Hx : (c_quote =? x)%N = false).
  { apply N.eqb_neq. intros E. apply H. now left. }
  unfold afterKey at 1, literal. cbn [startsWith]. rewrite Hx. cbn [andb obind].
  apply IH. intros Hin. apply H. now right.
Qed.

(** X15: fallbackExtraction recovers a title.  In a text whose first
    double quote opens the key title, followed by a colon (with any white
    space around it) and a quoted text [t] without a double quote, the
    title extracted is [t], whatever follows. *)
Theorem fallbackExtraction_reads_title (pre ws1 ws2 t post : jsstring) :
  ~ In c_quote pre ->
  forallb isWhiteSpace ws1 = true ->
  forallb isWhiteSpace ws2 = true ->
  ~ In c_quote t ->
  title (fallbackExtraction
           (pre ++ quoted (str "title") ++ ws1 ++ [c_colon] ++ ws2
                ++ [c_quote] ++ t ++ [c_quote] ++ post)) = t.
Proof.
  intros Hpre H1 H2 Ht. unfold fallbackExtraction. cbn [title].
  unfold titleMatch. rewrite (searchFirst_past (str "title") _ pre _ Hpre).
  set (rest := quoted (str "title") ++ ws1 ++ [c_colon] ++ ws2
               ++ [c_quote] ++ t ++ [c_quote] ++ post).
  assert (Hm : obind (afterKey (str "title") rest)
                 (fun r => obind (expect c_quote r)
                   (fun r' => obind (untilQuote r')
                     (fun br => Some (fst br)))) = Some t).
  { unfold afterKey, rest. fold (quoted (str "title")).
    rewrite literal_app. cbn [obind app].
    rewrite (trimStart_to_solid ws1 _ c_colon H1 eq_refl).
    cbn [expect]. rewrite N.eqb_refl. cbn [obind].
    rewrite (trimStart_to_solid ws2 _ c_quote H2 eq_refl).
    cbn [obind expect]. rewrite N.eqb_refl. cbn [obind].
    rewrite (untilQuote_app t post Ht). reflexivity. }
  destruct rest as [|x rest']; cbn [searchFirst]; now rewrite Hm.
Qed.

Lemma fallbackExtraction_reads_title_witness :
  title (fallbackExtraction
           (str "Here you go: {" ++ quoted (str "title") ++ str " " ++ [c_colon]
                ++ str "  " ++ [c_quote] ++ str "Cell biology" ++ [c_quote]
                ++ str ", and then the text breaks off"))
  = str "Cell biology".
Proof.
  apply (fallbackExtraction_reads_title (str "Here you go: {") (str " ")
           (str "  ") (str "Cell biology")
           (str ", and then the text breaks off")).
  - simpl. intuition discriminate.
  - reflexivity.
  - reflexivity.
  - simpl. intuition discriminate.
Defined.

(* --------------------------------------------------------------------- *)
(** ** The flashcards that fallbackExtraction reads *)
(* --------------------------------------------------------------------- *)

Lemma matchAllFrom_skip {A : Type} (m : jsstring -> option (A * jsstring))
  (s : jsstring) :
  forall k, k <= List.length s ->
            matchAllFrom m k s = matchAllFrom m 0 (skipn k s).
Proof.
  induction s as [|c s IH]; intros k Hk.
  - destruct k; [reflexivity|cbn in Hk; lia].
  - destruct k as [|k]; [reflexivity|].
    cbn [matchAllFrom skipn]. apply IH. cbn in Hk. lia.
Qed.

Lemma matchAllFrom_hit {A : Type} (m : jsstring -> option (A * jsstring))
  (a : A) (t rest : jsstring) :
  t <> [] -> m (t ++ rest) = Some (a, rest) ->
  matchAllFrom m 0 (t ++ rest) = a :: matchAllFrom m 0 rest.
Proof.
  intros Ht Hm. destruct t as [|c t]; [congruence|].
  cbn [app matchAllFrom]. cbn [app] in Hm. rewrite Hm. f_equal.
  rewrite matchAllFrom_skip by (rewrite length_app; lia).
  rewrite length_app, Nat.add_sub.
  rewrite skipn_app, skipn_all, Nat.sub_diag. reflexivity.
Qed.

Lemma matchAllFrom_past {A : Type} (key : jsstring)
  (k : jsstring -> option (A * jsstring)) (pre rest : jsstring) :
  ~ In c_quote pre ->
  matchAllFrom (fun s => obind (afterKey key s) k) 0 (pre ++ rest)
  = matchAllFrom (fun s => obind (afterKey key s) k) 0 rest.
Proof.
  induction pre as [|x pre IH]; intros H; [reflexivity|].
  cbn [app matchAllFrom].
  assert (Hx : (c_quote =? x)%N = false).
  { apply N.eqb_neq. intros E. apply H. now left. }
  unfold afterKey at 1, literal. cbn [startsWith]. rewrite Hx. cbn [andb obind].
  apply IH. intros Hin. apply H. now right.
Qed.

Lemma stringBody_plain (body rest : jsstring) :
  plainText body -> stringBody (body ++ c_quote :: rest) = Some (body, rest).
Proof.
  intros [Hq Hb]. induction body as [|c body IH].
  - cbn [app stringBody]. now rewrite N.eqb_refl.
  - cbn [app stringBody].
    assert (E1 : (c =? c_quote)%N = false).
    { apply N.eqb_neq. intros E. apply Hq. now left. }
    assert (E2 : (c =? c_backslash)%N = false).
    { apply N.eqb_neq. intros E. apply Hb. now left. }
    rewrite E1, E2, IH.
    + reflexivity.
    + intros Hin. apply Hq. now right.
    + intros Hin. apply Hb. now right.
Qed.

Lemma afterKey_written (key ws1 ws2 rest : jsstring) :
  forallb isWhiteSpace ws1 = true -> forallb isWhiteSpace ws2 = true ->
  afterKey key (quoted key ++ ws1 ++ [c_colon] ++ ws2 ++ [c_quote] ++ rest)
  = Some (c_quote :: rest).
Proof.
  intros H1 H2. unfold afterKey. fold (quoted key). rewrite literal_app.
  cbn [obind app].
  rewrite (trimStart_to_solid ws1 _ c_colon H1 eq_refl).
  cbn [expect]. rewrite N.eqb_refl. cbn [obind].
  now rewrite (trimStart_to_solid ws2 _ c_quote H2 eq_refl).
Qed.

Lemma flashcardAt_written (ws1 ws2 mid ws3 ws4 rest : jsstring)
  (c : Flashcard) :
  forallb isWhiteSpace (ws1 ++ ws2 ++ ws3 ++ ws4) = true ->
  ~ In c_quote mid ->
  plainText (front c) -> plainText (back c) ->
  flashcardAt (memberText (str "front") ws1 ws2 (front c)
                 ++ mid ++ memberText (str "back") ws3 ws4 (back c) ++ rest)
  = Some (c, rest).
Proof.
  intros Hws Hmid Hf Hb.
  rewrite !forallb_app in Hws.
  apply andb_prop in Hws as [H1 Hws]. apply andb_prop in Hws as [H2 Hws].
  apply andb_prop in Hws as [H3 H4].
  unfold flashcardAt, memberText.
  rewrite <- !app_assoc. rewrite (afterKey_written (str "front") ws1 ws2 _ H1 H2).
  cbn [obind expect]. rewrite N.eqb_refl. cbn [obind app].
  rewrite (stringBody_plain (front c) _ Hf). cbn [obind fst snd].
  assert (Hback : searchFirst backAt
                    (mid ++ quoted (str "back") ++ ws3 ++ [c_colon] ++ ws4
                         ++ [c_quote] ++ back c ++ [c_quote] ++ rest)
                  = Some (back c, rest)).
  { unfold backAt.
    rewrite (searchFirst_past (str "back") _ mid _ Hmid).
    assert (Hm : obind (afterKey (str "back")
                          (quoted (str "back") ++ ws3 ++ [c_colon] ++ ws4
                             ++ [c_quote] ++ back c ++ [c_quote] ++ rest))
                   (fun r => obind (expect c_quote r) stringBody)
                 = Some (back c, rest)).
    { rewrite (afterKey_written (str "back") ws3 ws4 _ H3 H4).
      cbn [obind expect]. rewrite N.eqb_refl. cbn [obind app].
      apply (stringBody_plain (back c) rest Hb). }
    destruct (quoted (str "back") ++ ws3 ++ [c_colon] ++ ws4
                ++ [c_quote] ++ back c ++ [c_quote] ++ rest);
      cbn [searchFirst]; now rewrite Hm. }
  cbn [app] in Hback |- *. rewrite Hback. cbn [obind fst snd].
  now destruct c.
Qed.

Lemma matchAllFrom_before {A : Type} (key : jsstring)
  (k : jsstring -> option (A * jsstring)) (sep rest : jsstring) (x : char) :
  includes (quoted key) sep = false -> ~ In x (quoted key) ->
  matchAllFrom (fun s => obind (afterKey key s) k) 0 (sep ++ x :: rest)
  = matchAllFrom (fun s => obind (afterKey key s) k) 0 (x :: rest).
Proof.
  intros Hinc Hx. induction sep as [|c sep IH]; [reflexivity|].
  cbn [includes] in Hinc. apply orb_false_iff in Hinc as [Hs Hinc].
  cbn [app matchAllFrom].
  rewrite (afterKey_absent key (c :: sep ++ x :: rest)).
  - cbn [obind]. now apply IH.
  - change (c :: sep ++ x :: rest) with ((c :: sep) ++ x :: rest).
    now rewrite (startsWith_barrier (quoted key) (c :: sep) rest x Hx).
Qed.

Lemma whiteSpace_no_quote (ws : jsstring) :
  forallb isWhiteSpace ws = true -> ~ In c_quote ws.
Proof.
  induction ws as [|c ws IH]; intros H; [intros []|].
  cbn [forallb] in H. apply andb_prop in H as [Hc Hws].
  intros [E|Hin]; [subst c; discriminate|now apply IH].
Qed.

Lemma matchAll_flashcards (cards : list Flashcard) (text : jsstring) :
  writesCards cards text -> matchAll flashcardAt text = cards.
Proof.
  unfold matchAll.
  induction 1 as [tail Htail
                 |sep ws0 ws1 ws2 mid ws3 ws4 c cards rest
                      Hsep Hws Hmid Hf Hb _ IH].
  - unfold flashcardAt.
    apply (matchAllFrom_absent (str "front") _ tail Htail 0).
  - rewrite forallb_app in Hws. apply andb_prop in Hws as [H0 Hws].
    unfold flashcardAt at 1. cbn [app].
    rewrite (matchAllFrom_before (str "front") _ sep _ c_lbrace Hsep)
      by (cbn; intuition discriminate).
    change (c_lbrace :: ws0 ++ ?w) with ((c_lbrace :: ws0) ++ w).
    rewrite (matchAllFrom_past (str "front") _ (c_lbrace :: ws0)).
    2:{ intros [E|Hin]; [discriminate|].
        now apply (whiteSpace_no_quote ws0 H0). }
    fold flashcardAt.
    replace (memberText (str "front") ws1 ws2 (front c)
               ++ mid ++ memberText (str "back") ws3 ws4 (back c) ++ rest)
      with ((memberText (str "front") ws1 ws2 (front c)
               ++ mid ++ memberText (str "back") ws3 ws4 (back c)) ++ rest)
      by (now rewrite <- !app_assoc).
    rewrite (matchAllFrom_hit flashcardAt c _ rest).
    + now rewrite IH.
    + unfold memberText, quoted. discriminate.
    + rewrite <- !app_assoc. now apply flashcardAt_written.
Qed.

(** X23: fallbackExtraction recovers the flashcards of a text.  When the
    text holds flashcards written in the usual way (an opening brace, the
    key front with its quoted text, then the key back with its quoted
    text, fronts and backs without double quotes and backslashes), with
    the key front occurring nowhere else, also not in the rest behind the
    last card, as in a response that breaks off, the flashcards extracted
    are exactly these, in their order. *)
Theorem fallbackExtraction_reads_flashcards (cards : list Flashcard)
  (text : jsstring) :
  writesCards cards text ->
  flashcards (fallbackExtraction text) = cards.
Proof.
  intros Hw. unfold fallbackExtraction. cbn [flashcards].
  now apply matchAll_flashcards.
Qed.

Lemma fallbackExtraction_reads_flashcards_witness :
  flashcards (fallbackExtraction responseTwoCards)
  = [{| front := str "Mitosis"; back := str "Division" |};
     {| front := str "ATP"; back := str "Energy" |}].
Proof.
  apply (fallbackExtraction_reads_flashcards
           [{| front := str "Mitosis"; back := str "Division" |};
            {| front := str "ATP"; back := str "Energy" |}]
           responseTwoCards).
  apply (writes_card (strq "{'title': 'Cells', 'flashcards': [")
           [] [] (str " ") (str ", ") [] (str " ")
           {| front := str "Mitosis"; back := str "Division" |}
           [{| front := str "ATP"; back := str "Energy" |}]
           (strq "}, { 'front' : 'ATP' , 'back' : 'Energy'}, {'fro")).
  - reflexivity.
  - reflexivity.
  - simpl. intuition discriminate.
  - split; simpl; intuition discriminate.
  - split; simpl; intuition discriminate.
  - apply (writes_card (strq "}, ") (str " ") (str " ") (str " ")
             (str " , ") (str " ") (str " ")
             {| front := str "ATP"; back := str "Energy" |} []
             (strq "}, {'fro")).
    + reflexivity.
    + reflexivity.
    + simpl. intuition discriminate.
    + split; simpl; intuition discriminate.
    + split; simpl; intuition discriminate.
    + apply writes_none. reflexivity.
Defined.

Lemma stringBody_escaped (body rest : jsstring) :
  escapedBody body -> stringBody (body ++ c_quote :: rest) = Some (body, rest).
Proof.
  induction 1 as [|c body Hq Hb _ IH|e body He _ IH].
  - cbn [app stringBody]. now rewrite N.eqb_refl.
  - cbn [app stringBody].
    apply N.eqb_neq in Hq. apply N.eqb_neq in Hb. now rewrite Hq, Hb, IH.
  - cbn [app stringBody]. change (c_backslash =? c_quote)%N with false.
    rewrite N.eqb_refl, He, IH. reflexivity.
Qed.

(** X24: fallbackExtraction reads a summary as it is written.  In a text
    whose first double quote opens the key summary, followed by a colon
    and a quoted string, the summary extracted is the body of that string
    exactly as written: it ends at the first double quote that is not
    escaped, and its escapes are kept as they are, not decoded. *)
Theorem fallbackExtraction_reads_summary (pre ws1 ws2 body post : jsstring) :
  ~ In c_quote pre ->
  forallb isWhiteSpace ws1 = true ->
  forallb isWhiteSpace ws2 = true ->
  escapedBody body ->
  summary (fallbackExtraction
             (pre ++ memberText (str "summary") ws1 ws2 body ++ post)) = body.
Proof.
  intros Hpre H1 H2 Hbody. unfold fallbackExtraction. cbn [summary].
  unfold summaryMatch. rewrite (searchFirst_past (str "summary") _ pre _ Hpre).
  set (rest := memberText (str "summary") ws1 ws2 body ++ post).
  assert (Hm : obind (afterKey (str "summary") rest)
                 (fun r => obind (expect c_quote r)
                   (fun r' => obind (stringBody r')
                     (fun br => Some (fst br)))) = Some body).
  { unfold rest, memberText. rewrite <- !app_assoc.
    rewrite (afterKey_written (str "summary") ws1 ws2 _ H1 H2).
    cbn [obind expect]. rewrite N.eqb_refl. cbn [obind app].
    rewrite (stringBody_escaped body post Hbody). reflexivity. }
  destruct rest as [|x rest']; cbn [searchFirst]; now rewrite Hm.
Qed.

Lemma fallbackExtraction_reads_summary_witness :
  summary (fallbackExtraction
             (str "{" ++ memberText (str "summary") [] (str " ")
                           (str "Line one\nsaid " ++ [c_backslash; c_quote]
                              ++ str "hi" ++ [c_backslash; c_quote])
                  ++ str ", and then the text breaks off"))
  = str "Line one\nsaid " ++ [c_backslash; c_quote] ++ str "hi"
    ++ [c_backslash; c_quote].
Proof.
  apply (fallbackExtraction_reads_summary (str "{") [] (str " ")
           (str "Line one\nsaid " ++ [c_backslash; c_quote] ++ str "hi"
              ++ [c_backslash; c_quote])
           (str ", and then the text breaks off")).
  - simpl. intuition discriminate.
  - reflexivity.
  - reflexivity.
  - cbn. repeat (first [ apply escaped_nil
                       | apply escaped_escape; [reflexivity|]
                       | apply escaped_char; [discriminate|discriminate|] ]).
Defined.

(* --------------------------------------------------------------------- *)
(** ** What a delivered analysis looks like *)
(* --------------------------------------------------------------------- *)

Lemma sanitizeQuiz_truthy (raw : JsValue) (q : QuizQuestion) :
  sanitizeQuiz raw = Ok q ->
  truthy (question q) = true /\ truthy (explanation q) = true.
Proof.
  intros H. pose proof (sanitizeQuiz_inv raw q H) as Hn.
  rewrite (sanitizeQuiz_ok raw Hn) in H. injection H as <-.
  cbn [question explanation]. split.
  - destruct (truthy (fieldOf raw (str "question"))) eqn:E; [exact E|reflexivity].
  - destruct (truthy (fieldOf raw (str "explanation"))) eqn:E;
      [exact E|reflexivity].
Qed.

(** X16: the filter of the quiz view drops no question that the analysis
    delivers.  Each delivered question has a truthy question, a truthy
    explanation and at least two options, so validQuizzes returns the
    delivered list as it is.  This is about the filter alone: the question
    and the explanation are whatever truthy values the response held,
    strings or not, and what the view then renders from them is not part
    of the statement. *)
Theorem delivered_quizzes_pass_filter
  (JSON_parse : jsstring -> result JsValue)
  (numberToString : number -> jsstring) (api : nat -> ApiOutcome)
  (d : Delivered) :
  outcome (analyzeLectureContent JSON_parse numberToString api) = Ok d ->
  validQuizzes (deliveredQuizzes d) = deliveredQuizzes d
  /\ Forall (fun q => truthy (question q) = true
                      /\ truthy (explanation q) = true
                      /\ 2 <= List.length (options q))
            (deliveredQuizzes d).
Proof.
  intros Hrun.
  assert (Hall : Forall (fun q => truthy (question q) = true
                                  /\ truthy (explanation q) = true
                                  /\ 2 <= List.length (options q))
                        (deliveredQuizzes d)).
  { apply Forall_forall. intros q Hq.
    destruct (delivered_quiz_origin JSON_parse numberToString api d q Hrun Hq)
      as [raw Hraw].
    destruct (sanitizeQuiz_truthy raw q Hraw) as [H1 H2].
    pose proof (sanitizeQuiz_options raw q Hraw) as H3. auto. }
  split; [|exact Hall].
  unfold validQuizzes. apply filter_all.
  apply Forall_forall. intros q Hq. rewrite Forall_forall in Hall.
  destruct (Hall q Hq) as [H1 [_ H3]]. rewrite H1. cbn [andb].
  now apply Nat.leb_le.
Qed.

Lemma delivered_quizzes_pass_filter_witness :
  validQuizzes [quizIndex7] = [quizIndex7]
  /\ Forall (fun q => truthy (question q) = true
                      /\ truthy (explanation q) = true
                      /\ 2 <= List.length (options q))
            [quizIndex7].
Proof.
  apply (delivered_quizzes_pass_filter
           (parseOnly responseIndex7 valueIndex7) (fun _ => [])
           (fun _ => ApiResponds (Some responseIndex7))
           {| data := valueIndex7;
              deliveredQuizzes := [quizIndex7];
              deliveredFlashcards := [] |}).
  vm_compute. reflexivity.
Defined.

(** A question whose text is an object, not a string, is truthy: the
    post-processing keeps it and the filter of the view passes it. *)
Example question_object_passes_filter :
  let raw := JObj [(str "question", JObj [(str "text", JStr (str "Q"))]);
                   (str "options", JArr [JStr (str "a"); JStr (str "b")])] in
  exists q,
    sanitizeQuiz raw = Ok q
    /\ question q = JObj [(str "text", JStr (str "Q"))]
    /\ validQuizzes [q] = [q].
Proof. eexists. split; [reflexivity|]. split; reflexivity. Qed.

Lemma postProcess_data (numberToString : number -> jsstring)
  (parsed : JsValue) (d : Delivered) :
  postProcess numberToString parsed = Ok d ->
  data d = parsed
  /\ canHoldProperties parsed = true
  /\ titleSaysFailed parsed = Ok false
  /\ deliveredFlashcards d = arrayOr (fieldOf parsed (str "flashcards")) [].
Proof.
  unfold postProcess. intros H.
  destruct (titleSaysFailed parsed) as [[|]|e] eqn:Et; cbn [bind] in H.
  - destruct (getProp parsed (str "summary")); discriminate.
  - destruct (canHoldProperties parsed) eqn:Ec.
    + destruct parsed; try discriminate.
      * cbn [getProp bind negb] in H.
        destruct (sanitizeQuizzes _); [|discriminate].
        cbn [bind] in H. injection H as <-. cbn. auto.
      * cbn [getProp bind negb] in H.
        destruct (sanitizeQuizzes _); [|discriminate].
        cbn [bind] in H. injection H as <-. cbn. auto.
    + destruct (getProp parsed (str "quizzes")); [|discriminate].
      cbn [bind] in H.
      destruct (getProp parsed (str "flashcards")); discriminate.
  - discriminate.
Qed.

Lemma titleSaysFailed_string (parsed : JsValue) (t : jsstring) :
  titleSaysFailed parsed = Ok false ->
  fieldOf parsed (str "title") = JStr t ->
  includes (str "Error") t = false
  /\ includes (str "Analysis Failed") t = false.
Proof.
  unfold titleSaysFailed. intros H Ht.
  destruct parsed; cbn [fieldOf] in Ht; try discriminate.
  cbn [getProp bind] in H. rewrite Ht in H.
  destruct t as [|c t].
  - split; reflexivity.
  - cbn [truthy callIncludes bind] in H.
    destruct (includes (str "Error") (c :: t)); [discriminate|].
    injection H as H. auto.
Qed.

Lemma runAttempt_postProcess
  (JSON_parse : jsstring -> result JsValue)
  (numberToString : number -> jsstring) (api : nat -> ApiOutcome)
  (n : nat) (d : Delivered) :
  runAttempt JSON_parse numberToString api n = Ok d ->
  exists parsed, postProcess numberToString parsed = Ok d.
Proof.
  unfold runAttempt. intros H.
  destruct (api n) as [e|[[|c text]|]]; try discriminate.
  destruct (parseResponse JSON_parse (c :: text)) as [parsed|e];
    [|discriminate].
  cbn [bind] in H. now exists parsed.
Qed.

(** X17: what analyzeLectureContent never delivers.  The value it returns
    is an object (or an array), never null or a primitive value; when its
    title is a string, the title contains neither the word Error nor
    Analysis Failed; and the flashcards delivered are the array the value
    held under that name, or none when it held no array. *)
Theorem delivered_data_sound
  (JSON_parse : jsstring -> result JsValue)
  (numberToString : number -> jsstring) (api : nat -> ApiOutcome)
  (d : Delivered) :
  outcome (analyzeLectureContent JSON_parse numberToString api) = Ok d ->
  canHoldProperties (data d) = true
  /\ (forall t, fieldOf (data d) (str "title") = JStr t ->
                includes (str "Error") t = false
                /\ includes (str "Analysis Failed") t = false)
  /\ deliveredFlashcards d = arrayOr (fieldOf (data d) (str "flashcards")) [].
Proof.
  intros Hrun.
  destruct (retryLoop_delivers JSON_parse numberToString api _ _ d Hrun)
    as [n Hn].
  destruct (runAttempt_postProcess _ _ _ n d Hn) as [parsed Hp].
  destruct (postProcess_data numberToString parsed d Hp)
    as [Hd [Hc [Ht Hf]]].
  rewrite Hd. split; [exact Hc|]. split; [|exact Hf].
  intros t. now apply titleSaysFailed_string.
Qed.

Lemma delivered_data_sound_witness :
  canHoldProperties valueIndex7 = true
  /\ (forall t, fieldOf valueIndex7 (str "title") = JStr t ->
                includes (str "Error") t = false
                /\ includes (str "Analysis Failed") t = false)
  /\ @nil JsValue = arrayOr (fieldOf valueIndex7 (str "flashcards")) [].
Proof.
  apply (delivered_data_sound
           (parseOnly responseIndex7 valueIndex7) (fun _ => [])
           (fun _ => ApiResponds (Some responseIndex7))
           {| data := valueIndex7;
              deliveredQuizzes := [quizIndex7];
              deliveredFlashcards := [] |}).
  vm_compute. reflexivity.
Defined.

(** A response that is the number 400 parses, and the assignment to
    data.quizzes throws the TypeError of strict mode, whose message quotes
    the type and the value; handleInputSubmit then shows the text for a
    message that contains 400. *)
Example postProcess_number_400 :
  let thrown := Error (str "Cannot create property 'quizzes' on number '400'") in
  postProcess (fun _ => str "400") (JNum (numOfPos 400)) = Throw thrown
  /\ errorMsg true thrown
     = str "Input Error: The file might be corrupted or the format invalid.".
Proof. split; vm_compute; reflexivity. Qed.

(* --------------------------------------------------------------------- *)
(** ** The quiz view: marking and score *)
(* --------------------------------------------------------------------- *)

Lemma validQuizzes_options (quizzes : list QuizQuestion) (q : QuizQuestion) :
  In q (validQuizzes quizzes) -> 2 <= List.length (options q).
Proof.
  unfold validQuizzes. intros H. apply filter_In in H as [_ H].
  apply andb_prop in H as [_ H]. now apply Nat.leb_le.
Qed.

(** X18: when the results are shown, exactly one option of every question
    on display is marked correct, whatever number the question holds as
    its correct index: the option at the clamped index, which exists. *)
Theorem one_option_marked_correct (quizzes : list QuizQuestion)
  (s : QuizState) (quiz : QuizQuestion) (qIdx : nat) :
  In quiz (validQuizzes quizzes) ->
  showResults s = true ->
  exists i,
    i < List.length (options quiz)
    /\ getSafeCorrectIndex quiz = Int (Z.of_nat i)
    /\ forall oIdx, optionStatus s quiz qIdx oIdx = StatusCorrect <-> oIdx = i.
Proof.
  intros Hq Hshow. pose proof (validQuizzes_options quizzes quiz Hq) as Hlen.
  destruct (getSafeCorrectIndex_clamped quiz) as [z [Hz Hrange]]; [lia|].
  exists (Z.to_nat z).
  assert (Ez : Z.of_nat (Z.to_nat z) = z) by lia.
  split; [lia|]. split; [now rewrite Ez|].
  intros oIdx. unfold optionStatus. cbv zeta. rewrite Hshow, Hz.
  cbn [selectedIs]. destruct (Z.of_nat oIdx =? z)%Z eqn:E.
  - apply Z.eqb_eq in E. split; [intros _; lia|reflexivity].
  - apply Z.eqb_neq in E. split.
    + destruct (selectedIs _ _); discriminate.
    + intros ->. lia.
Qed.

Lemma one_option_marked_correct_witness :
  exists i,
    i < List.length (options quizIndex7)
    /\ getSafeCorrectIndex quizIndex7 = Int (Z.of_nat i)
    /\ forall oIdx,
         optionStatus {| selectedAnswers := [(0, 1)]; showResults := true |}
           quizIndex7 0 oIdx = StatusCorrect <-> oIdx = i.
Proof.
  apply (one_option_marked_correct [quizIndex7]
           {| selectedAnswers := [(0, 1)]; showResults := true |} quizIndex7 0).
  - simpl. auto.
  - reflexivity.
Defined.

Lemma scoreFrom_bound (valid : list QuizQuestion) (answers : list (nat * nat)) :
  forall idx, scoreFrom idx valid answers <= List.length valid.
Proof.
  induction valid as [|q valid IH]; intros idx; [apply Nat.le_refl|].
  cbn [scoreFrom List.length]. specialize (IH (S idx)).
  destruct (selectedIs _ _); lia.
Qed.

Lemma scoreFrom_full (valid : list QuizQuestion) (answers : list (nat * nat)) :
  forall idx,
    scoreFrom idx valid answers = List.length valid
    <-> (forall k q, nth_error valid k = Some q ->
           selectedIs (answerOf (idx + k) answers) (getSafeCorrectIndex q)
           = true).
Proof.
  induction valid as [|q valid IH]; intros idx.
  - split; [|reflexivity]. intros _ [|k] q' H; discriminate.
  - cbn [scoreFrom List.length].
    pose proof (scoreFrom_bound valid answers (S idx)) as Hb.
    specialize (IH (S idx)). split.
    + intros H k q' Hk.
      destruct (selectedIs (answerOf idx answers) (getSafeCorrectIndex q))
        eqn:E; [|lia].
      destruct k as [|k].
      * cbn in Hk. injection Hk as <-. now rewrite Nat.add_0_r.
      * cbn [nth_error] in Hk. rewrite Nat.add_succ_r.
        apply (proj1 IH); [lia|exact Hk].
    + intros H. pose proof (H 0 q eq_refl) as H0. rewrite Nat.add_0_r in H0.
      rewrite H0. cbn [Nat.add]. f_equal. apply (proj2 IH). intros k q' Hk.
      specialize (H (S k) q' Hk). now rewrite Nat.add_succ_r in H.
Qed.

(** X19: the score never exceeds the number of questions on display, and
    it equals that number exactly when every question on display is
    answered with the option at its clamped correct index. *)
Theorem calculateScore_full (quizzes : list QuizQuestion) (s : QuizState) :
  calculateScore quizzes s <= List.length (validQuizzes quizzes)
  /\ (calculateScore quizzes s = List.length (validQuizzes quizzes)
      <-> forall qIdx quiz,
            nth_error (validQuizzes quizzes) qIdx = Some quiz ->
            exists oIdx,
              answerOf qIdx (selectedAnswers s) = Some oIdx
              /\ getSafeCorrectIndex quiz = Int (Z.of_nat oIdx)).
Proof.
  unfold calculateScore. split; [apply scoreFrom_bound|].
  rewrite (scoreFrom_full (validQuizzes quizzes) (selectedAnswers s) 0).
  split.
  - intros H qIdx quiz Hq. specialize (H qIdx quiz Hq). cbn [Nat.add] in H.
    destruct (answerOf qIdx (selectedAnswers s)) as [o|]; [|discriminate].
    exists o. split; [reflexivity|].
    destruct (getSafeCorrectIndex quiz) as [|z|]; try discriminate.
    cbn [selectedIs] in H. apply Z.eqb_eq in H. now rewrite H.
  - intros H k q Hq. destruct (H k q Hq) as [o [Ho Hs]]. cbn [Nat.add].
    rewrite Ho, Hs. cbn [selectedIs]. apply Z.eqb_refl.
Qed.

Lemma answerOf_In (k : nat) (answers : list (nat * nat)) :
  In k (map fst answers) ->
  exists o, answerOf k answers = Some o /\ In (k, o) answers.
Proof.
  unfold answerOf. induction answers as [|[k' o'] answers IH]; intros H;
    [destruct H|].
  cbn [find fst]. destruct (k' =? k) eqn:E.
  - apply Nat.eqb_eq in E. subst k'. exists o'. split; [reflexivity|now left].
  - destruct H as [H|H]; [cbn in H; subst k'; now rewrite Nat.eqb_refl in E|].
    destruct (IH H) as [o [Ho Hin]]. exists o. split; [exact Ho|now right].
Qed.

Lemma setAnswer_inRange (quizzes : list QuizQuestion) (qIdx oIdx : nat)
  (quiz : QuizQuestion) (answers : list (nat * nat)) :
  nth_error (validQuizzes quizzes) qIdx = Some quiz ->
  oIdx < List.length (options quiz) ->
  answersInRange quizzes answers ->
  answersInRange quizzes (setAnswer qIdx oIdx answers).
Proof.
  intros Hq Ho [Hnd Hall]. unfold setAnswer. split.
  - cbn [map fst]. constructor.
    + intros Hin. apply in_map_iff in Hin as [[k o] [Hk Hin]].
      apply filter_In in Hin as [_ Hne]. cbn [fst] in *. subst k.
      now rewrite Nat.eqb_refl in Hne.
    + now apply filter_keeps_distinct.
  - constructor; [exists quiz; auto|].
    apply Forall_forall. intros p Hp. apply filter_In in Hp as [Hp _].
    rewrite Forall_forall in Hall. now apply Hall.
Qed.

Lemma quizReachable_inv (quizzes : list QuizQuestion) (s : QuizState) :
  quizReachable quizzes s ->
  answersInRange quizzes (selectedAnswers s)
  /\ (showResults s = true ->
      List.length (validQuizzes quizzes) <= List.length (selectedAnswers s)).
Proof.
  induction 1 as [|s s' _ [Hin Hshow] Hstep].
  - split; [split; constructor|discriminate].
  - destruct Hstep as [s qIdx oIdx quiz Hq Ho|s|s].
    + unfold handleSelect. destruct (showResults s) eqn:E.
      * split; [exact Hin|]. intros _. now apply Hshow.
      * cbn [selectedAnswers showResults].
        split; [now apply (setAnswer_inRange quizzes qIdx oIdx quiz)|discriminate].
    + unfold handleComplete.
      destruct (List.length (selectedAnswers s)
                <? List.length (validQuizzes quizzes)) eqn:E.
      * split; [exact Hin|exact Hshow].
      * cbn [selectedAnswers showResults]. split; [exact Hin|].
        intros _. apply Nat.ltb_ge in E. exact E.
    + split; [split; constructor|discriminate].
Qed.

(** X20: the results of a quiz are only ever shown for a quiz that is
    answered completely.  In every state the view reaches by selecting
    options of the questions on display, completing and starting again,
    the answers held are for questions on display and name an option of
    their question; and when the results are shown, every question on
    display has an answer. *)
Theorem results_only_when_all_answered (quizzes : list QuizQuestion)
  (s : QuizState) :
  quizReachable quizzes s ->
  answersInRange quizzes (selectedAnswers s)
  /\ (showResults s = true ->
      forall qIdx quiz,
        nth_error (validQuizzes quizzes) qIdx = Some quiz ->
        exists oIdx,
          answerOf qIdx (selectedAnswers s) = Some oIdx
          /\ oIdx < List.length (options quiz)).
Proof.
  intros Hreach. destruct (quizReachable_inv quizzes s Hreach) as [Hin Hshow].
  split; [exact Hin|]. intros Hs qIdx quiz Hq. specialize (Hshow Hs).
  destruct Hin as [Hnd Hall].
  assert (Hkeys : incl (seq 0 (List.length (validQuizzes quizzes)))
                       (map fst (selectedAnswers s))).
  { apply NoDup_length_incl; [exact Hnd|now rewrite length_seq, length_map|].
    intros k Hk. apply in_map_iff in Hk as [p [<- Hp]].
    rewrite Forall_forall in Hall. destruct (Hall p Hp) as [q' [Hq' _]].
    apply in_seq. split; [lia|]. cbn [Nat.add].
    apply nth_error_Some. congruence. }
  assert (Hk : In qIdx (map fst (selectedAnswers s))).
  { apply Hkeys. apply in_seq. split; [lia|]. cbn [Nat.add].
    apply nth_error_Some. congruence. }
  destruct (answerOf_In qIdx _ Hk) as [o [Ho Hp]]. exists o.
  split; [exact Ho|]. rewrite Forall_forall in Hall.
  destruct (Hall _ Hp) as [q' [Hq' Hlt]]. cbn [fst snd] in *. congruence.
Qed.

Lemma results_only_when_all_answered_witness :
  let s := handleComplete [quizIndex7] (handleSelect 0 3 quizInitial) in
  answersInRange [quizIndex7] (selectedAnswers s)
  /\ (showResults s = true ->
      forall qIdx quiz,
        nth_error (validQuizzes [quizIndex7]) qIdx = Some quiz ->
        exists oIdx,
          answerOf qIdx (selectedAnswers s) = Some oIdx
          /\ oIdx < List.length (options quiz)).
Proof.
  intros s. apply (results_only_when_all_answered [quizIndex7] s).
  apply (quizReachable_step [quizIndex7] (handleSelect 0 3 quizInitial)).
  - apply (quizReachable_step [quizIndex7] quizInitial).
    + apply quizReachable_initial.
    + apply (quiz_select [quizIndex7] quizInitial 0 3 quizIndex7).
      * reflexivity.
      * simpl. lia.
  - apply quiz_complete.
Defined.

(* --------------------------------------------------------------------- *)
(** ** The flashcards view: the index of the card *)
(* --------------------------------------------------------------------- *)

Lemma handleNext_in_range (len : nat) (p : Z) :
  (0 <= p < Z.of_nat len)%Z ->
  handleNext len (Index p)
  = Index (if (p + 1 =? Z.of_nat len)%Z then 0 else p + 1).
Proof.
  intros H. unfold handleNext, remainder. destruct len as [|n]; [lia|].
  f_equal. destruct (p + 1 =? Z.of_nat (S n))%Z eqn:E.
  - apply Z.eqb_eq in E. rewrite E. apply Z.rem_same. lia.
  - apply Z.eqb_neq in E. apply Z.rem_small. lia.
Qed.

Lemma handlePrev_in_range (len : nat) (p : Z) :
  (0 <= p < Z.of_nat len)%Z ->
  handlePrev len (Index p)
  = Index (if (p =? 0)%Z then Z.of_nat len - 1 else p - 1).
Proof.
  intros H. unfold handlePrev, remainder. destruct len as [|n]; [lia|].
  f_equal. destruct (p =? 0)%Z eqn:E.
  - apply Z.eqb_eq in E. subst p. apply Z.rem_small. lia.
  - apply Z.eqb_neq in E.
    rewrite Z.rem_mod_nonneg by lia.
    replace (p - 1 + Z.of_nat (S n))%Z with (p - 1 + 1 * Z.of_nat (S n))%Z
      by lia.
    rewrite Z.mod_add by lia. apply Z.mod_small. lia.
Qed.

(** X21: in a deck of [len] cards, [len] positive, the index of the card
    on display is always one of the deck: it starts at 0, the next card
    after the last is the first, the card before the first is the last,
    and each of the two handlers undoes the other. *)
Theorem card_index_in_range (len : nat) (i : CardIndex) :
  0 < len -> cardReachable len i ->
  exists p,
    i = Index p /\ (0 <= p < Z.of_nat len)%Z
    /\ handleNext len i
       = Index (if (p + 1 =? Z.of_nat len)%Z then 0 else p + 1)
    /\ handlePrev len i
       = Index (if (p =? 0)%Z then Z.of_nat len - 1 else p - 1)
    /\ handlePrev len (handleNext len i) = i
    /\ handleNext len (handlePrev len i) = i.
Proof.
  intros Hlen Hreach.
  assert (Hrange : exists p, i = Index p /\ (0 <= p < Z.of_nat len)%Z).
  { induction Hreach as [|i _ [p [-> Hp]]|i _ [p [-> Hp]]].
    - exists 0%Z. split; [reflexivity|lia].
    - rewrite (handleNext_in_range len p Hp). eexists. split; [reflexivity|].
      destruct (p + 1 =? Z.of_nat len)%Z eqn:E; [lia|].
      apply Z.eqb_neq in E. lia.
    - rewrite (handlePrev_in_range len p Hp). eexists. split; [reflexivity|].
      destruct (p =? 0)%Z eqn:E; [lia|]. apply Z.eqb_neq in E. lia. }
  destruct Hrange as [p [-> Hp]]. exists p.
  split; [reflexivity|]. split; [exact Hp|].
  rewrite (handleNext_in_range len p Hp), (handlePrev_in_range len p Hp).
  split; [reflexivity|]. split; [reflexivity|]. split.
  - destruct (p + 1 =? Z.of_nat len)%Z eqn:E.
    + apply Z.eqb_eq in E. rewrite handlePrev_in_range by lia.
      cbn [Z.eqb]. f_equal. lia.
    + apply Z.eqb_neq in E. rewrite handlePrev_in_range by lia.
      destruct (p + 1 =? 0)%Z eqn:E0; [apply Z.eqb_eq in E0; lia|].
      f_equal. lia.
  - destruct (p =? 0)%Z eqn:E.
    + apply Z.eqb_eq in E. subst p. rewrite handleNext_in_range by lia.
      replace (Z.of_nat len - 1 + 1 =? Z.of_nat len)%Z with true
        by (symmetry; apply Z.eqb_eq; lia).
      reflexivity.
    + apply Z.eqb_neq in E. rewrite handleNext_in_range by lia.
      replace (p - 1 + 1 =? Z.of_nat len)%Z with false
        by (symmetry; apply Z.eqb_neq; lia).
      f_equal. lia.
Qed.

Lemma card_index_in_range_witness :
  exists p,
    handlePrev 3 (Index 0) = Index p /\ (0 <= p < Z.of_nat 3)%Z
    /\ handleNext 3 (handlePrev 3 (Index 0))
       = Index (if (p + 1 =? Z.of_nat 3)%Z then 0 else p + 1)
    /\ handlePrev 3 (handlePrev 3 (Index 0))
       = Index (if (p =? 0)%Z then Z.of_nat 3 - 1 else p - 1)
    /\ handlePrev 3 (handleNext 3 (handlePrev 3 (Index 0)))
       = handlePrev 3 (Index 0)
    /\ handleNext 3 (handlePrev 3 (handlePrev 3 (Index 0)))
       = handlePrev 3 (Index 0).
Proof.
  apply (card_index_in_range 3 (handlePrev 3 (Index 0))).
  - lia.
  - apply card_prev. apply card_start.
Defined.

(* --------------------------------------------------------------------- *)
(** ** The links that the upload form accepts *)
(* --------------------------------------------------------------------- *)

Lemma startsWith_split (p s : jsstring) :
  startsWith p s = true -> s = p ++ skipn (List.length p) s.
Proof.
  revert s. induction p as [|x p IH]; intros s H; [reflexivity|].
  destruct s as [|c s]; [discriminate|]. cbn [startsWith] in H.
  apply andb_prop in H as [Hx Hp]. apply N.eqb_eq in Hx. subst c.
  cbn [List.length skipn app]. f_equal. now apply IH.
Qed.

Lemma literal_some (p s r : jsstring) : literal p s = Some r -> s = p ++ r.
Proof.
  unfold literal. destruct (startsWith p s) eqn:E; [|discriminate].
  intros H. injection H as <-. now apply startsWith_split.
Qed.

Lemma firstOf_some (pats : list jsstring) (s p r : jsstring) :
  firstOf pats s = Some (p, r) -> In p pats /\ s = p ++ r.
Proof.
  induction pats as [|q pats IH]; [discriminate|]. cbn [firstOf].
  destruct (literal q s) as [r'|] eqn:E.
  - intros H. injection H as <- <-. split; [now left|].
    now apply literal_some.
  - intros H. destruct (IH H) as [Hin Hs]. split; [now right|exact Hs].
Qed.

Lemma optionalOf_split (pats : list jsstring) (s : jsstring) :
  In (fst (optionalOf pats s)) ([] :: pats)
  /\ s = fst (optionalOf pats s) ++ snd (optionalOf pats s).
Proof.
  unfold optionalOf. destruct (firstOf pats s) as [[p r]|] eqn:E.
  - destruct (firstOf_some _ _ _ _ E) as [Hin Hs]. cbn [fst snd].
    split; [now right|exact Hs].
  - cbn [fst snd]. split; [now left|reflexivity].
Qed.

Lemma youtubeHead_some (url path r : jsstring) :
  youtubeHead url = Some (path, r) ->
  exists pre, In pre youtubePrefixes /\ url = pre ++ r.
Proof.
  unfold youtubeHead. cbv zeta.
  destruct (optionalOf_split [str "https://"; str "http://"] url) as [Hs Eu].
  set (scheme := fst (optionalOf [str "https://"; str "http://"] url)) in *.
  set (s1 := snd (optionalOf [str "https://"; str "http://"] url)) in *.
  destruct (optionalOf_split [str "www."; str "m."] s1) as [Hw E1].
  set (www := fst (optionalOf [str "www."; str "m."] s1)) in *.
  set (s2 := snd (optionalOf [str "www."; str "m."] s1)) in *.
  intros H.
  assert (Hpath : exists host, s2 = host ++ r
            /\ In host [str "youtube.com/watch?v="; str "youtube.com/embed/";
                        str "youtube.com/v/"; str "youtube.com/shorts/";
                        str "youtube.com/live/"; str "youtu.be/"]).
  { destruct (literal (str "youtube.com/") s2) as [r0|] eqn:El.
    - apply literal_some in El. apply firstOf_some in H as [Hin Hr0].
      exists (str "youtube.com/" ++ path). split.
      + now rewrite El, Hr0, app_assoc.
      + cbn [In] in Hin.
        destruct Hin as [<-|[<-|[<-|[<-|[<-|[]]]]]]; cbn; auto 7.
    - apply firstOf_some in H as [Hin Hr0]. exists path.
      split; [exact Hr0|]. destruct Hin as [<-|[]]. cbn. auto 7. }
  destruct Hpath as [host [E2 Hhost]].
  exists (scheme ++ www ++ host). split.
  - unfold youtubePrefixes. apply in_flat_map. exists scheme. split.
    + cbn [In] in Hs |- *. tauto.
    + apply in_flat_map. exists www. split.
      * cbn [In] in Hw |- *. tauto.
      * apply in_map_iff. exists host. split; [reflexivity|exact Hhost].
  - rewrite Eu at 1. rewrite E1, E2. now rewrite <- !app_assoc.
Qed.

Lemma youtubeHead_prefix (pre r : jsstring) :
  In pre youtubePrefixes -> exists path, youtubeHead (pre ++ r) = Some (path, r).
Proof.
  intros H. vm_compute in H.
  repeat (destruct H as [<-|H]; [eexists; vm_compute; reflexivity|]).
  destruct H.
Qed.

Lemma videoIdAt_iff (s id : jsstring) :
  videoIdAt s = Some id
  <-> exists rest,
        s = id ++ rest /\ List.length id = 11
        /\ forallb isIdChar id = true
        /\ forallb (fun c => negb (isWhiteSpace c)) rest = true.
Proof.
  unfold videoIdAt. cbv zeta. split.
  - pose proof (firstn_skipn 11 s) as Hsplit.
    remember (firstn 11 s) as f eqn:Ef. remember (skipn 11 s) as k eqn:Ek.
    destruct ((List.length f =? 11) && forallb isIdChar f
              && forallb (fun c => negb (isWhiteSpace c)) k) eqn:E;
      [|discriminate].
    intros H. injection H as <-.
    apply andb_prop in E as [E E3]. apply andb_prop in E as [E1 E2].
    apply Nat.eqb_eq in E1. exists k. split; [now symmetry|auto].
  - intros [rest [-> [Hl [Hid Hrest]]]].
    assert (Hf : firstn 11 (id ++ rest) = id).
    { rewrite <- Hl. rewrite firstn_app, Nat.sub_diag, firstn_all. cbn [firstn].
      apply app_nil_r. }
    assert (Hk : skipn 11 (id ++ rest) = rest).
    { rewrite <- Hl. rewrite skipn_app, Nat.sub_diag, skipn_all. reflexivity. }
    rewrite Hf, Hk, Hl, Hid, Hrest. reflexivity.
Qed.

(** X22: the links that the upload form accepts.  The check marks a link
    as valid, with the video id [id] and no error, exactly when the link
    is one of the accepted beginnings (an optional scheme, an optional
    [www.] or [m.], the host with one of its paths) followed by [id],
    eleven characters that are letters, digits, underscores or hyphens,
    and then by nothing or by any characters other than white space. *)
Theorem checkUrl_accepts (url id : jsstring) :
  checkUrl url = {| isValidUrl := true; videoId := Some id; localError := None |}
  <-> exists pre rest,
        In pre youtubePrefixes
        /\ url = pre ++ id ++ rest
        /\ List.length id = 11
        /\ forallb isIdChar id = true
        /\ forallb (fun c => negb (isWhiteSpace c)) rest = true.
Proof.
  split.
  - unfold checkUrl. destruct url as [|c url]; [discriminate|].
    unfold youtubeMatch.
    destruct (youtubeHead (c :: url)) as [[path r]|] eqn:Eh; cbn [obind snd].
    2:{ discriminate. }
    destruct (videoIdAt r) as [id'|] eqn:Ev; [|discriminate].
    intros H. injection H as <-.
    destruct (youtubeHead_some _ _ _ Eh) as [pre [Hpre Eu]].
    apply videoIdAt_iff in Ev as [rest [-> H]].
    exists pre, rest. split; [exact Hpre|]. split; [exact Eu|exact H].
  - intros [pre [rest [Hpre [-> H]]]].
    destruct (youtubeHead_prefix pre (id ++ rest) Hpre) as [path Hh].
    assert (Hm : youtubeMatch (pre ++ id ++ rest) = Some id).
    { unfold youtubeMatch. rewrite Hh. cbn [obind snd].
      apply videoIdAt_iff. now exists rest. }
    unfold checkUrl. rewrite Hm.
    destruct (pre ++ id ++ rest) eqn:E; [|reflexivity].
    apply app_eq_nil in E as [_ E]. apply app_eq_nil in E as [E _].
    subst id. destruct H as [H _]. discriminate.
Qed.


(* --------------------------------------------------------------------- *)
(** ** The key points and the quiz questions that fallbackExtraction reads *)
(* --------------------------------------------------------------------- *)


























(* --------------------------------------------------------------------- *)
(** ** The attempt on a response that only the regular expressions read *)
(* --------------------------------------------------------------------- *)


(* --------------------------------------------------------------------- *)
(** ** The cascade as a whole *)
(* --------------------------------------------------------------------- *)



